(** * Ordinal axis: value/index translation, binary search, segments,
      overscroll and panning

    A shallow embedding of [ts/Core/Axis/OrdinalAxis.ts]: [findIndexOf],
    [getIndexInArray], [val2lin], [index2val], [convertOverscroll],
    [getOverscrollPositions], the segment scan of [getTimeTicks], the
    [onChartPan] handler, [beforeSetTickPositions] and
    [getGroupIntervalFactor], followed by the properties proved of them.

    Numbers.  A JavaScript number is modelled by [num]: a finite value is an
    exact rational ([Q]), and the three non-finite values are kept apart
    because the code can tell them apart ([x || 0], comparisons).  Arithmetic
    on finite values is exact: [num] has neither the rounding nor the
    overflow of IEEE doubles, nor the sign of zero (a division of a non-zero
    finite number by zero gives the infinity of the sign of the numerator).
    The properties are stated so that rounding leaves them true (bounds with
    their ends included, results given as the expression that the code
    evaluates), or else say that they hold when arithmetic is exact.  Where
    rounding changes what a function returns, the function is given once
    more on doubles ([Doubles]), and the difference is shown on an input
    ([OnDoubles]).

    Strings.  A string is a sequence of code units below 256.

    Values.  Where the source can hold [undefined] (a missing property, an
    array read out of range) the model has [option]: [None] is [undefined].
    Arrays of positions hold finite numbers.

    Loops.  A [for] loop over an array runs once per index.  The [while]
    loop of the binary search is given as many turns as the array is long,
    which is more than it takes ([findIndexOf_fuel_enough]); the [while]
    loop of [getOverscrollPositions] may run for ever, so it takes its number
    of turns as an argument and answers [None] when they run out. *)

From Stdlib Require Import ZArith QArith Qround Qabs Bool List String Ascii Lia Lqa.
From Stdlib Require Floats Uint63.
Import ListNotations.

Local Open Scope Z_scope.
Local Open Scope Q_scope.

(* ===================================================================== *)
(** ** JavaScript numbers                                                *)
(* ===================================================================== *)

Module JsNum.

Inductive num : Type :=
| Fin (q : Q)
| PInf
| NInf
| NaN.

(** An [undefined] operand of an arithmetic operator or of a relational
    operator is converted to [NaN]. *)
Definition toNum (v : option Q) : num :=
  match v with
  | Some q => Fin q
  | None => NaN
  end.

Definition ofValue (v : option num) : num :=
  match v with
  | Some n => n
  | None => NaN
  end.

Definition ofZ (z : Z) : num := Fin (inject_Z z).

Definition inf_of_sign (c : comparison) : num :=
  match c with
  | Gt => PInf
  | Lt => NInf
  | Eq => NaN
  end.

Definition nneg (a : num) : num :=
  match a with
  | Fin x => Fin (- x)
  | PInf => NInf
  | NInf => PInf
  | NaN => NaN
  end.

Definition nadd (a b : num) : num :=
  match a, b with
  | NaN, _ | _, NaN => NaN
  | Fin x, Fin y => Fin (x + y)
  | PInf, NInf | NInf, PInf => NaN
  | PInf, _ | _, PInf => PInf
  | NInf, _ | _, NInf => NInf
  end.

Definition nsub (a b : num) : num :=
  match a, b with
  | NaN, _ | _, NaN => NaN
  | Fin x, Fin y => Fin (x - y)
  | PInf, PInf | NInf, NInf => NaN
  | PInf, _ | _, NInf => PInf
  | NInf, _ | _, PInf => NInf
  end.

Definition nmul (a b : num) : num :=
  match a, b with
  | NaN, _ | _, NaN => NaN
  | Fin x, Fin y => Fin (x * y)
  | Fin x, PInf | PInf, Fin x => inf_of_sign (x ?= 0)
  | Fin x, NInf | NInf, Fin x => inf_of_sign (CompOpp (x ?= 0))
  | PInf, PInf | NInf, NInf => PInf
  | PInf, NInf | NInf, PInf => NInf
  end.

Definition ndiv (a b : num) : num :=
  match a, b with
  | NaN, _ | _, NaN => NaN
  | Fin x, Fin y =>
      if Qeq_bool y 0 then inf_of_sign (x ?= 0) else Fin (x / y)
  | Fin _, PInf | Fin _, NInf => Fin 0
  | PInf, Fin y => match y ?= 0 with Lt => NInf | _ => PInf end
  | NInf, Fin y => match y ?= 0 with Lt => PInf | _ => NInf end
  | _, _ => NaN
  end.

(** [a <= b]; false as soon as one side is [NaN]. *)
Definition nle (a b : num) : bool :=
  match a, b with
  | NaN, _ | _, NaN => false
  | Fin x, Fin y => Qle_bool x y
  | NInf, _ => true
  | _, PInf => true
  | _, _ => false
  end.

(** [a < b]. *)
Definition nlt (a b : num) : bool :=
  match a, b with
  | NaN, _ | _, NaN => false
  | _, _ => negb (nle b a)
  end.

Definition nge (a b : num) : bool := nle b a.
Definition ngt (a b : num) : bool := nlt b a.

(** Strict equality [a === b] of two numbers. *)
Definition nseq (a b : num) : bool :=
  match a, b with
  | Fin x, Fin y => Qeq_bool x y
  | PInf, PInf | NInf, NInf => true
  | _, _ => false
  end.

(** Strict equality of two values that are numbers or [undefined]. *)
Definition vseq (a b : option num) : bool :=
  match a, b with
  | None, None => true
  | Some x, Some y => nseq x y
  | _, _ => false
  end.

(** Truthiness of a number: [0] and [NaN] are falsy. *)
Definition truthy (a : num) : bool :=
  match a with
  | Fin x => negb (Qeq_bool x 0)
  | PInf | NInf => true
  | NaN => false
  end.

(** Truthiness of a number or [undefined]. *)
Definition vtruthy (a : option num) : bool :=
  match a with
  | Some n => truthy n
  | None => false
  end.

(** [a || b] on numbers-or-undefined. *)
Definition vor (a b : option num) : option num :=
  if vtruthy a then a else b.

Definition nfloor (a : num) : num :=
  match a with
  | Fin x => Fin (inject_Z (Qfloor x))
  | _ => a
  end.

Definition nabs (a : num) : num :=
  match a with
  | Fin x => Fin (Qabs x)
  | PInf | NInf => PInf
  | NaN => NaN
  end.

(** [Math.round]: the nearest integer, halves going up. *)
Definition nround (a : num) : num :=
  match a with
  | Fin x => Fin (inject_Z (Qfloor (x + (1 # 2))))
  | _ => a
  end.

(** [Math.min] and [Math.max]: [NaN] as soon as one argument is. *)
Definition nmin (a b : num) : num :=
  match a, b with
  | NaN, _ | _, NaN => NaN
  | _, _ => if nle a b then a else b
  end.

Definition nmax (a b : num) : num :=
  match a, b with
  | NaN, _ | _, NaN => NaN
  | _, _ => if nle a b then b else a
  end.

(** [Number.MAX_VALUE], the largest finite double. *)
Definition MAX_VALUE : Q := inject_Z (2 ^ 1024 - 2 ^ 971).

End JsNum.

Import JsNum.

(* ===================================================================== *)
(** ** Collaborators from [Core/Utilities]                               *)
(* ===================================================================== *)

(** Modelled from the spec: [Utilities.pick], defined outside this file,
    returns its first argument when that is known (neither [undefined] nor
    [null]) and its second otherwise ("or cached original ordinal range if
    known"). *)
Definition pick {A : Type} (a : option A) (b : A) : A :=
  match a with
  | Some x => x
  | None => b
  end.

(** Modelled from the spec: [Utilities.defined], defined outside this
    file, tells whether its argument is neither [undefined] nor [null]. *)
Definition defined {A : Type} (a : option A) : bool :=
  match a with
  | Some _ => true
  | None => false
  end.

(* ===================================================================== *)
(** ** Arrays of positions                                               *)
(* ===================================================================== *)

(** [array[i]] for an integer [i]: [undefined] out of range. *)
Definition zget (array : list Q) (i : Z) : option Q :=
  if (i <? 0)%Z then None else nth_error array (Z.to_nat i).

(** [array[x]] for a number [x]: only a non-negative integer names an
    element. *)
Definition aget (array : list Q) (x : num) : option Q :=
  match x with
  | Fin q =>
      if Qeq_bool q (inject_Z (Qfloor q)) then zget array (Qfloor q) else None
  | _ => None
  end.

Definition alength (array : list Q) : Z := Z.of_nat (List.length array).

(** Strictly ascending: each element is below its successor. *)
Fixpoint ascendingb (array : list Q) : bool :=
  match array with
  | [] => true
  | x :: tl =>
      match tl with
      | [] => true
      | y :: _ => negb (Qle_bool y x) && ascendingb tl
      end
  end.

(* ===================================================================== *)
(** ** [Additions.findIndexOf]                                           *)
(* ===================================================================== *)

(** The [while (start < end)] loop.  Each turn shrinks [end - start], so
    [fuel] turns are enough when [end - start < fuel]. *)
Fixpoint findIndexOf_loop (fuel : nat) (sortedArray : list Q) (key : num)
  (start end_ : Z) : Z :=
  match fuel with
  | O => start
  | S fuel' =>
      if (start <? end_)%Z then
        let middle := Qceiling (inject_Z (start + end_) / 2) in
        if nle (toNum (zget sortedArray middle)) key
        then findIndexOf_loop fuel' sortedArray key middle end_
        else findIndexOf_loop fuel' sortedArray key start (middle - 1)
      else start
  end.

Definition findIndexOf (sortedArray : list Q) (key : num)
  (indirectSearch : bool) : Z :=
  let start :=
    findIndexOf_loop (List.length sortedArray) sortedArray key
      0 (alength sortedArray - 1) in
  if vseq (option_map Fin (zget sortedArray start)) (Some key) then start
  else if negb indirectSearch then (-1)%Z else start.

(** ** [getIndexInArray] *)

Definition getIndexInArray (ordinalPositions : list Q) (val : num) : num :=
  let index := findIndexOf ordinalPositions val true in
  if vseq (option_map Fin (zget ordinalPositions index)) (Some val)
  then ofZ index
  else
    let percent :=
      ndiv (nsub val (toNum (zget ordinalPositions index)))
           (nsub (toNum (zget ordinalPositions (index + 1)))
                 (toNum (zget ordinalPositions index))) in
    nadd (ofZ index) percent.

(* ===================================================================== *)
(** ** Axis state                                                        *)
(* ===================================================================== *)

(** The [overscroll] option: a number or a string. *)
Inductive OverscrollOption : Type :=
| OvNumber (n : num)
| OvString (s : string).

(** The fields of [axis.ordinal] that the translation functions read.
    [getExtendedPositions] is [None] on an object without that method (the
    plain object [onChartPan] builds); otherwise it holds what a call
    returns: an array, or [undefined] in the early stages of chart
    creation. *)
Record Ordinal : Type := mkOrdinal {
  positions : option (list Q);
  slope : option num;
  offset : option num;
  overscrollPointsRange : option num;
  originalOrdinalRange : option num;
  getExtendedPositions : option (option (list Q))
}.

Record Axis : Type := mkAxis {
  min : option num;
  max : option num;
  dataMin : option num;
  dataMax : option num;
  len : num;
  translationSlope : num;
  closestPointRange : option num;
  options_ordinal : bool;
  options_overscroll : option OverscrollOption;
  series_length : nat;
  ordinal : Ordinal
}.

(* ===================================================================== *)
(** ** [val2lin] and [index2val]                                         *)
(* ===================================================================== *)

(** Both functions read [this.ordinal] only, so they take that record.

    [val2lin] hands [ordinalPositions[0]] to [getIndexInArray] as a key; it
    is [undefined] when the visible positions are empty.  The key is then
    [NaN] here: the searched array is not empty at that point, so every
    comparison with the key is false either way. *)

Definition lastIndex (array : list Q) : Z := alength array - 1.

Definition val2lin (o : Ordinal) (val : num) (toIndex : bool) : num :=
  match positions o with
  | None => val
  | Some ordinalPositions =>
      let ordinalLength := alength ordinalPositions in
      let finish (slope : option num) (ordinalIndex : num) : num :=
        if toIndex then ordinalIndex
        else nadd (nmul (ofValue slope)
                        (if truthy ordinalIndex then ordinalIndex else Fin 0))
                  (ofValue (offset o)) in
      if nle (toNum (zget ordinalPositions 0)) val
         && nge (toNum (zget ordinalPositions (ordinalLength - 1))) val
      then finish (slope o) (getIndexInArray ordinalPositions val)
      else
        match getExtendedPositions o with
        | None | Some None | Some (Some []) => val
        | Some (Some extendedOrdinalPositions) =>
            let length := alength extendedOrdinalPositions in
            let first := toNum (zget extendedOrdinalPositions 0) in
            let last := toNum (zget extendedOrdinalPositions (length - 1)) in
            let slope1 :=
              if negb (vtruthy (slope o))
              then Some (ndiv (nsub last first) (ofZ length))
              else slope o in
            let originalPositionsReference :=
              getIndexInArray extendedOrdinalPositions
                (toNum (zget ordinalPositions 0)) in
            if nge val first && nle val last
            then finish slope1
                   (nsub (getIndexInArray extendedOrdinalPositions val)
                         originalPositionsReference)
            else if negb toIndex then val
            else if nlt val first then
              let diff := nsub first val in
              let approximateIndexOffset := ndiv diff (ofValue slope1) in
              finish slope1
                (nsub (nneg originalPositionsReference) approximateIndexOffset)
            else
              let diff := nsub val last in
              let approximateIndexOffset := ndiv diff (ofValue slope1) in
              finish slope1
                (nsub (nadd approximateIndexOffset (ofZ length))
                      originalPositionsReference)
        end
  end.

(** The result is a number, or [undefined] when the positions array is
    empty and the index is clamped to a missing first or last element. *)
Definition index2val (o : Ordinal) (index : num) : option num :=
  match positions o with
  | None => Some index
  | Some ordinalPositions =>
      let i := lastIndex ordinalPositions in
      if nlt index (Fin 0) then option_map Fin (zget ordinalPositions 0)
      else if ngt index (ofZ i) then option_map Fin (zget ordinalPositions i)
      else
        let i := nfloor index in
        let distance := nsub index i in
        match aget ordinalPositions i with
        | Some p =>
            Some (nadd (Fin p)
                    (if truthy distance
                     then nmul distance
                            (nsub (toNum (aget ordinalPositions (nadd i (Fin 1))))
                                  (Fin p))
                     else Fin 0))
        | None => Some index
        end
  end.

(* ===================================================================== *)
(** ** [Additions.convertOverscroll]                                     *)
(* ===================================================================== *)

(** The white space and line terminators that [parseInt] skips.  A string
    is taken as a sequence of code units below 256; among these they are the
    controls from TAB to CR, the space and the no-break space U+00A0. *)
Definition isWhiteSpace (c : ascii) : bool :=
  let n := nat_of_ascii c in
  ((9 <=? n)%nat && (n <=? 13)%nat) || (n =? 32)%nat || (n =? 160)%nat.

Definition digitOf (c : ascii) : option Z :=
  let n := nat_of_ascii c in
  if (48 <=? n)%nat && (n <=? 57)%nat then Some (Z.of_nat n - 48)%Z else None.

Fixpoint skipWhiteSpace (s : string) : string :=
  match s with
  | String c r => if isWhiteSpace c then skipWhiteSpace r else s
  | EmptyString => s
  end.

Fixpoint parseDigits (s : string) (acc : option Z) : option Z :=
  match s with
  | String c r =>
      match digitOf c with
      | Some d => parseDigits r (Some (10 * pick acc 0 + d)%Z)
      | None => acc
      end
  | EmptyString => acc
  end.

(** [parseInt(s, 10)]: leading white space, an optional sign, then the
    longest run of decimal digits; [NaN] when that run is empty. *)
Definition parseInt (s : string) : num :=
  let s1 := skipWhiteSpace s in
  let '(sign, s2) :=
    match s1 with
    | String c r =>
        if Ascii.eqb c "-" then ((-1)%Z, r)
        else if Ascii.eqb c "+" then (1%Z, r)
        else (1%Z, s1)
    | EmptyString => (1%Z, s1)
    end in
  match parseDigits s2 None with
  | Some z => ofZ (sign * z)
  | None => NaN
  end.

(** [/%$/.test(s)] *)
Fixpoint endsWithPercent (s : string) : bool :=
  match s with
  | EmptyString => false
  | String c r =>
      match r with
      | EmptyString => Ascii.eqb c "%"
      | String _ _ => endsWithPercent r
      end
  end.

(** [/px/.test(s)] *)
Fixpoint containsPx (s : string) : bool :=
  match s with
  | EmptyString => false
  | String c r =>
      (Ascii.eqb c "p"
       && match r with
          | String c2 _ => Ascii.eqb c2 "x"
          | EmptyString => false
          end)
      || containsPx r
  end.

Definition calculateOverscroll (axis : Axis) (overscrollPercentage : num) : num :=
  nmul
    (pick (originalOrdinalRange (ordinal axis))
       (if defined (dataMax axis) && defined (dataMin axis)
        then nsub (ofValue (dataMax axis)) (ofValue (dataMin axis))
        else Fin 0))
    overscrollPercentage.

Definition convertOverscroll (axis : Axis)
  (overscroll : option OverscrollOption) : num :=
  match pick overscroll (OvNumber (Fin 0)) with
  | OvString s =>
      let overscrollValue := parseInt s in
      if endsWithPercent s then
        calculateOverscroll axis (ndiv overscrollValue (Fin 100))
      else if containsPx s then
        let limitedOverscrollValue :=
          nmin overscrollValue (nmul (len axis) (Fin (9 # 10))) in
        let pixelToPercent := ndiv limitedOverscrollValue (len axis) in
        calculateOverscroll axis
          (ndiv pixelToPercent (nsub (Fin 1) pixelToPercent))
      else Fin 0
  | OvNumber n => n
  end.

(* ===================================================================== *)
(** ** [Additions.getOverscrollPositions]                                *)
(* ===================================================================== *)

(** The [while (max <= dataMax + extraRange)] loop.  It need not end (a
    distance of zero), so the model counts turns: [None] when [fuel] turns
    were not enough. *)
Fixpoint overscrollLoop (fuel : nat) (max bound distance : num)
  (positions : list num) : option (list num) :=
  match fuel with
  | O => None
  | S fuel' =>
      if nle max bound then
        let max' := nadd max distance in
        overscrollLoop fuel' max' bound distance (positions ++ [max'])
      else Some positions
  end.

Definition getOverscrollPositions (fuel : nat) (axis : Axis)
  : option (list num) :=
  let extraRange := convertOverscroll axis (options_overscroll axis) in
  let distance := overscrollPointsRange (ordinal axis) in
  match distance with
  | Some d =>
      overscrollLoop fuel (ofValue (dataMax axis))
        (nadd (ofValue (dataMax axis)) extraRange) d []
  | None => Some []
  end.

(* ===================================================================== *)
(** ** [getTimeTicks]: splitting the positions into segments             *)
(* ===================================================================== *)

Section TimeTicks.

(** [time.getTimeTicks(normalizedInterval, min, max, startOfWeek)], the
    plain time-tick generator of [Core/Time].  The interval and the start of
    week do not change during one call of the ordinal [getTimeTicks], so the
    generator is taken as a function of the two bounds. *)
Variable timeTicks : option num -> option num -> list Q.

Variable positions_ : list Q.
Variable min_ max_ closestDistance : num.

(** The variables of the loop.  [st_closed] is not in the source: it
    records, for every turn that enters the segment branch, the indices
    [(start, end)] of the segment closed there. *)
Record SegState : Type := mkSegState {
  st_start : Z;
  st_segmentPositions : option (list Q);
  st_groupPositions : list Q;
  st_lastGroupPosition : Q;
  st_segmentStarts : list Z;
  st_closed : list (Z * Z)
}.

Definition initialSegState : SegState :=
  mkSegState 0 None [] (- MAX_VALUE) [] [].

(** [while (segmentPositions.length &&
            segmentPositions[0] <= lastGroupPosition) shift()] *)
Fixpoint dropLeading (lastGroupPosition : Q) (segmentPositions : list Q)
  : list Q :=
  match segmentPositions with
  | [] => []
  | x :: r =>
      if Qle_bool x lastGroupPosition then dropLeading lastGroupPosition r
      else segmentPositions
  end.

Definition outsideMax (end_ : Z) : bool :=
  negb (end_ =? 0)%Z && ngt (toNum (zget positions_ (end_ - 1))) max_.

(** The test that ends a segment at [end]. *)
Definition segmentEnds (end_ : Z) : bool :=
  (end_ =? alength positions_ - 1)%Z
  || ngt (nsub (toNum (zget positions_ (end_ + 1)))
               (toNum (zget positions_ end_)))
         (nmul closestDistance (Fin 5))
  || outsideMax end_.

Definition closeSegment (end_ start : Z) (st : SegState) : SegState :=
  if ngt (toNum (zget positions_ end_)) (Fin (st_lastGroupPosition st)) then
    let segmentPositions :=
      dropLeading (st_lastGroupPosition st)
        (timeTicks (option_map Fin (zget positions_ start))
                   (option_map Fin (zget positions_ end_))) in
    mkSegState (end_ + 1)
      (Some segmentPositions)
      (st_groupPositions st ++ segmentPositions)
      (List.last segmentPositions (st_lastGroupPosition st))
      (st_segmentStarts st ++ [alength (st_groupPositions st)])
      (st_closed st ++ [(start, end_)])
  else
    mkSegState (end_ + 1)
      (st_segmentPositions st) (st_groupPositions st)
      (st_lastGroupPosition st) (st_segmentStarts st)
      (st_closed st ++ [(start, end_)]).

(** [for (end = 0; end < posLength; end++)], [turns] turns from [end]. *)
Fixpoint segmentLoop (turns : nat) (end_ : Z) (st : SegState) : SegState :=
  match turns with
  | O => st
  | S turns' =>
      let start :=
        if nlt (toNum (zget positions_ end_)) min_ then end_
        else st_start st in
      let st1 :=
        if segmentEnds end_ then closeSegment end_ start st
        else mkSegState start
               (st_segmentPositions st) (st_groupPositions st)
               (st_lastGroupPosition st) (st_segmentStarts st)
               (st_closed st) in
      if outsideMax end_ then st1
      else segmentLoop turns' (end_ + 1) st1
  end.

Definition segmentScan : SegState :=
  segmentLoop (List.length positions_) 0 initialSegState.

End TimeTicks.

(** What [getTimeTicks] returns when [findHigherRanks] is not set: the
    ticks, [info.segmentStarts] when some segment gave ticks, and whether
    error 12 was signalled.  (The marking of higher ranks and the thinning
    by pixel distance, which run only under [findHigherRanks], are not
    modelled.) *)
Record TickPositions : Type := mkTickPositions {
  ticks : list Q;
  info_segmentStarts : option (list Z);
  error12 : bool
}.

Definition getTimeTicks (timeTicks : option num -> option num -> list Q)
  (options_ordinal options_breaks : bool)
  (min : option num) (max : num)
  (positions : option (list Q)) (closestDistance : option num)
  : TickPositions :=
  let positions := pick positions [] in
  let closestDistance := pick closestDistance (Fin 0) in
  match min with
  | None => mkTickPositions (timeTicks min (Some max)) None false
  | Some min' =>
      if (negb options_ordinal && negb options_breaks)
         || (alength positions <? 3)%Z
      then mkTickPositions (timeTicks min (Some max)) None false
      else
        let st := segmentScan timeTicks positions min' max closestDistance in
        match st_segmentPositions st with
        | Some _ =>
            mkTickPositions (st_groupPositions st)
              (Some (st_segmentStarts st)) false
        | None => mkTickPositions (st_groupPositions st) None true
        end
  end.


(* ===================================================================== *)
(** ** [onChartPan]                                                      *)
(* ===================================================================== *)

(** The part of the chart the handler works on.  [panning] is
    [chart.options.chart.panning], given by its [type].  The handler reads
    the extremes through [xAxis.getExtremes()] (of [Axis], outside this
    file), taken here as the current [min], [max], [dataMin] and [dataMax]
    of the axis.  The cache that [getExtendedPositions] fills on its first
    call is not part of this state: the field of [Ordinal] holds what the
    call returns. *)
Record Chart : Type := mkChart {
  xAxis : Axis;
  mouseDownX : option num;
  panning : option string;
  fixedRange : option num
}.

Record PanEvent : Type := mkPanEvent {
  chartX : num;
  touches : option nat
}.




Definition setExtended (a : Axis) (e : list Q) : Axis :=
  let o := ordinal a in
  mkAxis (min a) (max a) (dataMin a) (dataMax a) (len a) (translationSlope a)
    (closestPointRange a) (options_ordinal a) (options_overscroll a)
    (series_length a)
    (mkOrdinal (positions o) (slope o) (offset o) (overscrollPointsRange o)
       (originalOrdinalRange o) (Some (Some e))).


(** The object [{ ordinal: { positions, extendedOrdinalPositions } }] that
    [index2val] and [val2lin] are applied to: no slope, no offset and no
    [getExtendedPositions] method. *)
Definition extendedAxis (extendedOrdinalPositions : option (list Q)) : Ordinal :=
  mkOrdinal extendedOrdinalPositions None None None None None.

Definition movedUnits (chart : Chart) (e : PanEvent) : num :=
  let axis := xAxis chart in
  let closestPointRange :=
    vor (closestPointRange axis) (overscrollPointsRange (ordinal axis)) in
  let pointPixelWidth :=
    nmul (translationSlope axis)
         (ofValue (vor (slope (ordinal axis)) closestPointRange)) in
  nround (ndiv (nsub (ofValue (mouseDownX chart)) (chartX e)) pointPixelWidth).



(** [ordinalPositions.push(dataMax)] when the data go beyond the last
    extended position; the array is the one held by the cache.  (Positions
    are finite: an infinite [dataMax] is not pushed.) *)
Definition pushDataMax (ordinalPositions : list Q) (dataMax : option num)
  : list Q :=
  match dataMax with
  | Some (Fin d) =>
      if ngt (Fin d) (toNum (zget ordinalPositions (lastIndex ordinalPositions)))
      then ordinalPositions ++ [d]
      else ordinalPositions
  | _ => ordinalPositions
  end.

Section Pan.

(** [navigatorAxis.toFixedRange(void 0, void 0, fixedMin, fixedMax)] and
    [xAxis.setExtremes(min, max, true, false, { trigger: 'pan' })] belong to
    [NavigatorAxisComposition] and [Axis]; both are taken as they come. *)
Variable toFixedRange : Chart -> option num -> option num -> option num * option num.
Variable setExtremes : Chart -> option num -> option num -> Chart.

(** The state once [chart.setFixedRange(max - min)] has stored the range
    and the data maximum is pushed. *)
Definition panPrepared (chart : Chart) (ordinalPositions : list Q) : Chart :=
  let axis := xAxis chart in
  let pushed := pushDataMax ordinalPositions (dataMax axis) in
  mkChart (setExtended axis pushed) (mouseDownX chart) (panning chart)
    (Some (nsub (ofValue (max axis)) (ofValue (min axis)))).

(** [trimmedRange]: where the pan would put the extremes. *)
Definition panTarget (chart : Chart) (e : PanEvent)
  (ordinalPositions : list Q) : option num * option num :=
  let axis := xAxis chart in
  let pushed := pushDataMax ordinalPositions (dataMax axis) in
  let ext := extendedAxis (Some pushed) in
  toFixedRange (panPrepared chart ordinalPositions)
    (index2val ext
       (nadd (val2lin ext (ofValue (min axis)) true) (movedUnits chart e)))
    (index2val ext
       (nadd (val2lin ext (ofValue (max axis)) true) (movedUnits chart e))).




End Pan.

(* ===================================================================== *)
(** ** [Additions.beforeSetTickPositions]                                *)
(* ===================================================================== *)

(** What the function reads of a series.  [isNavigatorSeries] is
    [series.options.id === 'highcharts-navigator-series'], [reservesSpace]
    is what [series.reserveSpace()] answers, and [takesOrdinalPosition] is
    [series.takeOrdinalPosition !== false]. *)
Record Series : Type := mkSeries {
  processedXData : list Q;
  isNavigatorSeries : bool;
  boosted : bool;
  reservesSpace : bool;
  takesOrdinalPosition : bool;
  series_closestPointRange : option num
}.

(** The axis with its series and what only this function reads or writes:
    [sa_hasBreaks] is [axis.brokenAxis?.hasBreaks], [sa_keepOrdinalPadding]
    the option of that name, [sa_forceOrdinal] is [axis.forceOrdinal], and
    [sa_isOrdinal] is [axis.isOrdinal], which the function sets. *)
Record SeriesAxis : Type := mkSeriesAxis {
  sa_axis : Axis;
  sa_series : list Series;
  sa_hasBreaks : bool;
  sa_keepOrdinalPadding : bool;
  sa_forceOrdinal : bool;
  sa_isOrdinal : bool
}.

(** [array.sort((a, b) => a - b)]: the ascending arrangement of the
    numbers.  (Which sorting method the engine uses cannot be seen on
    numbers: equal ones are the same value.) *)
Fixpoint insertNumber (x : Q) (sorted : list Q) : list Q :=
  match sorted with
  | [] => [x]
  | y :: r => if Qle_bool x y then x :: sorted else y :: insertNumber x r
  end.

Fixpoint sortNumbers (array : list Q) : list Q :=
  match array with
  | [] => []
  | x :: r => insertNumber x (sortNumbers r)
  end.

(** [a !== b] for two array reads. *)
Definition differ (a b : option Q) : bool :=
  negb (vseq (option_map Fin a) (option_map Fin b)).

(** [while (i < len - 1)]: the elements that differ from the one before.
    (The element pushed is inside the array: [i + 1 <= len - 1].) *)
Fixpoint uniqueLoop (turns : nat) (i : Z) (ordinalPositions : list Q)
  (uniqueOrdinalPositions : list Q) : list Q :=
  match turns with
  | O => uniqueOrdinalPositions
  | S turns' =>
      let pushed :=
        if differ (zget ordinalPositions i) (zget ordinalPositions (i + 1))
        then match zget ordinalPositions (i + 1) with
             | Some x => uniqueOrdinalPositions ++ [x]
             | None => uniqueOrdinalPositions
             end
        else uniqueOrdinalPositions in
      uniqueLoop turns' (i + 1) ordinalPositions pushed
  end.

(** "Remove duplicates (#1588)", for a non-empty array. *)
Definition removeDuplicates (ordinalPositions : list Q) : list Q :=
  let len := alength ordinalPositions in
  let uniqueOrdinalPositions :=
    uniqueLoop (Z.to_nat (len - 1)) 0 ordinalPositions [] in
  if differ (zget uniqueOrdinalPositions 0) (zget ordinalPositions 0)
  then match zget ordinalPositions 0 with
       | Some x => x :: uniqueOrdinalPositions
       | None => uniqueOrdinalPositions
       end
  else uniqueOrdinalPositions.

(** The variables the [forEach] over the series updates. *)
Record MergeState : Type := mkMergeState {
  ms_ordinalPositions : list Q;
  ms_overscrollPointsRange : num;
  ms_adjustOrdinalExtremesPoints : bool;
  ms_isBoosted : bool;
  ms_distanceBetweenPoint : num
}.

Definition initialMergeState : MergeState :=
  mkMergeState [] (Fin MAX_VALUE) false false (Fin 0).

(** The series whose data go into the positions. *)
Definition takesPart (hasBreaks : bool) (series : Series) : bool :=
  reservesSpace series && (takesOrdinalPosition series || hasBreaks).

(** The callback of the [forEach], for the series of index [i]. *)
Definition mergeOne (hasBreaks : bool) (i : nat) (series : Series)
  (st : MergeState) : MergeState :=
  let data := processedXData series in
  let distance := nsub (toNum (zget data 1)) (toNum (zget data 0)) in
  let adjust :=
    if negb (i =? 0)%nat && negb (isNavigatorSeries series)
       && (1 <? alength data)%Z
    then negb (nseq (ms_distanceBetweenPoint st) distance)
    else ms_adjustOrdinalExtremesPoints st in
  let isBoosted := if boosted series then true else ms_isBoosted st in
  if takesPart hasBreaks series then
    let ordinalPositions :=
      sortNumbers (ms_ordinalPositions st ++ data) in
    let overscrollPointsRange :=
      nmin (ms_overscrollPointsRange st)
           (pick (series_closestPointRange series)
                 (ms_overscrollPointsRange st)) in
    mkMergeState
      (if (alength ordinalPositions =? 0)%Z then ordinalPositions
       else removeDuplicates ordinalPositions)
      overscrollPointsRange adjust isBoosted distance
  else
    mkMergeState (ms_ordinalPositions st) (ms_overscrollPointsRange st)
      adjust isBoosted distance.

Fixpoint mergeLoop (hasBreaks : bool) (i : nat) (series : list Series)
  (st : MergeState) : MergeState :=
  match series with
  | [] => st
  | s :: rest => mergeLoop hasBreaks (S i) rest (mergeOne hasBreaks i s st)
  end.

Definition mergeSeries (hasBreaks : bool) (series : list Series) : MergeState :=
  mergeLoop hasBreaks 0 series initialMergeState.

(** [while (i-- && !useOrdinal)], from [i] downwards: is some distance
    between neighbours not [dist]? *)
Fixpoint irregularLoop (i : nat) (ordinalPositions : list Q) (dist : num)
  (useOrdinal : bool) : bool :=
  match i with
  | O => useOrdinal
  | S i' =>
      if useOrdinal then useOrdinal
      else
        irregularLoop i' ordinalPositions dist
          (negb (nseq (nsub (toNum (zget ordinalPositions (Z.of_nat i' + 1)))
                            (toNum (zget ordinalPositions (Z.of_nat i'))))
                      dist))
  end.

(** The slope and the offset "of the values compared to the indices in the
    ordinal positions", for the ordinal object [o] whose positions are
    registered. *)
Definition linearTransform (o : Ordinal) (ordinalPositions : list Q)
  (min max : num) : num * num :=
  let minIndex :=
    val2lin o (nmax min (toNum (zget ordinalPositions 0))) true in
  let maxIndex :=
    nmax (val2lin o
            (nmin max (toNum (zget ordinalPositions
                                (alength ordinalPositions - 1))))
            true)
         (Fin 1) in
  let slope := ndiv (nsub max min) (nsub maxIndex minIndex) in
  (slope, nsub min (nmul minIndex slope)).

(** Truthiness of the [overscroll] option. *)
Definition overscrollSet (overscroll : option OverscrollOption) : bool :=
  match overscroll with
  | Some (OvNumber n) => truthy n
  | Some (OvString EmptyString) => false
  | Some (OvString _) => true
  | None => false
  end.

(** How the function ends.  Positions are finite numbers in this model, so
    a position that is not one ends the run with [NotFinite]; [Endless]
    says that [getOverscrollPositions] was still running when the turns
    were used up. *)
Inductive Outcome (A : Type) : Type :=
| Done (a : A)
| Endless
| NotFinite.

Arguments Done {A} a.
Arguments Endless {A}.
Arguments NotFinite {A}.

Fixpoint finitePositions (array : list num) : option (list Q) :=
  match array with
  | [] => Some []
  | Fin q :: r => option_map (cons q) (finitePositions r)
  | _ :: _ => None
  end.

Definition setOrdinal (a : Axis) (o : Ordinal) : Axis :=
  mkAxis (min a) (max a) (dataMin a) (dataMax a) (len a) (translationSlope a)
    (closestPointRange a) (options_ordinal a) (options_overscroll a)
    (series_length a) o.

Definition setOriginalOrdinalRange (o : Ordinal) (r : option num) : Ordinal :=
  mkOrdinal (positions o) (slope o) (offset o) (overscrollPointsRange o) r
    (getExtendedPositions o).

Definition setOverscrollPointsRange (o : Ordinal) (r : option num) : Ordinal :=
  mkOrdinal (positions o) (slope o) (offset o) r (originalOrdinalRange o)
    (getExtendedPositions o).

Definition setPositions (o : Ordinal) (p : option (list Q)) : Ordinal :=
  mkOrdinal p (slope o) (offset o) (overscrollPointsRange o)
    (originalOrdinalRange o) (getExtendedPositions o).

Definition setTransform (o : Ordinal) (slope offset : option num) : Ordinal :=
  mkOrdinal (positions o) slope offset (overscrollPointsRange o)
    (originalOrdinalRange o) (getExtendedPositions o).

(** "Calculate current originalOrdinalRange", when none is stored.  (The
    product is exact here; on doubles it leaves the finite range when no
    series brought a closest point range and there are more than two
    positions.) *)
Definition recordOriginalRange (o : Ordinal) (merged : MergeState) : Ordinal :=
  if negb (vtruthy (originalOrdinalRange o))
  then setOriginalOrdinalRange o
         (Some (nmul (ofZ (alength (ms_ordinalPositions merged) - 1))
                     (ms_overscrollPointsRange merged)))
  else o.

(** [ordinalPositions.pop(); ordinalPositions.shift()] when the distance
    between points differs between boosted series. *)
Definition trimExtremes (merged : MergeState) : list Q :=
  if ms_adjustOrdinalExtremesPoints merged && ms_isBoosted merged
  then tl (removelast (ms_ordinalPositions merged))
  else ms_ordinalPositions merged.

(** The test of more than two positions: "check if we really need the
    overhead of mapping axis data against the ordinal positions". *)
Definition needsOrdinal (keepOrdinalPadding : bool) (min max : num)
  (ordinalPositions : list Q) : bool :=
  let len := alength ordinalPositions in
  let dist :=
    nsub (toNum (zget ordinalPositions 1)) (toNum (zget ordinalPositions 0)) in
  let useOrdinal :=
    irregularLoop (Z.to_nat (len - 1)) ordinalPositions dist false in
  if negb keepOrdinalPadding
     && (ngt (nsub (toNum (zget ordinalPositions 0)) min) dist
         || ngt (nsub max
                   (toNum (zget ordinalPositions
                             (alength ordinalPositions - 1))))
                dist)
  then true
  else useOrdinal.

(** The end of the function, once the positions, the range between
    overscroll points and [useOrdinal] are settled: the branch
    [if (useOrdinal || axis.forceOrdinal)] and the two assignments after
    it.  [o] is the ordinal object with its original range recorded. *)
Definition registerPositions (fuel : nat) (a : SeriesAxis) (o : Ordinal)
  (ordinalPositions : list Q) (overscrollPointsRange_ : option num)
  (useOrdinal : bool) : Outcome SeriesAxis :=
  let axis := sa_axis a in
  let min := ofValue (min axis) in
  let max := ofValue (max axis) in
  let finish (o' : Ordinal) : Outcome SeriesAxis :=
    Done (mkSeriesAxis (setOrdinal axis o') (sa_series a) (sa_hasBreaks a)
            (sa_keepOrdinalPadding a) (sa_forceOrdinal a)
            (options_ordinal axis && useOrdinal)) in
  if useOrdinal || sa_forceOrdinal a then
    let register (o1 : Ordinal) (ordinalPositions : list Q)
      : Outcome SeriesAxis :=
      let o2 := setPositions o1 (Some ordinalPositions) in
      let transform := linearTransform o2 ordinalPositions min max in
      finish (setTransform o2 (Some (fst transform)) (Some (snd transform))) in
    if overscrollSet (options_overscroll axis) then
      let o1 := setOverscrollPointsRange o overscrollPointsRange_ in
      match getOverscrollPositions fuel (setOrdinal axis o1) with
      | None => Endless
      | Some overscrollPositions =>
          match finitePositions overscrollPositions with
          | None => NotFinite
          | Some extra => register o1 (ordinalPositions ++ extra)
          end
      end
    else register o ordinalPositions
  else
    finish
      (setTransform
         (setPositions
            (setOverscrollPointsRange o
               (pick (option_map Some (closestPointRange axis))
                     (overscrollPointsRange o)))
            None)
         None None).

(** [beforeSetTickPositions].  The extremes are read from the axis (through
    [axis.getExtremes()], of [Axis]); the reset of [groupIntervalFactor],
    which none of the functions here reads, is left out. *)
Definition beforeSetTickPositions (fuel : nat) (a : SeriesAxis)
  : Outcome SeriesAxis :=
  let axis := sa_axis a in
  let min := ofValue (min axis) in
  let max := ofValue (max axis) in
  let hasBreaks := sa_hasBreaks a in
  if options_ordinal axis || hasBreaks then
    let merged := mergeSeries hasBreaks (sa_series a) in
    let o := recordOriginalRange (ordinal axis) merged in
    let ordinalPositions := trimExtremes merged in
    let len := alength ordinalPositions in
    if (2 <? len)%Z then
      registerPositions fuel a o ordinalPositions
        (Some (ms_overscrollPointsRange merged))
        (needsOrdinal (sa_keepOrdinalPadding a) min max ordinalPositions)
    else if overscrollSet (options_overscroll axis) then
      if (len =? 2)%Z then
        registerPositions fuel a o ordinalPositions
          (Some (nsub (toNum (zget ordinalPositions 1))
                      (toNum (zget ordinalPositions 0))))
          false
      else if (len =? 1)%Z then
        let overscrollPointsRange_ :=
          convertOverscroll (setOrdinal axis o) (options_overscroll axis) in
        match zget ordinalPositions 0,
              nadd (toNum (zget ordinalPositions 0)) overscrollPointsRange_ with
        | Some first, Fin second =>
            registerPositions fuel a o [first; second]
              (Some overscrollPointsRange_) false
        | _, _ => NotFinite
        end
      else
        registerPositions fuel a o ordinalPositions
          (overscrollPointsRange (ordinal axis)) false
    else
      registerPositions fuel a o ordinalPositions
        (Some (ms_overscrollPointsRange merged)) false
  else
    Done (mkSeriesAxis axis (sa_series a) (sa_hasBreaks a)
            (sa_keepOrdinalPadding a) (sa_forceOrdinal a) false).

(* ===================================================================== *)
(** ** [Additions.getGroupIntervalFactor]                                *)
(* ===================================================================== *)

(** "Register all the distances in an array": one per index below
    [len - 1]. *)
Fixpoint distancesOf (processedXData : list Q) : list Q :=
  match processedXData with
  | [] => []
  | x :: rest =>
      match rest with
      | [] => []
      | y :: _ => (y - x) :: distancesOf rest
      end
  end.

(** [groupIntervalFactor] is the factor kept in
    [ordinal.groupIntervalFactor]; what the function returns is stored
    there as well. *)
Definition getGroupIntervalFactor (groupIntervalFactor : option num)
  (xMin xMax : num) (processedXData : list Q) : num :=
  if negb (vtruthy groupIntervalFactor) then
    let len := alength processedXData in
    let distances := sortNumbers (distancesOf processedXData) in
    let median := toNum (zget distances (len / 2)) in
    let xMin := nmax xMin (toNum (zget processedXData 0)) in
    let xMax := nmin xMax (toNum (zget processedXData (len - 1))) in
    ndiv (nmul (ofZ len) median) (nsub xMax xMin)
  else ofValue groupIntervalFactor.

(* ===================================================================== *)
(** ** [getTimeTicks]: removing the ticks that are too close              *)
(* ===================================================================== *)

(** The block under [if (findHigherRanks && defined(tickPixelIntervalOption))],
    "don't show ticks within a gap in the ordinal axis".  It works on the
    ticks gathered by the scan. *)

(** [array[i] = v] on an array of [undefined] entries and holes. *)
Definition setAt (array : list (option Q)) (i : Z) (v : option Q)
  : list (option Q) :=
  firstn (Z.to_nat i) array ++ v :: skipn (S (Z.to_nat i)) array.

(** [array.length] of an array written at some indices only: one more than
    the highest index written.  (Only defined values are written here.) *)
Fixpoint writtenLength (array : list (option Q)) : Z :=
  match array with
  | [] => 0
  | x :: r =>
      let n := writtenLength r in
      if (n =? 0)%Z
      then match x with Some _ => 1 | None => 0 end
      else (n + 1)%Z
  end.

(** The values written, in the order of their indices. *)
Fixpoint written (array : list (option Q)) : list Q :=
  match array with
  | [] => []
  | Some x :: r => x :: written r
  | None :: r => written r
  end.

(** [array[i]] on such an array: a hole reads [undefined], like an index
    out of range. *)
Definition oget (array : list (option Q)) (i : Z) : option Q :=
  if (i <? 0)%Z then None
  else match nth_error array (Z.to_nat i) with
       | Some v => v
       | None => None
       end.

(** [array.splice(i, 1)] *)
Definition splice1 (array : list Q) (i : Z) : list Q :=
  if (i <? 0)%Z then array
  else firstn (Z.to_nat i) array ++ skipn (S (Z.to_nat i)) array.

(** [medianDistance]: a number, [undefined] or [null]. *)
Inductive Median : Type :=
| MedianNumber (q : Q)
| MedianUndefined
| MedianNull.

Section RemoveCloseTicks.

(** [this.translate(value)], of [Axis]: the pixel position of a value, a
    finite number.  [higherRanks] tells of a tick whether [getTimeTicks]
    marked it as of higher rank; both are taken as they come. *)
Variable translate : Q -> Q.
Variable higherRanks : Q -> bool.
Variable tickPixelIntervalOption : num.
Variable max : num.

(** Truthiness of [lastTranslated]. *)
Definition seen (lastTranslated : option Q) : bool :=
  vtruthy (option_map Fin lastTranslated).

(** The variables of the first loop: [lastTranslated], [distances] and
    [translatedArr], the two arrays with as many entries as there are ticks,
    [None] where nothing is written. *)
Record PixelState : Type := mkPixelState {
  ps_lastTranslated : option Q;
  ps_distances : list (option Q);
  ps_translatedArr : list (option Q)
}.

(** [i = length; while (i--)]: "find median pixel distance". *)
Fixpoint pixelLoop (i : nat) (groupPositions : list Q) (st : PixelState)
  : PixelState :=
  match i with
  | O => st
  | S i' =>
      let translated :=
        option_map translate (zget groupPositions (Z.of_nat i')) in
      let distances :=
        if seen (ps_lastTranslated st)
        then match nsub (toNum (ps_lastTranslated st)) (toNum translated) with
             | Fin d => setAt (ps_distances st) (Z.of_nat i') (Some d)
             | _ => ps_distances st
             end
        else ps_distances st in
      pixelLoop i' groupPositions
        (mkPixelState translated distances
           (setAt (ps_translatedArr st) (Z.of_nat i') translated))
  end.

Definition pixelScan (groupPositions : list Q) : PixelState :=
  let holes := map (fun _ => None) groupPositions in
  pixelLoop (List.length groupPositions) groupPositions
    (mkPixelState None holes holes).

(** [distances.sort(...)] and the median: the sort puts the values written
    first, in ascending order, and leaves the length as it is. *)
Definition medianDistance (distances : list (option Q)) : Median :=
  let sorted := sortNumbers (written distances) in
  match zget sorted (writtenLength distances / 2) with
  | Some m =>
      if nlt (Fin m) (nmul tickPixelIntervalOption (Fin (6 # 10)))
      then MedianNull
      else MedianNumber m
  | None => MedianUndefined
  end.

(** The test "closer than 0.8 times the pixel interval from the one to the
    right, but not if it is close to the median distance". *)
Definition tooClose (lastTranslated : option Q) (distance : num)
  (median : Median) : bool :=
  seen lastTranslated
  && nlt distance (nmul tickPixelIntervalOption (Fin (8 # 10)))
  && match median with
     | MedianNull => true
     | MedianNumber m => nlt distance (nmul (Fin m) (Fin (8 # 10)))
     | MedianUndefined => false
     end.

(** Truthiness of [higherRanks[groupPositions[i]]]; no tick, no mark. *)
Definition ranked (tick : option Q) : bool :=
  match tick with
  | Some x => higherRanks x
  | None => false
  end.

(** The second loop, [while (i--)] from [i]: "loop over again and remove
    ticks where needed". *)
Fixpoint removeLoop (i : nat) (translatedArr : list (option Q))
  (median : Median) (groupPositions : list Q) (lastTranslated : option Q)
  : list Q :=
  match i with
  | O => groupPositions
  | S i' =>
      let i := Z.of_nat i' in
      let translated := oget translatedArr i in
      let distance := nabs (nsub (toNum lastTranslated) (toNum translated)) in
      if tooClose lastTranslated distance median then
        if ranked (zget groupPositions i)
           && negb (ranked (zget groupPositions (i + 1)))
        then removeLoop i' translatedArr median
               (splice1 groupPositions (i + 1)) translated
        else removeLoop i' translatedArr median
               (splice1 groupPositions i) lastTranslated
      else removeLoop i' translatedArr median groupPositions translated
  end.

Definition removeCloseTicks (groupPositions : list Q) : list Q :=
  let length := alength groupPositions in
  let scan := pixelScan groupPositions in
  let median := medianDistance (ps_distances scan) in
  let i :=
    if ngt (toNum (zget groupPositions (length - 1))) max
    then (length - 1)%Z else length in
  removeLoop (Z.to_nat i) (ps_translatedArr scan) median groupPositions None.

End RemoveCloseTicks.

(* ===================================================================== *)
(** ** The arithmetic of the code: doubles                                *)
(* ===================================================================== *)

(** The functions whose results depend on rounding, once more, on IEEE 754
    binary64 numbers (the kernel's primitive floats): the same code, with
    the operations of the machine in the place of those of [JsNum].  They
    serve to find where the results of the code leave those of the exact
    numbers; the comparisons and the control flow are the same in both. *)

Module Doubles.

Import PrimFloat.

#[local] Set Warnings "-inexact-float".

Definition toNum (v : option float) : float :=
  match v with
  | Some x => x
  | None => nan
  end.

(** An integer index as a number. *)
Definition ofZ (z : Z) : float :=
  if (z <? 0)%Z then (- of_uint63 (Uint63.of_Z (- z)))%float
  else of_uint63 (Uint63.of_Z z).

(** Truthiness of a number: [0], [-0] and [NaN] are falsy. *)
Definition truthy (a : float) : bool := negb (is_zero a) && negb (is_nan a).

Definition vtruthy (a : option float) : bool :=
  match a with
  | Some x => truthy x
  | None => false
  end.

(** [array[i]] and [array[i] === x]. *)
Definition zget (array : list float) (i : Z) : option float :=
  if (i <? 0)%Z then None else nth_error array (Z.to_nat i).

Definition alength (array : list float) : Z := Z.of_nat (List.length array).

Definition same (a : option float) (x : float) : bool :=
  match a with
  | Some y => eqb y x
  | None => false
  end.

Fixpoint findIndexOf_loop (fuel : nat) (sortedArray : list float)
  (key : float) (start end_ : Z) : Z :=
  match fuel with
  | O => start
  | S fuel' =>
      if (start <? end_)%Z then
        let middle := Qceiling (inject_Z (start + end_) / 2) in
        if leb (toNum (zget sortedArray middle)) key
        then findIndexOf_loop fuel' sortedArray key middle end_
        else findIndexOf_loop fuel' sortedArray key start (middle - 1)
      else start
  end.

Definition findIndexOf (sortedArray : list float) (key : float)
  (indirectSearch : bool) : Z :=
  let start :=
    findIndexOf_loop (List.length sortedArray) sortedArray key
      0 (alength sortedArray - 1) in
  if same (zget sortedArray start) key then start
  else if negb indirectSearch then (-1)%Z else start.

Definition getIndexInArray (ordinalPositions : list float) (val : float)
  : float :=
  let index := findIndexOf ordinalPositions val true in
  if same (zget ordinalPositions index) val then ofZ index
  else
    let percent :=
      ((val - toNum (zget ordinalPositions index))
       / (toNum (zget ordinalPositions (index + 1))
          - toNum (zget ordinalPositions index)))%float in
    (ofZ index + percent)%float.

(** What [val2lin] reads of [axis.ordinal]. *)
Record Ordinal : Type := mkOrdinal {
  positions : option (list float);
  slope : option float;
  offset : option float;
  getExtendedPositions : option (option (list float))
}.

Definition val2lin (o : Ordinal) (val : float) (toIndex : bool) : float :=
  match positions o with
  | None => val
  | Some ordinalPositions =>
      let ordinalLength := alength ordinalPositions in
      let finish (slope : option float) (ordinalIndex : float) : float :=
        if toIndex then ordinalIndex
        else (toNum slope * (if truthy ordinalIndex then ordinalIndex else 0)
              + toNum (offset o))%float in
      if leb (toNum (zget ordinalPositions 0)) val
         && leb val (toNum (zget ordinalPositions (ordinalLength - 1)))
      then finish (slope o) (getIndexInArray ordinalPositions val)
      else
        match getExtendedPositions o with
        | None | Some None | Some (Some []) => val
        | Some (Some extendedOrdinalPositions) =>
            let length := alength extendedOrdinalPositions in
            let first := toNum (zget extendedOrdinalPositions 0) in
            let last := toNum (zget extendedOrdinalPositions (length - 1)) in
            let slope1 :=
              if negb (vtruthy (slope o))
              then Some ((last - first) / ofZ length)%float
              else slope o in
            let originalPositionsReference :=
              getIndexInArray extendedOrdinalPositions
                (toNum (zget ordinalPositions 0)) in
            if leb first val && leb val last
            then finish slope1
                   (getIndexInArray extendedOrdinalPositions val
                    - originalPositionsReference)%float
            else if negb toIndex then val
            else if ltb val first then
              let diff := (first - val)%float in
              let approximateIndexOffset := (diff / toNum slope1)%float in
              finish slope1
                (- originalPositionsReference - approximateIndexOffset)%float
            else
              let diff := (val - last)%float in
              let approximateIndexOffset := (diff / toNum slope1)%float in
              finish slope1
                (approximateIndexOffset + ofZ length
                 - originalPositionsReference)%float
        end
  end.

(** The loop of [getOverscrollPositions]. *)
Fixpoint overscrollLoop (fuel : nat) (max bound distance : float)
  (positions : list float) : option (list float) :=
  match fuel with
  | O => None
  | S fuel' =>
      if leb max bound then
        let max' := (max + distance)%float in
        overscrollLoop fuel' max' bound distance (positions ++ [max'])
      else Some positions
  end.

(** [getOverscrollPositions], from the data maximum, the overscroll as
    [convertOverscroll] resolves it and the range between points. *)
Definition getOverscrollPositions (fuel : nat) (dataMax : option float)
  (extraRange : float) (distance : option float) : option (list float) :=
  match distance with
  | Some d =>
      overscrollLoop fuel (toNum dataMax) (toNum dataMax + extraRange)%float
        d []
  | None => Some []
  end.

(** *** Sample inputs *)

(** The positions -1, 0, 1 and the double right below 1. *)
Definition unitPositions : Ordinal :=
  mkOrdinal (Some [-1; 0; 1]%float) None None None.

Definition belowOne : float := 0.9999999999999999%float.

End Doubles.

(* ===================================================================== *)
(** ** Vocabulary of the statements                                      *)
(* ===================================================================== *)

(** [r] is the greatest index of [A] whose element is not above [k]. *)
Definition greatest_index_le (A : list Q) (k : Q) (r : Z) : Prop :=
  (exists x, zget A r = Some x /\ x <= k)
  /\ (forall j y, zget A j = Some y -> y <= k -> (j <= r)%Z).

(** The test "[v] lies within the bounds of [A]", as [val2lin] writes it
    for the visible and for the extended positions. *)
Definition insideBounds (A : list Q) (v : num) : bool :=
  nle (toNum (zget A 0)) v && nle v (toNum (zget A (alength A - 1))).

(** Decimal notation: the digits [ds], most significant first, followed by
    [rest]. *)
Definition digitChar (d : nat) : ascii := ascii_of_nat (48 + d).

Definition isDigit (d : nat) : bool := (d <=? 9)%nat.

Fixpoint decimal (ds : list nat) (rest : string) : string :=
  match ds with
  | [] => rest
  | d :: r => String (digitChar d) (decimal r rest)
  end.

Definition decimalValue (ds : list nat) : Z :=
  fold_left (fun acc d => (10 * acc + Z.of_nat d)%Z) ds 0%Z.


(** [c] is one of the characters ["0"] to ["9"]. *)
Definition isDigitChar (c : ascii) : bool :=
  existsb (Ascii.eqb c)
    ["0"; "1"; "2"; "3"; "4"; "5"; "6"; "7"; "8"; "9"]%char.

(** [rest] does not go on with a digit, so the digits before it are all
    that [parseInt] reads. *)
Definition noDigitAhead (rest : string) : bool :=
  match rest with
  | String c _ => negb (isDigitChar c)
  | EmptyString => true
  end.

(** [s] ends with ["%"]; [s] has ["px"] in it. *)
Definition percentString (s : string) : Prop :=
  exists pre, s = String.append pre "%".

Definition pixelString (s : string) : Prop :=
  exists pre post, s = String.append pre (String.append "px" post).

(** The range that percentages are taken of is [R]: the original ordinal
    range when it is cached, else [dataMax - dataMin]. *)
Definition percentageRange (axis : Axis) (R : Q) : Prop :=
  originalOrdinalRange (ordinal axis) = Some (Fin R)
  \/ (originalOrdinalRange (ordinal axis) = None
      /\ exists hi lo,
           dataMax axis = Some (Fin hi) /\ dataMin axis = Some (Fin lo)
           /\ R == hi - lo).


(** [min] and [max] cover the positions: none is below [min] or above
    [max]. *)
Definition covers (min max : num) (positions : list Q) : bool :=
  forallb (fun x => nle min (Fin x) && nle (Fin x) max) positions.

Definition examplePositions : list Q := [1; 2; 3; 10; 11; 12].





(** *** Sample inputs *)

Definition sampleOrdinal : Ordinal :=
  mkOrdinal (Some [10; 20; 40]) None None None None None.

Definition sampleOrdinalExtended : Ordinal :=
  mkOrdinal (Some [10; 20]) None None None None
    (Some (Some [0; 10; 20; 30])).

(** Data at 0, 50 and 100 seen from 0 to 50, an axis of 500 pixels, and
    extended positions that end with one overscroll position. *)
Definition sampleAxis (overscroll : option OverscrollOption) : Axis :=
  mkAxis (Some (Fin 0)) (Some (Fin 50)) (Some (Fin 0)) (Some (Fin 100))
    (Fin 500) (Fin 1) (Some (Fin 50)) true overscroll 1
    (mkOrdinal (Some [0; 50]) None None (Some (Fin 50)) None
       (Some (Some [0; 50; 100; 150]))).

Definition sampleChart (type : string) : Chart :=
  mkChart (sampleAxis (Some (OvNumber (Fin 10)))) (Some (Fin 100))
    (Some type) None.

Definition sampleEvent : PanEvent := mkPanEvent (Fin 0) None.

(** A stand-in for the tick generator: one tick at each bound. *)
Definition sampleTicks (lo hi : option num) : list Q :=
  match lo, hi with
  | Some (Fin a), Some (Fin b) => [a; b]
  | _, _ => []
  end.

(** Stand-ins for the two collaborators of [onChartPan]: a fixed range that
    is handed back untouched, and extremes that are stored as given. *)
Definition passRange (c : Chart) (lo hi : option num)
  : option num * option num := (lo, hi).


(** *** Vocabulary of the further properties *)

(** [array] holds the number [x]. *)
Definition holds (array : list Q) (x : Q) : Prop :=
  exists y, In y array /\ y == x.

(** Ascending, equal neighbours allowed. *)
Fixpoint sortedb (array : list Q) : bool :=
  match array with
  | [] => true
  | x :: tl =>
      match tl with
      | [] => true
      | y :: _ => Qle_bool x y && sortedb tl
      end
  end.

(** What [uniqueLoop] keeps of the elements after [x]. *)
Fixpoint distinctAfter (x : Q) (array : list Q) : list Q :=
  match array with
  | [] => []
  | y :: r =>
      if Qeq_bool x y then distinctAfter y r else y :: distinctAfter y r
  end.

(** Neighbours of [array] are [d] apart. *)
Definition evenlySpaced (array : list Q) (d : Q) : Prop :=
  forall i a b, zget array i = Some a -> zget array (i + 1) = Some b ->
                b - a == d.

(** The ticks gathered so far are strictly ascending and none is above the
    last group position. *)
Definition ticksInvariant (st : SegState) : Prop :=
  ascendingb (st_groupPositions st) = true
  /\ (forall x, In x (st_groupPositions st) -> x <= st_lastGroupPosition st).

(** Every position is above [-Number.MAX_VALUE]. *)
Definition aboveLowest (positions : list Q) : bool :=
  forallb (fun x => negb (Qle_bool x (- MAX_VALUE))) positions.

(** Ticks were asked for at least once: the first entry of [segmentStarts]
    is 0 and [segmentPositions] is set. *)
Definition ticksRequested (st : SegState) : Prop :=
  st_segmentPositions st <> None
  /\ exists rest, st_segmentStarts st = 0%Z :: rest.

(** Nothing was asked for yet. *)
Definition untouched (st : SegState) : Prop :=
  st_lastGroupPosition st = - MAX_VALUE
  /\ st_segmentStarts st = [] /\ st_groupPositions st = [].

(** No gap between two consecutive positions exceeds five times the closest
    distance. *)
Fixpoint gapFree (closestDistance : num) (positions : list Q) : bool :=
  match positions with
  | [] => true
  | x :: tl =>
      match tl with
      | [] => true
      | y :: _ =>
          negb (ngt (nsub (Fin y) (Fin x)) (nmul closestDistance (Fin 5)))
          && gapFree closestDistance tl
      end
  end.

(** [l1] is [l2] with some elements left out. *)
Inductive subsequence : list Q -> list Q -> Prop :=
| subsequence_nil : subsequence [] []
| subsequence_skip (x : Q) (l1 l2 : list Q) :
    subsequence l1 l2 -> subsequence l1 (x :: l2)
| subsequence_keep (x : Q) (l1 l2 : list Q) :
    subsequence l1 l2 -> subsequence (x :: l1) (x :: l2).

(** Neighbouring ticks are at least 0.8 times [p] pixels apart. *)
Fixpoint farApart (translate : Q -> Q) (p : Q) (ticks : list Q) : bool :=
  match ticks with
  | [] => true
  | a :: tl =>
      match tl with
      | [] => true
      | b :: _ =>
          Qle_bool (p * (8 # 10)) (Qabs (translate b - translate a))
          && farApart translate p tl
      end
  end.

(** A stand-in for [translate]: ten pixels per unit. *)
Definition tenPixels (x : Q) : Q := 10 * x.

(** A stand-in for [higherRanks]: no tick is marked. *)
Definition unranked (x : Q) : bool := false.

(** *** Further sample inputs *)

(** Two visible positions with a recorded slope of 10 per index, inside
    four extended positions. *)
Definition sampleOrdinalSloped : Ordinal :=
  mkOrdinal (Some [10; 20]) (Some (Fin 10)) None None None
    (Some (Some [0; 10; 20; 30])).

(** A stand-in for the tick generator whose ticks are always ascending: a
    tick at each bound, or one tick when the bounds do not leave room. *)
Definition boundTicks (lo hi : option num) : list Q :=
  match lo, hi with
  | Some (Fin a), Some (Fin b) => if Qle_bool b a then [a] else [a; b]
  | _, _ => []
  end.

(** A plain series with the given x values. *)
Definition sampleSeries (data : list Q) : Series :=
  mkSeries data false false true true None.

(** An ordinal axis seen from 0 to 40, without overscroll, with one plain
    series per list of x values. *)
Definition sampleSeriesAxis (data : list (list Q)) : SeriesAxis :=
  mkSeriesAxis
    (mkAxis (Some (Fin 0)) (Some (Fin 40)) (Some (Fin 0)) (Some (Fin 40))
       (Fin 500) (Fin 1) None true None (List.length data)
       (mkOrdinal None None None None None (Some None)))
    (map sampleSeries data) false false false false.

(** An axis whose range between overscroll points is zero. *)
Definition stalledAxis : Axis :=
  setOrdinal (sampleAxis (Some (OvNumber (Fin 10))))
    (setOverscrollPointsRange sampleOrdinal (Some (Fin 0))).

(* ===================================================================== *)
(** * Proofs                                                            *)
(* ===================================================================== *)

(** ** The functions on small inputs *)

Example findIndexOf_empty :
  findIndexOf [] (Fin 3) true = 0%Z /\ findIndexOf [] (Fin 3) false = (-1)%Z.
Proof. split; reflexivity. Qed.

Example findIndexOf_every_key :
  map (fun k => findIndexOf [1; 3; 5; 7] (Fin (inject_Z k)) true)
      [0; 1; 2; 3; 4; 5; 6; 7; 8]%Z
  = [0; 0; 0; 1; 1; 2; 2; 3; 3]%Z.
Proof. reflexivity. Qed.

Example index2val_clamps :
  index2val sampleOrdinal (Fin (-1)) = Some (Fin 10)
  /\ index2val sampleOrdinal (Fin 7) = Some (Fin 40)
  /\ index2val sampleOrdinal NaN = Some NaN.
Proof. repeat split. Qed.

Example val2lin_extended :
  nseq (val2lin sampleOrdinalExtended (Fin 5) true) (Fin (- (1 # 2))) = true
  /\ nseq (val2lin sampleOrdinalExtended (Fin 35) true) (Fin (11 # 3)) = true
  /\ val2lin sampleOrdinalExtended (Fin 35) false = Fin 35.
Proof. repeat split. Qed.

Example parseInt_cases :
  parseInt "10%" = Fin 10 /\ parseInt "  -42px" = Fin (-42)
  /\ parseInt "12.5%" = Fin 12 /\ parseInt "px" = NaN.
Proof. repeat split. Qed.

Example convertOverscroll_other_string :
  convertOverscroll (sampleAxis None) (Some (OvString "wide")) = Fin 0
  /\ convertOverscroll (sampleAxis None) None = Fin 0.
Proof. split; reflexivity. Qed.

Example getOverscrollPositions_three :
  getOverscrollPositions 10 (sampleAxis (Some (OvNumber (Fin 120))))
  = Some [Fin 150; Fin 200; Fin 250].
Proof. vm_compute. reflexivity. Qed.

(** ** Arrays and the midpoint *)

Lemma Qceiling_half (z : Z) :
  Qceiling (inject_Z z / 2) = ((z + 1) / 2)%Z.
Proof.
  unfold Qceiling, Qfloor, Qdiv, Qmult, Qinv, Qopp, inject_Z; simpl.
  rewrite Z.mul_1_r.
  pose proof (Z.div_mod (- z) 2 ltac:(lia)).
  pose proof (Z.mod_pos_bound (- z) 2 ltac:(lia)).
  pose proof (Z.div_mod (z + 1) 2 ltac:(lia)).
  pose proof (Z.mod_pos_bound (z + 1) 2 ltac:(lia)).
  lia.
Qed.

Lemma middle_bounds (s e : Z) :
  (s < e)%Z ->
  (s < Qceiling (inject_Z (s + e) / 2) <= e)%Z.
Proof.
  intros H. rewrite Qceiling_half.
  pose proof (Z.div_mod (s + e + 1) 2 ltac:(lia)).
  pose proof (Z.mod_pos_bound (s + e + 1) 2 ltac:(lia)).
  lia.
Qed.

Lemma zget_Some (A : list Q) (i : Z) (x : Q) :
  zget A i = Some x ->
  (0 <= i < alength A)%Z /\ nth_error A (Z.to_nat i) = Some x.
Proof.
  unfold zget, alength. destruct (i <? 0)%Z eqn:E; [discriminate|].
  intros H. apply Z.ltb_ge in E. split; [|exact H].
  assert (Hl : (Z.to_nat i < List.length A)%nat)
    by (apply nth_error_Some; congruence).
  lia.
Qed.

Lemma zget_in_range (A : list Q) (i : Z) :
  (0 <= i < alength A)%Z -> exists x, zget A i = Some x.
Proof.
  unfold zget, alength. intros H.
  destruct (i <? 0)%Z eqn:E; [apply Z.ltb_lt in E; lia|].
  destruct (nth_error A (Z.to_nat i)) eqn:N; [eauto|].
  apply nth_error_None in N. lia.
Qed.

Lemma zget_cons (a : Q) (A : list Q) (i : Z) :
  (0 < i)%Z -> zget (a :: A) i = zget A (i - 1).
Proof.
  intros H. unfold zget.
  destruct (i <? 0)%Z eqn:E; [apply Z.ltb_lt in E; lia|].
  destruct (i - 1 <? 0)%Z eqn:E'; [apply Z.ltb_lt in E'; lia|].
  replace (Z.to_nat i) with (S (Z.to_nat (i - 1))) by lia. reflexivity.
Qed.

Lemma ascendingb_tail (a : Q) (A : list Q) :
  ascendingb (a :: A) = true -> ascendingb A = true.
Proof.
  simpl. destruct A as [|b A]; [reflexivity|].
  intros H. apply andb_true_iff in H. tauto.
Qed.

Lemma ascendingb_head (a : Q) (A : list Q) (j : Z) (y : Q) :
  ascendingb (a :: A) = true -> zget A j = Some y -> a < y.
Proof.
  revert a j y. induction A as [|b A IH]; intros a j y Hs Hj.
  - apply zget_Some in Hj. destruct Hj as [_ Hj].
    destruct (Z.to_nat j); discriminate.
  - pose proof Hs as Hs'. simpl in Hs'. apply andb_true_iff in Hs'.
    destruct Hs' as [Hab Hs'].
    assert (Hlt : a < b).
    { apply negb_true_iff in Hab. apply Qnot_le_lt. intro Hc.
      apply Qle_bool_iff in Hc. congruence. }
    destruct (Z.eq_dec j 0) as [->|Hne].
    + unfold zget in Hj. simpl in Hj. injection Hj as <-. exact Hlt.
    + pose proof (zget_Some _ _ _ Hj) as [Hr _].
      rewrite zget_cons in Hj by lia.
      apply Qlt_trans with b; [exact Hlt|].
      eapply IH; [|exact Hj]. exact Hs'.
Qed.

Lemma ascendingb_lt (A : list Q) (i j : Z) (x y : Q) :
  ascendingb A = true ->
  zget A i = Some x -> zget A j = Some y -> (i < j)%Z -> x < y.
Proof.
  revert i j x y. induction A as [|a A IH]; intros i j x y Hs Hi Hj Hij.
  - apply zget_Some in Hi. destruct Hi as [_ Hi].
    destruct (Z.to_nat i); discriminate.
  - pose proof (zget_Some _ _ _ Hi) as [Hri _].
    destruct (Z.eq_dec i 0) as [->|Hne].
    + unfold zget in Hi. simpl in Hi. injection Hi as <-.
      rewrite zget_cons in Hj by lia.
      eapply ascendingb_head; eauto.
    + rewrite zget_cons in Hi, Hj by lia.
      eapply IH; eauto using ascendingb_tail. lia.
Qed.

(** ** The binary search *)

Lemma Qle_bool_false (x y : Q) : Qle_bool x y = false -> y < x.
Proof.
  intros H. apply Qnot_le_lt. intro Hc. apply Qle_bool_iff in Hc. congruence.
Qed.

Lemma findIndexOf_loop_fuel (A : list Q) (key : num) (fuel fuel' : nat) :
  forall s e : Z,
    (e - s < Z.of_nat fuel)%Z -> (e - s < Z.of_nat fuel')%Z ->
    findIndexOf_loop fuel A key s e = findIndexOf_loop fuel' A key s e.
Proof.
  revert fuel'. induction fuel as [|fuel IH]; intros fuel' s e H H'.
  - destruct fuel' as [|fuel']; [reflexivity|].
    simpl. destruct (s <? e)%Z eqn:E; [apply Z.ltb_lt in E; lia|reflexivity].
  - destruct fuel' as [|fuel'].
    + simpl. destruct (s <? e)%Z eqn:E; [apply Z.ltb_lt in E; lia|reflexivity].
    + simpl. destruct (s <? e)%Z eqn:E; [|reflexivity].
      apply Z.ltb_lt in E. pose proof (middle_bounds s e E) as Hm.
      destruct (nle _ key); apply IH; lia.
Qed.

(** The turns [findIndexOf] gives its loop are enough: more change
    nothing. *)
Lemma findIndexOf_fuel_enough (A : list Q) (key : num) (fuel : nat) :
  (List.length A <= fuel)%nat ->
  findIndexOf_loop fuel A key 0 (alength A - 1)
  = findIndexOf_loop (List.length A) A key 0 (alength A - 1).
Proof.
  intros H. apply findIndexOf_loop_fuel; unfold alength; lia.
Qed.

Lemma findIndexOf_loop_spec (A : list Q) (k : Q) (fuel : nat) :
  ascendingb A = true ->
  forall s e : Z,
    (0 <= s <= e)%Z -> (e < alength A)%Z -> (e - s < Z.of_nat fuel)%Z ->
    let r := findIndexOf_loop fuel A (Fin k) s e in
    (s <= r <= e)%Z
    /\ (forall j y, (r < j <= e)%Z -> zget A j = Some y -> k < y)
    /\ (r = s \/ exists x, zget A r = Some x /\ x <= k).
Proof.
  intros Hs. induction fuel as [|fuel IH]; intros s e Hse He Hf; [lia|].
  simpl. destruct (s <? e)%Z eqn:E.
  - apply Z.ltb_lt in E. pose proof (middle_bounds s e E) as Hm.
    set (m := Qceiling (inject_Z (s + e) / 2)) in *.
    destruct (zget_in_range A m ltac:(lia)) as [xm Hxm].
    rewrite Hxm. simpl. destruct (Qle_bool xm k) eqn:Hc.
    + destruct (IH m e ltac:(lia) He ltac:(lia)) as (Hr & Hup & Hor).
      split; [lia|]. split; [exact Hup|]. right.
      destruct Hor as [->|Hex]; [|exact Hex].
      exists xm. split; [exact Hxm|]. now apply Qle_bool_iff.
    + apply Qle_bool_false in Hc.
      destruct (IH s (m - 1)%Z ltac:(lia) ltac:(lia) ltac:(lia))
        as (Hr & Hup & Hor).
      split; [lia|]. split; [|exact Hor].
      intros j y Hj Hy.
      destruct (Z_lt_le_dec j m) as [Hlt|Hge]; [apply (Hup j y); [lia|exact Hy]|].
      destruct (Z.eq_dec j m) as [->|Hne].
      * rewrite Hxm in Hy. injection Hy as <-. exact Hc.
      * apply Qlt_trans with xm; [exact Hc|].
        apply (ascendingb_lt A m j); auto. lia.
  - split; [lia|]. split; [intros; lia|]. now left.
Qed.

(** With [indirectSearch] the result is where the loop stopped. *)
Lemma findIndexOf_indirect (A : list Q) (key : num) :
  findIndexOf A key true
  = findIndexOf_loop (List.length A) A key 0 (alength A - 1).
Proof.
  unfold findIndexOf. simpl. now destruct (vseq _ _).
Qed.

Lemma findIndexOf_indirect_spec (A : list Q) (k : Q) :
  ascendingb A = true -> A <> [] ->
  let r := findIndexOf A (Fin k) true in
  (0 <= r < alength A)%Z
  /\ (forall j y, (r < j)%Z -> zget A j = Some y -> k < y)
  /\ (r = 0%Z \/ exists x, zget A r = Some x /\ x <= k).
Proof.
  intros Hs Hne. rewrite findIndexOf_indirect.
  assert (Hlen : (0 < alength A)%Z).
  { unfold alength. destruct A; [congruence|simpl; lia]. }
  destruct (findIndexOf_loop_spec A k (List.length A) Hs 0 (alength A - 1)%Z)
    as (Hr & Hup & Hor); try (unfold alength in *; lia).
  cbv zeta. split; [lia|]. split; [|exact Hor].
  intros j y Hj Hy. apply (Hup j y); [|exact Hy].
  apply zget_Some in Hy. lia.
Qed.

(** ** [getIndexInArray] and [val2lin] inside the visible positions *)

Lemma ascendingb_le (A : list Q) (i j : Z) (x y : Q) :
  ascendingb A = true ->
  zget A i = Some x -> zget A j = Some y -> (i <= j)%Z -> x <= y.
Proof.
  intros Hs Hi Hj Hij. destruct (Z.eq_dec i j) as [->|Hne].
  - rewrite Hi in Hj. injection Hj as <-. apply Qle_refl.
  - apply Qlt_le_weak. apply (ascendingb_lt A i j); auto. lia.
Qed.

Lemma zget_nonempty (A : list Q) (i : Z) (x : Q) :
  zget A i = Some x -> A <> [].
Proof.
  intros H ->. apply zget_Some in H. destruct H as [_ H].
  destruct (Z.to_nat i); discriminate.
Qed.

(** The search stops at [i] as soon as [A[i] <= k] and the next element, if
    any, is above [k]. *)
Lemma findIndexOf_between (A : list Q) (k : Q) (i : Z) (a : Q) :
  ascendingb A = true ->
  zget A i = Some a -> a <= k ->
  (forall b, zget A (i + 1) = Some b -> k < b) ->
  findIndexOf A (Fin k) true = i.
Proof.
  intros Hs Hi Ha Hb.
  destruct (findIndexOf_indirect_spec A k Hs (zget_nonempty _ _ _ Hi))
    as (Hr & Hup & Hor).
  set (r := findIndexOf A (Fin k) true) in *.
  pose proof (zget_Some _ _ _ Hi) as [Hir _].
  destruct (Z_lt_le_dec r i) as [Hlt|Hge].
  { exfalso. pose proof (Hup i a Hlt Hi). lra. }
  destruct (Z.eq_dec r i) as [|Hne]; [assumption|exfalso].
  destruct Hor as [Hz|(x & Hx & Hxk)]; [lia|].
  destruct (zget_in_range A (i + 1) ltac:(lia)) as [b Hb'].
  pose proof (Hb b Hb') as Hkb.
  pose proof (ascendingb_le A (i + 1) r b x Hs Hb' Hx ltac:(lia)). lra.
Qed.

Lemma Qeq_bool_refl (x : Q) : Qeq_bool x x = true.
Proof. apply Qeq_bool_iff. reflexivity. Qed.

Lemma Qeq_bool_lt (x y : Q) : x < y -> Qeq_bool x y = false.
Proof.
  intros H. destruct (Qeq_bool x y) eqn:E; [|reflexivity].
  apply Qeq_bool_iff in E. lra.
Qed.

Lemma Qeq_bool_gt (x y : Q) : y < x -> Qeq_bool x y = false.
Proof.
  intros H. destruct (Qeq_bool x y) eqn:E; [|reflexivity].
  apply Qeq_bool_iff in E. lra.
Qed.

Lemma Qle_bool_true (x y : Q) : x <= y -> Qle_bool x y = true.
Proof. apply Qle_bool_iff. Qed.

Lemma getIndexInArray_exact (A : list Q) (i : Z) (v : Q) :
  ascendingb A = true -> zget A i = Some v ->
  getIndexInArray A (Fin v) = ofZ i.
Proof.
  intros Hs Hi. unfold getIndexInArray.
  rewrite (findIndexOf_between A v i v Hs Hi (Qle_refl v)).
  - rewrite Hi. simpl. now rewrite Qeq_bool_refl.
  - intros b Hb. apply (ascendingb_lt A i (i + 1)); auto. lia.
Qed.

Lemma getIndexInArray_interpolate (A : list Q) (i : Z) (a b v : Q) :
  ascendingb A = true ->
  zget A i = Some a -> zget A (i + 1) = Some b -> a < v -> v < b ->
  getIndexInArray A (Fin v) = Fin (inject_Z i + (v - a) / (b - a)).
Proof.
  intros Hs Hi Hi1 Hav Hvb. unfold getIndexInArray.
  rewrite (findIndexOf_between A v i a Hs Hi (Qlt_le_weak _ _ Hav)).
  - rewrite Hi, Hi1. simpl. rewrite (Qeq_bool_lt a v Hav).
    rewrite (Qeq_bool_gt (b - a) 0) by lra. reflexivity.
  - intros b' Hb'. rewrite Hi1 in Hb'. now injection Hb' as <-.
Qed.

(** Inside the bounds of a non-empty ascending array, the visible branch of
    [val2lin] is taken. *)
Lemma val2lin_visible (o : Ordinal) (P : list Q) (v first lst : Q) :
  positions o = Some P ->
  zget P 0 = Some first -> zget P (alength P - 1) = Some lst ->
  first <= v -> v <= lst ->
  val2lin o (Fin v) true = getIndexInArray P (Fin v).
Proof.
  intros HP H0 Hl Hf Hv. unfold val2lin. rewrite HP, H0, Hl. simpl.
  unfold nge. simpl. now rewrite !Qle_bool_true.
Qed.

Lemma zget_last (A : list Q) (i : Z) (x : Q) :
  zget A i = Some x -> exists l, zget A (alength A - 1) = Some l.
Proof.
  intros H. apply zget_Some in H. apply zget_in_range. lia.
Qed.

Lemma zget_first (A : list Q) (i : Z) (x : Q) :
  zget A i = Some x -> exists f, zget A 0 = Some f.
Proof.
  intros H. apply zget_Some in H. apply zget_in_range. lia.
Qed.

(** C1, as amended.  On strictly ascending visible positions [P],
    [val2lin(v, true)] is the index [i] when [v] is the element [P[i]], and
    is [i + (v - P[i]) / (P[i+1] - P[i])], from [i] to [i + 1] with both ends
    included, when [v] lies strictly between [P[i]] and [P[i+1]]. *)
Theorem val2lin_index_of_position (o : Ordinal) (P : list Q) :
  positions o = Some P -> ascendingb P = true ->
  (forall (i : Z) (v : Q),
      zget P i = Some v -> val2lin o (Fin v) true = ofZ i)
  /\ (forall (i : Z) (a b v : Q),
         zget P i = Some a -> zget P (i + 1) = Some b -> a < v -> v < b ->
         exists q,
           val2lin o (Fin v) true = Fin q
           /\ q == inject_Z i + (v - a) / (b - a)
           /\ inject_Z i <= q /\ q <= inject_Z i + 1).
Proof.
  intros HP Hs. split.
  - intros i v Hi.
    destruct (zget_first _ _ _ Hi) as [f Hf].
    destruct (zget_last _ _ _ Hi) as [l Hl].
    pose proof (zget_Some _ _ _ Hi) as [Hr _].
    rewrite (val2lin_visible o P v f l HP Hf Hl).
    + now apply getIndexInArray_exact.
    + apply (ascendingb_le P 0 i); auto. lia.
    + apply (ascendingb_le P i (alength P - 1)); auto. lia.
  - intros i a b v Hi Hi1 Hav Hvb.
    destruct (zget_first _ _ _ Hi) as [f Hf].
    destruct (zget_last _ _ _ Hi) as [l Hl].
    pose proof (zget_Some _ _ _ Hi) as [Hr _].
    pose proof (zget_Some _ _ _ Hi1) as [Hr1 _].
    exists (inject_Z i + (v - a) / (b - a)). split.
    + rewrite (val2lin_visible o P v f l HP Hf Hl).
      * now apply getIndexInArray_interpolate.
      * pose proof (ascendingb_le P 0 i f a Hs Hf Hi ltac:(lia)). lra.
      * pose proof (ascendingb_le P (i + 1) (alength P - 1) b l Hs Hi1 Hl
                      ltac:(lia)). lra.
    + assert (Hpos : 0 < b - a) by lra.
      assert (H0 : 0 < (v - a) / (b - a)).
      { apply Qlt_shift_div_l; lra. }
      assert (H1 : (v - a) / (b - a) < 1).
      { apply Qlt_shift_div_r; lra. }
      split; [reflexivity|]. split; lra.
Qed.

Lemma val2lin_index_of_position_witness :
  val2lin sampleOrdinal (Fin 20) true = ofZ 1
  /\ exists q,
       val2lin sampleOrdinal (Fin 25) true = Fin q
       /\ q == inject_Z 1 + (25 - 20) / (40 - 20)
       /\ inject_Z 1 <= q /\ q <= inject_Z 1 + 1.
Proof.
  destruct (val2lin_index_of_position sampleOrdinal [10; 20; 40]
              eq_refl eq_refl) as [H1 H2].
  split.
  - apply (H1 1%Z 20). reflexivity.
  - apply (H2 1%Z 20 40 25); reflexivity.
Defined.

(** ** [index2val] *)

Lemma Qfloor_unique (x : Q) (z : Z) :
  inject_Z z <= x -> x < inject_Z z + 1 -> Qfloor x = z.
Proof.
  intros Hl Hu.
  pose proof (Qfloor_le x) as H1. pose proof (Qlt_floor x) as H2.
  assert (A1 : inject_Z (Qfloor x) < inject_Z (z + 1)).
  { rewrite inject_Z_plus. change (inject_Z 1) with 1. lra. }
  assert (A2 : inject_Z z < inject_Z (Qfloor x + 1)) by lra.
  rewrite <- Zlt_Qlt in A1, A2. lia.
Qed.

Lemma aget_integer (A : list Q) (q : Q) (z : Z) :
  q == inject_Z z -> aget A (Fin q) = zget A z.
Proof.
  intros H. unfold aget.
  assert (Hf : Qfloor q = z) by (apply Qfloor_unique; lra).
  rewrite Hf. assert (E : Qeq_bool q (inject_Z z) = true)
    by now apply Qeq_bool_iff.
  now rewrite E.
Qed.

Lemma nlt_Fin (x y : Q) : nlt (Fin x) (Fin y) = negb (Qle_bool y x).
Proof. reflexivity. Qed.

Lemma Qle_bool_gt (x y : Q) : y < x -> Qle_bool x y = false.
Proof.
  intros H. destruct (Qle_bool x y) eqn:E; [|reflexivity].
  apply Qle_bool_iff in E. lra.
Qed.

(** [index2val] at an index whose integer part is [i] and whose fractional
    part is [d]. *)
Lemma index2val_split (o : Ordinal) (P : list Q) (idx : Q) (i : Z) (a : Q) :
  positions o = Some P ->
  zget P i = Some a ->
  inject_Z i <= idx -> idx < inject_Z i + 1 ->
  idx <= inject_Z (alength P - 1) ->
  exists q,
    index2val o (Fin idx) = Some (Fin q)
    /\ ((idx == inject_Z i -> q == a)
        /\ (forall b, zget P (i + 1) = Some b ->
                      q == a + (idx - inject_Z i) * (b - a))).
Proof.
  intros HP Hi Hl Hu Hlast.
  pose proof (zget_Some _ _ _ Hi) as [Hr _].
  assert (H0 : 0 <= idx).
  { assert (inject_Z 0 <= inject_Z i) by (rewrite <- Zle_Qle; lia).
    simpl in *. change (inject_Z 0) with 0 in *. lra. }
  unfold index2val. rewrite HP. rewrite nlt_Fin.
  rewrite (Qle_bool_true 0 idx H0). simpl negb. cbv iota.
  unfold ngt, ofZ, lastIndex. rewrite nlt_Fin.
  rewrite (Qle_bool_true idx _ Hlast). simpl negb. cbv iota.
  assert (Hf : Qfloor idx = i) by (apply Qfloor_unique; assumption).
  unfold nfloor. rewrite Hf.
  rewrite (aget_integer P (inject_Z i) i) by reflexivity. rewrite Hi.
  unfold nsub at 1. unfold truthy.
  destruct (Qeq_bool (idx - inject_Z i) 0) eqn:E.
  - apply Qeq_bool_iff in E. simpl. eexists. split; [reflexivity|].
    split; [intros; lra|]. intros b Hb. rewrite E. lra.
  - simpl negb. cbv iota.
    destruct (zget P (i + 1)) as [b|] eqn:Hb.
    + unfold nadd at 2.
      rewrite (aget_integer P (inject_Z i + 1) (i + 1))
        by (rewrite inject_Z_plus; reflexivity).
      rewrite Hb. simpl. eexists. split; [reflexivity|].
      split.
      * intros He. exfalso.
        assert (Qeq_bool (idx - inject_Z i) 0 = true)
          by (apply Qeq_bool_iff; lra). congruence.
      * intros b' Hb'. injection Hb' as <-. reflexivity.
    + unfold nadd at 2.
      rewrite (aget_integer P (inject_Z i + 1) (i + 1))
        by (rewrite inject_Z_plus; reflexivity).
      rewrite Hb. simpl.
      (* the index is the last one and has a fractional part *)
      exfalso.
      assert (Hi1 : (alength P - 1 <= i)%Z).
      { destruct (Z_lt_le_dec i (alength P - 1)) as [Hlt|]; [|assumption].
        destruct (zget_in_range P (i + 1) ltac:(lia)) as [b Hb'].
        congruence. }
      assert (inject_Z (alength P - 1) <= inject_Z i)
        by (rewrite <- Zle_Qle; lia).
      assert (Qeq_bool (idx - inject_Z i) 0 = true)
        by (apply Qeq_bool_iff; lra).
      congruence.
Qed.

(** Inside the bounds there is a floor position: the greatest one that is
    not above the value. *)
Lemma floor_position (P : list Q) (v first lst : Q) :
  ascendingb P = true ->
  zget P 0 = Some first -> zget P (alength P - 1) = Some lst ->
  first <= v -> v <= lst ->
  exists (r : Z) (a : Q),
    findIndexOf P (Fin v) true = r /\ zget P r = Some a /\ a <= v
    /\ (a == v \/ exists b, zget P (r + 1) = Some b /\ a < v /\ v < b).
Proof.
  intros Hs H0 Hl Hf Hv.
  destruct (findIndexOf_indirect_spec P v Hs (zget_nonempty _ _ _ H0))
    as (Hr & Hup & Hor).
  set (r := findIndexOf P (Fin v) true) in *.
  assert (Ha : exists a, zget P r = Some a /\ a <= v).
  { destruct Hor as [Hz|Hex]; [|exact Hex].
    exists first. rewrite Hz. auto. }
  destruct Ha as (a & Ha & Hav).
  exists r, a. repeat split; auto.
  destruct (Qeq_dec a v) as [He|Hne]; [now left|right].
  destruct (Z.eq_dec r (alength P - 1)) as [Hlast|Hnl].
  - exfalso. rewrite Hlast in Ha. rewrite Hl in Ha. injection Ha as <-.
    apply Hne. lra.
  - destruct (zget_in_range P (r + 1) ltac:(lia)) as [b Hb].
    exists b. split; [exact Hb|]. split.
    + destruct (Qlt_le_dec a v); [assumption|]. exfalso. apply Hne. lra.
    + apply (Hup (r + 1)%Z b); [lia|exact Hb].
Qed.

(** C2.  Round trip: for strictly ascending visible positions and a value
    [v] between the first and the last of them,
    [index2val(val2lin(v, true))] is [v]. *)
Theorem index2val_val2lin_roundtrip (o : Ordinal) (P : list Q) (v first lst : Q) :
  positions o = Some P -> ascendingb P = true ->
  zget P 0 = Some first -> zget P (alength P - 1) = Some lst ->
  first <= v -> v <= lst ->
  exists q, index2val o (val2lin o (Fin v) true) = Some (Fin q) /\ q == v.
Proof.
  intros HP Hs H0 Hl Hf Hv.
  rewrite (val2lin_visible o P v first lst HP H0 Hl Hf Hv).
  destruct (floor_position P v first lst Hs H0 Hl Hf Hv)
    as (r & a & Hr & Ha & Hav & Hcase).
  pose proof (zget_Some _ _ _ Ha) as [Hrr _].
  unfold getIndexInArray. rewrite Hr, Ha. simpl vseq.
  destruct Hcase as [He|(b & Hb & Hlt & Hgt)].
  - assert (E : Qeq_bool a v = true) by now apply Qeq_bool_iff.
    rewrite E.
    destruct (index2val_split o P (inject_Z r) r a HP Ha) as (q & Hq & Hx & _).
    + lra.
    + lra.
    + rewrite <- Zle_Qle. lia.
    + exists q. split; [exact Hq|]. rewrite (Hx ltac:(reflexivity)). exact He.
  - rewrite (Qeq_bool_lt a v Hlt). rewrite Hb. simpl.
    rewrite (Qeq_bool_gt (b - a) 0) by lra.
    assert (Hpos : 0 < b - a) by lra.
    assert (P0 : 0 < (v - a) / (b - a)) by (apply Qlt_shift_div_l; lra).
    assert (P1 : (v - a) / (b - a) < 1) by (apply Qlt_shift_div_r; lra).
    pose proof (zget_Some _ _ _ Hb) as [Hrb _].
    destruct (index2val_split o P (inject_Z r + (v - a) / (b - a)) r a HP Ha)
      as (q & Hq & _ & Hx).
    + lra.
    + lra.
    + assert (inject_Z (r + 1) <= inject_Z (alength P - 1))
        by (rewrite <- Zle_Qle; lia).
      rewrite inject_Z_plus in H. change (inject_Z 1) with 1 in H. lra.
    + exists q. split; [exact Hq|]. rewrite (Hx b Hb). field. lra.
Qed.

Lemma index2val_val2lin_roundtrip_witness :
  exists q,
    index2val sampleOrdinal (val2lin sampleOrdinal (Fin 25) true)
    = Some (Fin q)
    /\ q == 25.
Proof.
  apply (index2val_val2lin_roundtrip sampleOrdinal [10; 20; 40] 25 10 40);
    try reflexivity; unfold Qle; simpl; lia.
Defined.

(** ** The contract of [findIndexOf] and the identity fallback *)

Lemma findIndexOf_no_match (A : list Q) (k : Q) :
  existsb (fun x => Qeq_bool x k) A = false ->
  findIndexOf A (Fin k) false = (-1)%Z.
Proof.
  intros Hno. unfold findIndexOf.
  set (start := findIndexOf_loop _ _ _ _ _).
  destruct (zget A start) as [x|] eqn:Hx; simpl; [|reflexivity].
  apply zget_Some in Hx. destruct Hx as [_ Hx]. apply nth_error_In in Hx.
  destruct (Qeq_bool x k) eqn:E; [|reflexivity].
  assert (existsb (fun x => Qeq_bool x k) A = true)
    by (apply existsb_exists; eauto).
  congruence.
Qed.

(** C3, as amended.  On a strictly ascending array [A] and a key [k] that
    is not below [A[0]], [findIndexOf(A, k, true)] is the greatest index whose
    element is not above [k]; and on any array without an element equal to
    [k], [findIndexOf(A, k, false)] is [-1]. *)
Theorem findIndexOf_floor_index (A : list Q) (k : Q) :
  ascendingb A = true ->
  (forall a0, zget A 0 = Some a0 -> a0 <= k ->
              greatest_index_le A k (findIndexOf A (Fin k) true))
  /\ (existsb (fun x => Qeq_bool x k) A = false ->
      findIndexOf A (Fin k) false = (-1)%Z).
Proof.
  intros Hs. split; [|apply findIndexOf_no_match].
  intros a0 H0 Hk.
  destruct (findIndexOf_indirect_spec A k Hs (zget_nonempty _ _ _ H0))
    as (Hr & Hup & Hor).
  set (r := findIndexOf A (Fin k) true) in *. split.
  - destruct Hor as [Hz|Hex]; [|exact Hex]. exists a0. rewrite Hz. auto.
  - intros j y Hj Hy. destruct (Z_lt_le_dec r j) as [Hlt|]; [|assumption].
    pose proof (Hup j y Hlt Hj). lra.
Qed.

Lemma findIndexOf_floor_index_witness :
  greatest_index_le [1; 3; 5; 7; 9] 6 (findIndexOf [1; 3; 5; 7; 9] (Fin 6) true)
  /\ findIndexOf [1; 3; 5; 7; 9] (Fin 6) false = (-1)%Z.
Proof.
  destruct (findIndexOf_floor_index [1; 3; 5; 7; 9] 6 eq_refl) as [H1 H2].
  split.
  - apply (H1 1); [reflexivity|]. unfold Qle. simpl. lia.
  - apply H2. reflexivity.
Defined.

(** C3 as stated fails below the first element: on [[1,3]] with key [0] the
    search returns [0], and [A[0] = 1] is above the key. *)
Lemma findIndexOf_below_first_not_floor :
  ascendingb [1; 3] = true
  /\ ~ greatest_index_le [1; 3] 0 (findIndexOf [1; 3] (Fin 0) true).
Proof.
  split; [reflexivity|].
  intros [(x & Hx & Hle) _]. vm_compute in Hx. injection Hx as <-.
  revert Hle. vm_compute. intros H. apply H. reflexivity.
Qed.

(** C4 as stated fails: the index returned for key [6] is not [1]. *)
Lemma findIndexOf_example_not_one :
  findIndexOf [1; 3; 5; 7; 9] (Fin 6) true <> 1%Z.
Proof. vm_compute. discriminate. Qed.

(** C4, as amended.  On [[1,3,5,7,9]] with key [6], [findIndexOf] returns
    index [2], where the element [5] is, with [indirectSearch], and [-1]
    without. *)
Theorem findIndexOf_example :
  findIndexOf [1; 3; 5; 7; 9] (Fin 6) true = 2%Z
  /\ zget [1; 3; 5; 7; 9] 2 = Some 5
  /\ findIndexOf [1; 3; 5; 7; 9] (Fin 6) false = (-1)%Z.
Proof. repeat split. Qed.

(** C9.  On a strictly ascending non-empty array [A] and a key [k] below
    [A[0]], [findIndexOf(A, k, true)] is [0] although no element of [A] is at
    most [k], and [findIndexOf(A, k, false)] is [-1]. *)
Theorem findIndexOf_left_edge (A : list Q) (k a0 : Q) :
  ascendingb A = true -> zget A 0 = Some a0 -> k < a0 ->
  findIndexOf A (Fin k) true = 0%Z
  /\ (forall j y, zget A j = Some y -> k < y)
  /\ findIndexOf A (Fin k) false = (-1)%Z.
Proof.
  intros Hs H0 Hk.
  assert (Hall : forall j y, zget A j = Some y -> k < y).
  { intros j y Hj. pose proof (zget_Some _ _ _ Hj) as [Hr _].
    pose proof (ascendingb_le A 0 j a0 y Hs H0 Hj ltac:(lia)). lra. }
  assert (Hz : findIndexOf A (Fin k) true = 0%Z).
  { destruct (findIndexOf_indirect_spec A k Hs (zget_nonempty _ _ _ H0))
      as (Hr & Hup & Hor).
    destruct Hor as [Hz|(x & Hx & Hxk)]; [exact Hz|].
    pose proof (Hall _ _ Hx). lra. }
  split; [exact Hz|]. split; [exact Hall|].
  rewrite findIndexOf_indirect in Hz. unfold findIndexOf.
  rewrite Hz, H0. simpl. now rewrite (Qeq_bool_gt a0 k Hk).
Qed.

Lemma findIndexOf_left_edge_witness :
  findIndexOf [1; 3] (Fin 0) true = 0%Z
  /\ (forall j y, zget [1; 3] j = Some y -> 0 < y)
  /\ findIndexOf [1; 3] (Fin 0) false = (-1)%Z.
Proof.
  apply (findIndexOf_left_edge [1; 3] 0 1).
  - reflexivity.
  - reflexivity.
  - reflexivity.
Defined.

(** C8.  Identity fallback: a value outside the bounds of the visible
    positions is returned unchanged by [val2lin(v, false)] when it is also
    outside the bounds of the extended positions, and by [val2lin(v, toIndex)]
    for either [toIndex] when the extended positions are missing or empty. *)
Theorem val2lin_identity_fallback (o : Ordinal) (v : num) :
  (forall P, positions o = Some P -> insideBounds P v = false) ->
  ((forall E, getExtendedPositions o = Some (Some E) ->
              insideBounds E v = false) ->
   val2lin o v false = v)
  /\ (forall toIndex,
         (forall E, getExtendedPositions o = Some (Some E) -> E = []) ->
         val2lin o v toIndex = v).
Proof.
  intros Hvis. unfold val2lin.
  destruct (positions o) as [P|]; [|split; reflexivity].
  specialize (Hvis P eq_refl). unfold insideBounds in Hvis.
  unfold nge. rewrite Hvis. split.
  - intros Hext. destruct (getExtendedPositions o) as [[E|]|]; try reflexivity.
    specialize (Hext E eq_refl). unfold insideBounds in Hext.
    destruct E as [|e E]; [reflexivity|].
    rewrite Hext. reflexivity.
  - intros toIndex Hext.
    destruct (getExtendedPositions o) as [[E|]|]; try reflexivity.
    now rewrite (Hext E eq_refl).
Qed.

Lemma val2lin_identity_fallback_witness :
  val2lin sampleOrdinalExtended (Fin 50) false = Fin 50
  /\ (forall toIndex, val2lin sampleOrdinal (Fin 50) toIndex = Fin 50).
Proof.
  split.
  - refine (proj1 (val2lin_identity_fallback sampleOrdinalExtended (Fin 50) _)
              _).
    + intros P H. injection H as <-. reflexivity.
    + intros E H. injection H as <-. reflexivity.
  - intros toIndex.
    refine (proj2 (val2lin_identity_fallback sampleOrdinal (Fin 50) _)
              toIndex _).
    + intros P H. injection H as <-. reflexivity.
    + intros E H. discriminate.
Defined.

(** ** Overscroll positions *)











(** ** Where the doubles of the code leave the exact numbers *)

Module OnDoubles.

Import PrimFloat.

#[local] Set Warnings "-inexact-float".

(** C1 as stated fails on doubles: with the positions [[-1, 0, 1]] the
    value [0.9999999999999999] lies strictly between [P[1] = 0] and
    [P[2] = 1], and [1 + (v - 0) / (1 - 0)] rounds to [2]: the index is
    [i + 1], not strictly below it. *)
Lemma val2lin_reaches_next_index :
  ltb 0 Doubles.belowOne = true
  /\ ltb Doubles.belowOne 1 = true
  /\ Doubles.val2lin Doubles.unitPositions Doubles.belowOne true = 2%float
  /\ ltb (Doubles.val2lin Doubles.unitPositions Doubles.belowOne true) 2
     = false.
Proof. repeat split; vm_compute; reflexivity. Qed.



End OnDoubles.

(** ** Overscroll conversion *)

Lemma digit_cases (d : nat) (P : nat -> Prop) :
  isDigit d = true ->
  P 0%nat -> P 1%nat -> P 2%nat -> P 3%nat -> P 4%nat -> P 5%nat ->
  P 6%nat -> P 7%nat -> P 8%nat -> P 9%nat -> P d.
Proof.
  unfold isDigit. intros H. apply Nat.leb_le in H.
  do 10 (destruct d as [|d]; [tauto|]). lia.
Qed.

Lemma digitOf_digitChar (d : nat) :
  isDigit d = true -> digitOf (digitChar d) = Some (Z.of_nat d).
Proof. intros H. apply (digit_cases d); auto. Qed.

Lemma digitChar_plain (d : nat) :
  isDigit d = true ->
  isWhiteSpace (digitChar d) = false
  /\ Ascii.eqb (digitChar d) "-" = false
  /\ Ascii.eqb (digitChar d) "+" = false
  /\ Ascii.eqb (digitChar d) "p" = false
  /\ Ascii.eqb (digitChar d) "%" = false.
Proof. intros H. apply (digit_cases d); auto. Qed.

Lemma parseDigits_decimal (rest : string) (ds : list nat) :
  (forall acc, parseDigits rest acc = acc) ->
  forallb isDigit ds = true ->
  forall acc : Z,
    parseDigits (decimal ds rest) (Some acc)
    = Some (fold_left (fun a d => (10 * a + Z.of_nat d)%Z) ds acc).
Proof.
  intros Hrest. induction ds as [|d ds IH]; intros Hds acc.
  - simpl. apply Hrest.
  - simpl in Hds. apply andb_true_iff in Hds. destruct Hds as [Hd Hds].
    cbn [decimal parseDigits]. rewrite (digitOf_digitChar d Hd).
    cbn [pick]. now rewrite IH.
Qed.

Lemma parseInt_decimal (rest : string) (ds : list nat) :
  (forall acc, parseDigits rest acc = acc) ->
  ds <> [] -> forallb isDigit ds = true ->
  parseInt (decimal ds rest) = ofZ (decimalValue ds).
Proof.
  intros Hrest Hne Hds. destruct ds as [|d ds]; [congruence|].
  pose proof Hds as Hds'. simpl in Hds'. apply andb_true_iff in Hds'.
  destruct Hds' as [Hd Hds'].
  destruct (digitChar_plain d Hd) as (Hw & Hm & Hp & _).
  unfold parseInt. cbn [decimal skipWhiteSpace]. rewrite Hw, Hm, Hp.
  cbn [parseDigits]. rewrite (digitOf_digitChar d Hd).
  rewrite (parseDigits_decimal rest ds Hrest Hds').
  unfold decimalValue. cbn [fold_left pick]. now rewrite Z.mul_1_l.
Qed.

Lemma digitOf_not_digit (c : ascii) :
  isDigitChar c = false -> digitOf c = None.
Proof.
  destruct c as [b0 b1 b2 b3 b4 b5 b6 b7].
  destruct b0, b1, b2, b3, b4, b5, b6, b7; intros H;
    solve [reflexivity | discriminate H].
Qed.

Lemma parseDigits_noDigitAhead (rest : string) :
  noDigitAhead rest = true -> forall acc, parseDigits rest acc = acc.
Proof.
  intros H acc. destruct rest as [|c rest]; [reflexivity|].
  cbn [noDigitAhead] in H. apply negb_true_iff in H. cbn [parseDigits].
  now rewrite (digitOf_not_digit c H).
Qed.

(** The two tests on the string, [/%$/] and [/px/]. *)
Lemma endsWithPercent_spec (s : string) :
  endsWithPercent s = true <-> percentString s.
Proof.
  unfold percentString. induction s as [|c r IH].
  - split; [discriminate|]. intros [[|c pre] H]; discriminate.
  - destruct r as [|c' r'].
    + cbn [endsWithPercent]. rewrite Ascii.eqb_eq. split.
      * intros ->. exists EmptyString. reflexivity.
      * intros [[|c1 [|c2 pre]] H]; cbn in H; congruence.
    + change (endsWithPercent (String c (String c' r')))
        with (endsWithPercent (String c' r')).
      rewrite IH. split.
      * intros [pre H]. exists (String c pre). cbn. now rewrite H.
      * intros [[|c1 pre] H]; cbn in H; [discriminate|].
        injection H as _ H. exists pre. exact H.
Qed.

Lemma containsPx_spec (s : string) :
  containsPx s = true <-> pixelString s.
Proof.
  unfold pixelString. induction s as [|c r IH].
  - split; [discriminate|]. intros ([|c pre] & post & H); discriminate.
  - cbn [containsPx]. rewrite orb_true_iff, andb_true_iff, IH, Ascii.eqb_eq.
    split.
    + intros [[-> Hx]|(pre & post & H)].
      * destruct r as [|c2 r']; [discriminate|].
        apply Ascii.eqb_eq in Hx. subst c2.
        exists EmptyString, r'. reflexivity.
      * exists (String c pre), post. cbn. now rewrite H.
    + intros ([|c1 pre] & post & H); cbn in H.
      * injection H as -> ->. left. split; [reflexivity|].
        apply Ascii.eqb_refl.
      * injection H as _ H. right. exists pre, post. exact H.
Qed.

Lemma not_percentString (s : string) :
  ~ percentString s -> endsWithPercent s = false.
Proof.
  intros H. destruct (endsWithPercent s) eqn:E; [|reflexivity].
  exfalso. apply H. now apply endsWithPercent_spec.
Qed.

Lemma calculateOverscroll_range (axis : Axis) (R x : Q) :
  percentageRange axis R ->
  exists q, calculateOverscroll axis (Fin x) = Fin q /\ q == R * x.
Proof.
  unfold calculateOverscroll.
  intros [Hr|(Hr & hi & lo & Hhi & Hlo & E)].
  - rewrite Hr. cbn [pick nmul]. eexists. split; reflexivity.
  - rewrite Hr, Hhi, Hlo. cbn [pick defined andb ofValue nsub nmul].
    eexists. split; [reflexivity|]. now rewrite E.
Qed.

(** An overscroll in pixels: the pixel count, or 90% of the axis length
    when the count is above that, is divided by the length; the percentage
    formula is applied to [p / (1 - p)]. *)
Lemma convertOverscroll_pixels (axis : Axis) (s : string) (N L R : Q) :
  percentageRange axis R ->
  endsWithPercent s = false -> containsPx s = true ->
  parseInt s = Fin N -> len axis = Fin L -> 0 < L ->
  exists c q,
    convertOverscroll axis (Some (OvString s)) = Fin q
    /\ q == R * ((c / L) / (1 - c / L))
    /\ ((N <= L * (9 # 10) /\ c = N)
        \/ (L * (9 # 10) < N /\ c = L * (9 # 10))).
Proof.
  intros HR Hpc Hpx HN HL Lpos.
  unfold convertOverscroll. cbn [pick]. rewrite Hpc, Hpx, HN, HL.
  set (lim := nmin (Fin N) (nmul (Fin L) (Fin (9 # 10)))).
  assert (Hlim : exists c, lim = Fin c
                   /\ ((N <= L * (9 # 10) /\ c = N)
                       \/ (L * (9 # 10) < N /\ c = L * (9 # 10)))).
  { unfold lim. cbn [nmul nmin nle].
    destruct (Qle_bool N (L * (9 # 10))) eqn:E.
    - apply Qle_bool_iff in E. exists N. auto.
    - apply Qle_bool_false in E. exists (L * (9 # 10)). auto. }
  destruct Hlim as (c & -> & Hc).
  assert (Hcap : c <= L * (9 # 10)) by (destruct Hc as [[H ->]|[H ->]]; lra).
  assert (HL0 : Qeq_bool L 0 = false) by now apply Qeq_bool_gt.
  cbn [ndiv]. rewrite HL0.
  assert (Hp : c / L <= 9 # 10) by (apply Qle_shift_div_r; lra).
  cbn [nsub ndiv]. rewrite (Qeq_bool_gt (1 - c / L) 0) by lra.
  destruct (calculateOverscroll_range axis R ((c / L) / (1 - c / L)) HR)
    as (q & Hq & Eq).
  exists c, q. auto.
Qed.

(** C6, as amended.  [convertOverscroll] returns a number as it is.  Of a
    string it reads the number [N] with [parseInt]: the integer written at
    the start, so that the digits [ds] followed by anything but a digit are
    the integer [ds] (["12.5%"] is read as 12).  A string that ends with
    ["%"] gives [R * (N / 100)], where [R] is the original ordinal range if
    it is cached, else [dataMax - dataMin]; a string that does not, and has
    ["px"] in it, on an axis of [L > 0] pixels, gives [R * (p / (1 - p))],
    where [p] is [N / L] when [N] is at most [0.9 L], and [(0.9 L) / L] when
    [N] is at least that.  With data from 0 to 100 and no cached range,
    ["10%"] gives 10, and on 500 pixels ["50px"] gives [100 * (0.1 / 0.9)]
    and ["600px"] what ["450px"] gives. *)
Theorem convertOverscroll_resolves (axis : Axis) (R : Q) :
  percentageRange axis R ->
  (forall n, convertOverscroll axis (Some (OvNumber n)) = n)
  /\ (forall (ds : list nat) (rest : string),
         ds <> [] -> forallb isDigit ds = true -> noDigitAhead rest = true ->
         parseInt (decimal ds rest) = ofZ (decimalValue ds))
  /\ (forall (s : string) (N : Q),
         percentString s -> parseInt s = Fin N ->
         exists q, convertOverscroll axis (Some (OvString s)) = Fin q
                   /\ q == R * (N / 100))
  /\ (forall (s : string) (N L : Q),
         ~ percentString s -> pixelString s ->
         parseInt s = Fin N -> len axis = Fin L -> 0 < L ->
         exists q,
           convertOverscroll axis (Some (OvString s)) = Fin q
           /\ (N <= L * (9 # 10) -> q == R * ((N / L) / (1 - N / L)))
           /\ (L * (9 # 10) <= N ->
               q == R * ((L * (9 # 10) / L) / (1 - L * (9 # 10) / L))))
  /\ (originalOrdinalRange (ordinal axis) = None ->
      dataMax axis = Some (Fin 100) -> dataMin axis = Some (Fin 0) ->
      (exists q, convertOverscroll axis (Some (OvString "10%")) = Fin q
                 /\ q == 10)
      /\ (len axis = Fin 500 ->
          (exists q, convertOverscroll axis (Some (OvString "50px")) = Fin q
                     /\ q == 100 * ((1 # 10) / (9 # 10)))
          /\ (exists q q',
                 convertOverscroll axis (Some (OvString "600px")) = Fin q
                 /\ convertOverscroll axis (Some (OvString "450px")) = Fin q'
                 /\ q == q'
                 /\ q == 100 * ((450 / 500) / (1 - 450 / 500))))).
Proof.
  intros HR.
  split; [reflexivity|].
  split.
  { intros ds rest Hne Hds Hrest.
    apply parseInt_decimal; auto. now apply parseDigits_noDigitAhead. }
  split.
  { intros s N Hpc HN. apply endsWithPercent_spec in Hpc.
    unfold convertOverscroll. cbn [pick].
    rewrite Hpc, HN. cbn [ndiv].
    change (Qeq_bool 100 0) with false. cbv iota.
    apply calculateOverscroll_range. exact HR. }
  split.
  { intros s N L Hpc Hpx HN HL Lpos.
    apply not_percentString in Hpc. apply containsPx_spec in Hpx.
    destruct (convertOverscroll_pixels axis s N L R HR Hpc Hpx HN HL Lpos)
      as (c & q & Hq & Eq & Hc).
    exists q. split; [exact Hq|]. split.
    - intros Hle. destruct Hc as [[_ ->]|[Hlt _]]; [exact Eq|lra].
    - intros Hge. destruct Hc as [[Hle ->]|[_ ->]]; [|exact Eq].
      assert (E : N == L * (9 # 10)) by lra.
      rewrite Eq, E. reflexivity. }
  intros Hr Hhi Hlo. split.
  - unfold convertOverscroll, calculateOverscroll. rewrite Hr, Hhi, Hlo.
    eexists. split; [vm_compute; reflexivity|]. reflexivity.
  - intros Hlen. split.
    + unfold convertOverscroll, calculateOverscroll.
      rewrite Hr, Hhi, Hlo, Hlen.
      eexists. split; [vm_compute; reflexivity|]. reflexivity.
    + unfold convertOverscroll, calculateOverscroll.
      rewrite Hr, Hhi, Hlo, Hlen.
      eexists. eexists. split; [vm_compute; reflexivity|].
      split; [vm_compute; reflexivity|]. split; reflexivity.
Qed.

Lemma convertOverscroll_resolves_witness :
  parseInt "12.5%" = ofZ 12
  /\ (exists q,
         convertOverscroll (sampleAxis None) (Some (OvString "12.5%")) = Fin q
         /\ q == 100 * (inject_Z 12 / 100))
  /\ (exists q,
         convertOverscroll (sampleAxis None) (Some (OvString "600px")) = Fin q
         /\ q == 100 * ((500 * (9 # 10) / 500) / (1 - 500 * (9 # 10) / 500)))
  /\ exists q,
       convertOverscroll (sampleAxis None) (Some (OvString "50px")) = Fin q
       /\ q == 100 * ((1 # 10) / (9 # 10)).
Proof.
  destruct (convertOverscroll_resolves (sampleAxis None) 100)
    as (_ & Hint & Hpc & Hpx & Hex).
  { right. split; [reflexivity|]. exists 100, 0. repeat split; reflexivity. }
  split; [|split; [|split]].
  - apply (Hint [1%nat; 2%nat] ".5%"%string); [discriminate | | ]; reflexivity.
  - apply (Hpc "12.5%"%string (inject_Z 12)); [|reflexivity].
    exists "12.5"%string. reflexivity.
  - destruct (Hpx "600px"%string 600 500) as (q & Hq & _ & Hcap);
      try reflexivity.
    + intros [pre H].
      do 6 (destruct pre as [|? pre]; [discriminate H|]). discriminate H.
    + exists "600"%string, EmptyString. reflexivity.
    + exists q. split; [exact Hq|]. apply Hcap. unfold Qle; simpl; lia.
  - apply Hex; reflexivity.
Defined.

(** C6 as stated fails for a percentage that is not an integer: ["12.5%"]
    is resolved as 12%, not as 12.5%. *)
Lemma convertOverscroll_drops_decimals :
  exists q,
    convertOverscroll (sampleAxis None) (Some (OvString "12.5%")) = Fin q
    /\ q == 12 /\ ~ q == 100 * ((25 # 2) / 100).
Proof.
  eexists. split; [vm_compute; reflexivity|].
  split; [reflexivity|]. intro H. vm_compute in H. discriminate.
Qed.

(** ** Segments *)



Lemma last_In_or_default (l : list Q) (d : Q) :
  List.last l d = d \/ In (List.last l d) l.
Proof.
  induction l as [|x l IH]; [now left|].
  destruct l as [|y l]; [right; now left|].
  change (List.last (x :: y :: l) d) with (List.last (y :: l) d).
  destruct IH as [H|H]; [left; exact H|right; right; exact H].
Qed.


Section SegmentScan.

Variable timeTicks : option num -> option num -> list Q.
Variable pos : list Q.
Variable min max cd : num.

Lemma closeSegment_closed (e s : Z) (st : SegState) :
  st_closed (closeSegment timeTicks pos e s st) = st_closed st ++ [(s, e)].
Proof. unfold closeSegment. now destruct (ngt _ _). Qed.


Lemma outsideMax_segmentEnds (e : Z) :
  outsideMax pos max e = true -> segmentEnds pos max cd e = true.
Proof. unfold segmentEnds. intros ->. apply orb_true_r. Qed.





End SegmentScan.






Lemma covers_tests (min max : num) (pos : list Q) :
  covers min max pos = true ->
  (forall e, nlt (toNum (zget pos e)) min = false)
  /\ (forall e, outsideMax pos max e = false).
Proof.
  intros Hc. unfold covers in Hc. rewrite forallb_forall in Hc.
  assert (A : forall i, nlt (toNum (zget pos i)) min = false
                        /\ ngt (toNum (zget pos i)) max = false).
  { intros i. destruct (zget pos i) as [x|] eqn:E.
    - apply zget_Some in E. destruct E as [_ E]. apply nth_error_In in E.
      apply Hc in E. apply andb_true_iff in E. destruct E as [E1 E2].
      unfold ngt. simpl toNum.
      destruct min, max; simpl in *; try discriminate;
        rewrite ?E1, ?E2; auto.
    - simpl. destruct min, max; auto. }
  split; intros e; [apply A|].
  unfold outsideMax. rewrite (proj2 (A (e - 1)%Z)). apply andb_false_r.
Qed.




(** ** Panning *)



Section PanProofs.

Variable toFixedRange : Chart -> option num -> option num -> option num * option num.
Variable setExtremes : Chart -> option num -> option num -> Chart.


End PanProofs.



(* ===================================================================== *)
(** * Further properties                                                 *)
(* ===================================================================== *)

(** ** The binary search *)

(** The loop never leaves the window it was given, whatever the array and
    the key. *)
Lemma findIndexOf_loop_range (A : list Q) (key : num) (fuel : nat) :
  forall s e : Z,
    (s <= e)%Z ->
    (s <= findIndexOf_loop fuel A key s e <= e)%Z.
Proof.
  induction fuel as [|fuel IH]; intros s e Hse; simpl; [lia|].
  destruct (s <? e)%Z eqn:E; [|lia].
  apply Z.ltb_lt in E. pose proof (middle_bounds s e E) as Hm.
  destruct (nle _ key).
  - pose proof (IH _ e (proj2 Hm)). lia.
  - pose proof (IH s (Qceiling (inject_Z (s + e) / 2) - 1)%Z ltac:(lia)). lia.
Qed.

(** X1.  Whatever the array and the key, sorted or not: an indirect search
    of a non-empty array answers an index of the array, and a direct search
    answers either [-1] or an index whose element is strictly equal to the
    key. *)
Theorem findIndexOf_sound (A : list Q) (key : num) :
  (A <> [] -> (0 <= findIndexOf A key true < alength A)%Z)
  /\ (let r := findIndexOf A key false in
      r = (-1)%Z
      \/ ((0 <= r < alength A)%Z
          /\ exists x, zget A r = Some x /\ nseq (Fin x) key = true)).
Proof.
  split.
  - intros Hne. rewrite findIndexOf_indirect.
    assert (Hlen : (0 < alength A)%Z).
    { unfold alength. destruct A; [congruence|simpl; lia]. }
    assert (H0 : (0 <= alength A - 1)%Z) by lia.
    pose proof (findIndexOf_loop_range A key (List.length A) 0
                  (alength A - 1)%Z H0). lia.
  - cbv zeta. unfold findIndexOf.
    set (start := findIndexOf_loop _ _ _ _ _).
    destruct (zget A start) as [x|] eqn:Hx; unfold option_map, vseq.
    + destruct (nseq (Fin x) key) eqn:E; [right|now left].
      split; [now apply zget_Some in Hx|]. eauto.
    + now left.
Qed.

Lemma findIndexOf_sound_witness :
  (0 <= findIndexOf [40; 10; 20]%Q (Fin 25) true
   < alength [40; 10; 20]%Q)%Z.
Proof.
  apply (proj1 (findIndexOf_sound [40; 10; 20] (Fin 25))). discriminate.
Defined.

(** X2.  On a strictly ascending array, a key that is an element of the
    array is found at its own index, by the direct search and by the
    indirect one. *)
Theorem findIndexOf_direct_finds (A : list Q) (k : Q) (i : Z) (a : Q) :
  ascendingb A = true -> zget A i = Some a -> a == k ->
  findIndexOf A (Fin k) false = i /\ findIndexOf A (Fin k) true = i.
Proof.
  intros Hs Hi Hk.
  assert (Hr : findIndexOf A (Fin k) true = i).
  { apply (findIndexOf_between A k i a Hs Hi); [lra|].
    intros b Hb. pose proof (ascendingb_lt A i (i + 1) a b Hs Hi Hb ltac:(lia)).
    lra. }
  split; [|exact Hr].
  rewrite findIndexOf_indirect in Hr. unfold findIndexOf. rewrite Hr, Hi.
  simpl. assert (E : Qeq_bool a k = true) by now apply Qeq_bool_iff.
  now rewrite E.
Qed.

Lemma findIndexOf_direct_finds_witness :
  findIndexOf [10; 20; 40] (Fin 20) false = 1%Z
  /\ findIndexOf [10; 20; 40] (Fin 20) true = 1%Z.
Proof.
  apply (findIndexOf_direct_finds [10; 20; 40] 20 1 20); reflexivity.
Defined.

(** X3.  On a strictly ascending array the indirect search is monotone: a
    greater key never gets a smaller index. *)
Theorem findIndexOf_monotone (A : list Q) (k1 k2 : Q) :
  ascendingb A = true -> k1 <= k2 ->
  (findIndexOf A (Fin k1) true <= findIndexOf A (Fin k2) true)%Z.
Proof.
  intros Hs Hk. destruct A as [|a0 A'] eqn:EA; [reflexivity|]. rewrite <- EA in *.
  assert (Hne : A <> []) by (rewrite EA; discriminate).
  destruct (findIndexOf_indirect_spec A k1 Hs Hne) as (Hr1 & _ & Hor1).
  destruct (findIndexOf_indirect_spec A k2 Hs Hne) as (Hr2 & Hup2 & _).
  destruct (Z_le_gt_dec (findIndexOf A (Fin k1) true)
              (findIndexOf A (Fin k2) true)) as [|Hgt]; [assumption|exfalso].
  destruct Hor1 as [Hz|(x & Hx & Hxk)]; [lia|].
  assert (Hlt : (findIndexOf A (Fin k2) true < findIndexOf A (Fin k1) true)%Z)
    by lia.
  pose proof (Hup2 _ x Hlt Hx). lra.
Qed.

Lemma findIndexOf_monotone_witness :
  (findIndexOf [10; 20; 40]%Q (Fin 15) true
   <= findIndexOf [10; 20; 40]%Q (Fin 25) true)%Z.
Proof.
  apply (findIndexOf_monotone [10; 20; 40] 15 25);
    [reflexivity | unfold Qle; simpl; lia].
Defined.

(** ** Values and indices *)

(** The index [getIndexInArray] gives inside the bounds, with the floor
    position it is measured from. *)
Lemma getIndexInArray_inside (P : list Q) (v first lst : Q) :
  ascendingb P = true ->
  zget P 0 = Some first -> zget P (alength P - 1) = Some lst ->
  first <= v -> v <= lst ->
  exists (r : Z) (a q : Q),
    getIndexInArray P (Fin v) = Fin q
    /\ zget P r = Some a /\ a <= v
    /\ (forall j y, zget P j = Some y -> y <= v -> (j <= r)%Z)
    /\ ((a == v /\ q = inject_Z r)
        \/ exists b, zget P (r + 1) = Some b /\ a < v /\ v < b
                     /\ q = inject_Z r + (v - a) / (b - a)).
Proof.
  intros Hs H0 Hl Hf Hv.
  destruct (findIndexOf_indirect_spec P v Hs (zget_nonempty _ _ _ H0))
    as (_ & Hup & _).
  destruct (floor_position P v first lst Hs H0 Hl Hf Hv)
    as (r & a & Hr & Ha & Hav & Hcase).
  rewrite Hr in Hup.
  assert (Hgreatest : forall j y, zget P j = Some y -> y <= v -> (j <= r)%Z).
  { intros j y Hj Hy. destruct (Z_lt_le_dec r j) as [Hlt|]; [|assumption].
    pose proof (Hup j y Hlt Hj). lra. }
  unfold getIndexInArray. rewrite Hr, Ha. simpl vseq.
  destruct Hcase as [He|(b & Hb & Hlt & Hgt)].
  - exists r, a, (inject_Z r).
    assert (E : Qeq_bool a v = true) by now apply Qeq_bool_iff.
    rewrite E. repeat split; auto.
  - exists r, a, (inject_Z r + (v - a) / (b - a)).
    rewrite (Qeq_bool_lt a v Hlt), Hb. simpl.
    rewrite (Qeq_bool_gt (b - a) 0) by lra.
    repeat split; auto. right. exists b. auto.
Qed.

Lemma fraction_bounds (a b v : Q) :
  a < v -> v < b -> 0 < (v - a) / (b - a) /\ (v - a) / (b - a) < 1.
Proof.
  intros H1 H2. split; [apply Qlt_shift_div_l|apply Qlt_shift_div_r]; lra.
Qed.

(** Inside the bounds, the index grows with the value. *)
Lemma getIndexInArray_order (P : list Q) (v1 v2 first lst : Q) :
  ascendingb P = true ->
  zget P 0 = Some first -> zget P (alength P - 1) = Some lst ->
  first <= v1 -> v1 <= lst -> first <= v2 -> v2 <= lst ->
  exists q1 q2,
    getIndexInArray P (Fin v1) = Fin q1 /\ getIndexInArray P (Fin v2) = Fin q2
    /\ 0 <= q1 /\ q2 <= inject_Z (alength P - 1)
    /\ (v1 <= v2 -> q1 <= q2) /\ (v1 < v2 -> q1 < q2).
Proof.
  intros Hs H0 Hl Hf1 Hl1 Hf2 Hl2.
  destruct (getIndexInArray_inside P v1 first lst Hs H0 Hl Hf1 Hl1)
    as (r1 & a1 & q1 & E1 & Ha1 & Hle1 & Hg1 & C1).
  destruct (getIndexInArray_inside P v2 first lst Hs H0 Hl Hf2 Hl2)
    as (r2 & a2 & q2 & E2 & Ha2 & Hle2 & Hg2 & C2).
  exists q1, q2. split; [exact E1|]. split; [exact E2|].
  pose proof (zget_Some _ _ _ Ha1) as [Hr1 _].
  pose proof (zget_Some _ _ _ Ha2) as [Hr2 _].
  assert (Q1 : inject_Z r1 <= q1 /\ q1 < inject_Z r1 + 1).
  { destruct C1 as [[_ ->]|(b & _ & Hlt & Hgt & ->)]; [lra|].
    pose proof (fraction_bounds a1 b v1 Hlt Hgt). lra. }
  assert (Q2 : inject_Z r2 <= q2).
  { destruct C2 as [[_ ->]|(b & _ & Hlt & Hgt & ->)]; [lra|].
    pose proof (fraction_bounds a2 b v2 Hlt Hgt). lra. }
  assert (Z0 : 0 <= inject_Z r1).
  { change 0 with (inject_Z 0). rewrite <- Zle_Qle. lia. }
  split; [lra|]. split.
  { destruct C2 as [[_ ->]|(b & Hb & Hlt & Hgt & ->)].
    + rewrite <- Zle_Qle. lia.
    + pose proof (zget_Some _ _ _ Hb) as [Hrb _].
      pose proof (fraction_bounds a2 b v2 Hlt Hgt).
      assert (inject_Z (r2 + 1) <= inject_Z (alength P - 1))
        by (rewrite <- Zle_Qle; lia).
      rewrite inject_Z_plus in H1. change (inject_Z 1) with 1 in H1. lra. }
  assert (Hcmp : v1 <= v2 -> q1 <= q2 /\ (v1 < v2 -> q1 < q2)).
  { intros H12.
    assert (H12r : (r1 <= r2)%Z) by (apply (Hg2 r1 a1); [exact Ha1|lra]).
    destruct (Z.eq_dec r1 r2) as [Heq|Hne].
    + subst r2. rewrite Ha1 in Ha2. injection Ha2 as <-.
      destruct C1 as [[He1 ->]|(b1 & Hb1 & Hlt1 & Hgt1 & ->)].
      * destruct C2 as [[He2 ->]|(b2 & Hb2 & Hlt2 & Hgt2 & ->)].
        -- split; [lra|]. intros. lra.
        -- pose proof (fraction_bounds a1 b2 v2 Hlt2 Hgt2).
           split; [lra|]. intros. lra.
      * destruct C2 as [[He2 ->]|(b2 & Hb2 & Hlt2 & Hgt2 & ->)]; [lra|].
        rewrite Hb1 in Hb2. injection Hb2 as <-.
        split.
        -- assert ((v1 - a1) / (b1 - a1) <= (v2 - a1) / (b1 - a1)).
           { unfold Qdiv. apply Qmult_le_compat_r; [lra|].
             apply Qlt_le_weak. apply Qinv_lt_0_compat. lra. }
           lra.
        -- intros Hlt.
           assert ((v1 - a1) / (b1 - a1) < (v2 - a1) / (b1 - a1)).
           { unfold Qdiv. apply Qmult_lt_compat_r; [|lra].
             apply Qinv_lt_0_compat. lra. }
           lra.
    + assert (inject_Z (r1 + 1) <= inject_Z r2) by (rewrite <- Zle_Qle; lia).
      rewrite inject_Z_plus in H. change (inject_Z 1) with 1 in H.
      split; [lra|]. intros. lra. }
  split; [intro H; apply Hcmp; exact H|].
  intro H. apply Hcmp; [lra | exact H].
Qed.

(** X4.  Inside the bounds of strictly ascending visible positions,
    [val2lin(v, true)] never decreases when [v] grows, and its results lie
    between [0] and the last index, both included. *)
Theorem val2lin_monotone (o : Ordinal) (P : list Q) (v1 v2 first lst : Q) :
  positions o = Some P -> ascendingb P = true ->
  zget P 0 = Some first -> zget P (alength P - 1) = Some lst ->
  first <= v1 -> v1 <= v2 -> v2 <= lst ->
  exists q1 q2,
    val2lin o (Fin v1) true = Fin q1 /\ val2lin o (Fin v2) true = Fin q2
    /\ 0 <= q1 /\ q1 <= q2 /\ q2 <= inject_Z (alength P - 1).
Proof.
  intros HP Hs H0 Hl Hf H12 Hv.
  rewrite (val2lin_visible o P v1 first lst HP H0 Hl) by lra.
  rewrite (val2lin_visible o P v2 first lst HP H0 Hl) by lra.
  destruct (getIndexInArray_order P v1 v2 first lst Hs H0 Hl)
    as (q1 & q2 & E1 & E2 & B1 & B2 & Hle & _); try lra.
  exists q1, q2. rewrite E1, E2. repeat split; auto.
Qed.

Lemma val2lin_monotone_witness :
  exists q1 q2,
    val2lin sampleOrdinal (Fin 15) true = Fin q1
    /\ val2lin sampleOrdinal (Fin 25) true = Fin q2
    /\ 0 <= q1 /\ q1 <= q2 /\ q2 <= inject_Z (alength [10; 20; 40] - 1).
Proof.
  apply (val2lin_monotone sampleOrdinal [10; 20; 40] 15 25 10 40);
    try reflexivity; unfold Qle; simpl; lia.
Defined.

Lemma Qfloor_range (x : Q) (n : Z) :
  0 <= x -> x <= inject_Z n -> (0 <= Qfloor x <= n)%Z.
Proof.
  intros H0 Hn. split.
  - change 0%Z with (Qfloor 0). now apply Qfloor_resp_le.
  - rewrite <- (Qfloor_Z n). now apply Qfloor_resp_le.
Qed.

(** What [index2val] gives at a finite index within the array: the floor
    position, plus the fraction of the way to the next one. *)
Lemma index2val_inside (o : Ordinal) (P : list Q) (x : Q) :
  positions o = Some P ->
  0 <= x -> x <= inject_Z (alength P - 1) ->
  exists (i : Z) (a q : Q),
    index2val o (Fin x) = Some (Fin q)
    /\ i = Qfloor x /\ zget P i = Some a
    /\ inject_Z i <= x /\ x < inject_Z i + 1
    /\ ((x == inject_Z i /\ q == a)
        \/ (inject_Z i < x
            /\ exists b, zget P (i + 1) = Some b
                         /\ q == a + (x - inject_Z i) * (b - a))).
Proof.
  intros HP H0 Hl.
  pose proof (Qfloor_range x _ H0 Hl) as Hi.
  destruct (zget_in_range P (Qfloor x) ltac:(lia)) as [a Ha].
  pose proof (Qfloor_le x) as F1. pose proof (Qlt_floor x) as F2.
  rewrite inject_Z_plus in F2. change (inject_Z 1) with 1 in F2.
  destruct (index2val_split o P x (Qfloor x) a HP Ha F1 F2 Hl)
    as (q & Hq & Hx & Hb).
  exists (Qfloor x), a, q. repeat split; auto.
  destruct (Qeq_dec x (inject_Z (Qfloor x))) as [He|Hne].
  - left. split; [exact He|]. now apply Hx.
  - right. split.
    + destruct (Qlt_le_dec (inject_Z (Qfloor x)) x); [assumption|].
      exfalso. apply Hne. lra.
    + destruct (Z.eq_dec (Qfloor x) (alength P - 1)) as [E|E].
      * exfalso. apply Hne. rewrite E in *. lra.
      * destruct (zget_in_range P (Qfloor x + 1) ltac:(lia)) as [b Hb'].
        exists b. split; [exact Hb'|]. now apply Hb.
Qed.

(** X5.  When arithmetic is exact, the round trip from the index side
    gives the index back: for an index [x] between [0] and the last index of
    strictly ascending positions, [val2lin(index2val(x), true)] is [x]
    again.  (On doubles the interpolation rounds, and the result may differ
    from [x] in the last digits when [x] is not an integer.) *)
Theorem val2lin_index2val_roundtrip (o : Ordinal) (P : list Q) (x : Q) :
  positions o = Some P -> ascendingb P = true ->
  0 <= x -> x <= inject_Z (alength P - 1) ->
  exists v q,
    index2val o (Fin x) = Some (Fin v)
    /\ val2lin o (Fin v) true = Fin q /\ q == x.
Proof.
  intros HP Hs H0 Hl.
  destruct (index2val_inside o P x HP H0 Hl)
    as (i & a & v & Hv & _ & Ha & Hix & Hxi & Hcase).
  destruct (zget_first _ _ _ Ha) as [f Hf].
  destruct (zget_last _ _ _ Ha) as [l Hlast].
  pose proof (zget_Some _ _ _ Ha) as [Hr _].
  pose proof (ascendingb_le P 0 i f a Hs Hf Ha ltac:(lia)) as Hfa.
  pose proof (ascendingb_le P i (alength P - 1) a l Hs Ha Hlast ltac:(lia))
    as Hal.
  exists v. destruct Hcase as [[Hx Hq]|(Hlt & b & Hb & Hq)].
  - exists (inject_Z i). split; [exact Hv|]. split; [|lra].
    rewrite (val2lin_visible o P v f l HP Hf Hlast) by lra.
    unfold getIndexInArray.
    rewrite (findIndexOf_between P v i a Hs Ha) by
      (try lra; intros b Hb;
       pose proof (ascendingb_lt P i (i + 1) a b Hs Ha Hb ltac:(lia)); lra).
    rewrite Ha. simpl.
    assert (E : Qeq_bool a v = true) by (apply Qeq_bool_iff; lra).
    now rewrite E.
  - pose proof (zget_Some _ _ _ Hb) as [Hrb _].
    pose proof (ascendingb_lt P i (i + 1) a b Hs Ha Hb ltac:(lia)) as Hab.
    pose proof (ascendingb_le P (i + 1) (alength P - 1) b l Hs Hb Hlast
                  ltac:(lia)) as Hbl.
    set (d := x - inject_Z i) in *.
    assert (Hd : 0 < d /\ d < 1) by (unfold d; lra).
    assert (Hdb : 0 < d * (b - a)) by (apply Qmult_lt_0_compat; lra).
    assert (Hdb1 : d * (b - a) < 1 * (b - a))
      by (apply Qmult_lt_compat_r; lra).
    exists (inject_Z i + (v - a) / (b - a)). split; [exact Hv|]. split.
    + rewrite (val2lin_visible o P v f l HP Hf Hlast) by lra.
      apply getIndexInArray_interpolate; auto; lra.
    + assert ((v - a) / (b - a) == d) by (rewrite Hq; field; lra).
      unfold d in *. lra.
Qed.

Lemma val2lin_index2val_roundtrip_witness :
  exists v q,
    index2val sampleOrdinal (Fin (3 # 2)) = Some (Fin v)
    /\ val2lin sampleOrdinal (Fin v) true = Fin q /\ q == 3 # 2.
Proof.
  apply (val2lin_index2val_roundtrip sampleOrdinal [10; 20; 40] (3 # 2));
    try reflexivity; unfold Qle; simpl; lia.
Defined.

Lemma nlt_Fin_true (x y : Q) : x < y -> nlt (Fin x) (Fin y) = true.
Proof. intros H. rewrite nlt_Fin. now rewrite Qle_bool_gt. Qed.

Lemma nlt_Fin_false (x y : Q) : y <= x -> nlt (Fin x) (Fin y) = false.
Proof. intros H. rewrite nlt_Fin. now rewrite Qle_bool_true. Qed.

Lemma interpolation_between (a b d : Q) :
  a < b -> 0 <= d -> d < 1 ->
  a <= a + d * (b - a) /\ a + d * (b - a) < b.
Proof.
  intros Hab H0 H1.
  assert (0 <= d * (b - a)) by (apply Qmult_le_0_compat; lra).
  assert (d * (b - a) < 1 * (b - a)) by (apply Qmult_lt_compat_r; lra).
  split; lra.
Qed.

Lemma index2val_below (o : Ordinal) (P : list Q) (first : Q) (x : num) :
  positions o = Some P -> zget P 0 = Some first ->
  nlt x (Fin 0) = true -> index2val o x = Some (Fin first).
Proof.
  intros HP Hf Hx. unfold index2val. rewrite HP, Hx, Hf. reflexivity.
Qed.

Lemma index2val_above (o : Ordinal) (P : list Q) (first lst : Q) (x : num) :
  positions o = Some P ->
  zget P 0 = Some first -> zget P (alength P - 1) = Some lst ->
  ngt x (ofZ (alength P - 1)) = true -> index2val o x = Some (Fin lst).
Proof.
  intros HP Hf Hl Hx.
  pose proof (zget_Some _ _ _ Hf) as [Hr0 _].
  assert (Hlast0 : 0 <= inject_Z (alength P - 1)).
  { change 0 with (inject_Z 0). rewrite <- Zle_Qle. lia. }
  unfold index2val. rewrite HP. unfold lastIndex.
  rewrite Hx, Hl. destruct (nlt x (Fin 0)) eqn:E; [|reflexivity].
  exfalso. destruct x as [x| | |]; try discriminate.
  unfold ngt, ofZ in Hx. rewrite nlt_Fin in Hx, E.
  apply negb_true_iff in Hx, E.
  apply Qle_bool_false in Hx, E. lra.
Qed.

(** Between [0] and the last index the value lies between the floor
    position and the last position. *)
Lemma index2val_between (o : Ordinal) (P : list Q) (first lst x : Q) :
  positions o = Some P -> ascendingb P = true ->
  zget P 0 = Some first -> zget P (alength P - 1) = Some lst ->
  0 <= x -> x <= inject_Z (alength P - 1) ->
  exists i a q, index2val o (Fin x) = Some (Fin q)
    /\ zget P i = Some a
    /\ inject_Z i <= x
    /\ (x == inject_Z i -> q == a)
    /\ first <= q /\ q <= lst.
Proof.
  intros HP Hs Hf Hl H0 Hx.
  destruct (index2val_inside o P x HP H0 Hx)
    as (i & a & q & Hq & _ & Ha & Hix & Hxi & Hcase).
  pose proof (zget_Some _ _ _ Ha) as [Hr _].
  pose proof (ascendingb_le P 0 i first a Hs Hf Ha ltac:(lia)) as Hfa.
  pose proof (ascendingb_le P i (alength P - 1) a lst Hs Ha Hl ltac:(lia))
    as Hal.
  exists i, a, q. split; [exact Hq|]. split; [exact Ha|]. split; [exact Hix|].
  destruct Hcase as [[He Hqa]|(Hlt & b & Hb & Hqb)].
  - split; [auto|]. lra.
  - pose proof (zget_Some _ _ _ Hb) as [Hrb _].
    pose proof (ascendingb_lt P i (i + 1) a b Hs Ha Hb ltac:(lia)) as Hab.
    pose proof (ascendingb_le P (i + 1) (alength P - 1) b lst Hs Hb Hl
                  ltac:(lia)) as Hbl.
    pose proof (interpolation_between a b (x - inject_Z i) Hab
                  ltac:(lra) ltac:(lra)) as [I1 I2].
    split; [intros; lra|]. lra.
Qed.

Lemma index2val_range (o : Ordinal) (P : list Q) (first lst x : Q) :
  positions o = Some P -> ascendingb P = true ->
  zget P 0 = Some first -> zget P (alength P - 1) = Some lst ->
  exists q, index2val o (Fin x) = Some (Fin q) /\ first <= q /\ q <= lst.
Proof.
  intros HP Hs Hf Hl.
  pose proof (zget_Some _ _ _ Hf) as [Hr0 _].
  assert (Hfl : first <= lst)
    by (apply (ascendingb_le P 0 (alength P - 1)); auto; lia).
  destruct (Qlt_le_dec x 0) as [Hx|Hx].
  - exists first.
    rewrite (index2val_below o P first (Fin x) HP Hf (nlt_Fin_true _ _ Hx)).
    repeat split; lra.
  - destruct (Qlt_le_dec (inject_Z (alength P - 1)) x) as [Hx'|Hx'].
    + exists lst.
      rewrite (index2val_above o P first lst (Fin x) HP Hf Hl)
        by (apply nlt_Fin_true; exact Hx').
      repeat split; lra.
    + destruct (index2val_between o P first lst x HP Hs Hf Hl Hx Hx')
        as (i & a & q & Hq & _ & _ & _ & B1 & B2).
      exists q. auto.
Qed.

(** X6.  [index2val] clamps: a negative index gives the first position, an
    index above the last one gives the last position, an integer index gives
    the position at that index, and every finite index gives a value between
    the first and the last position. *)
Theorem index2val_within_positions (o : Ordinal) (P : list Q) (first lst : Q) :
  positions o = Some P -> ascendingb P = true ->
  zget P 0 = Some first -> zget P (alength P - 1) = Some lst ->
  (forall x, nlt x (Fin 0) = true -> index2val o x = Some (Fin first))
  /\ (forall x, ngt x (ofZ (alength P - 1)) = true ->
                index2val o x = Some (Fin lst))
  /\ (forall i a, zget P i = Some a ->
                  exists q, index2val o (ofZ i) = Some (Fin q) /\ q == a)
  /\ (forall x : Q, exists q, index2val o (Fin x) = Some (Fin q)
                              /\ first <= q /\ q <= lst).
Proof.
  intros HP Hs Hf Hl.
  split; [intros x; now apply (index2val_below o P)|].
  split; [intros x; now apply (index2val_above o P first)|].
  split.
  - intros i a Ha. pose proof (zget_Some _ _ _ Ha) as [Hr _].
    destruct (index2val_split o P (inject_Z i) i a HP Ha) as
      (q & Hq & Hx & _); try lra.
    { rewrite <- Zle_Qle. lia. }
    exists q. split; [exact Hq|]. apply Hx. reflexivity.
  - intros x. now apply (index2val_range o P first lst x).
Qed.

Lemma index2val_within_positions_witness :
  index2val sampleOrdinal (Fin (-1)) = Some (Fin 10)
  /\ index2val sampleOrdinal (Fin 7) = Some (Fin 40)
  /\ exists q, index2val sampleOrdinal (Fin (1 # 2)) = Some (Fin q)
               /\ 10 <= q /\ q <= 40.
Proof.
  destruct (index2val_within_positions sampleOrdinal [10; 20; 40] 10 40
              eq_refl eq_refl eq_refl eq_refl) as (Hlow & Hhigh & _ & Hin).
  split; [apply Hlow; reflexivity|].
  split; [apply Hhigh; reflexivity|].
  apply Hin.
Defined.

(** X7.  On strictly ascending non-empty positions [index2val] is
    monotone: a greater index never gives a smaller value. *)
Theorem index2val_monotone (o : Ordinal) (P : list Q) (x1 x2 : Q) :
  positions o = Some P -> ascendingb P = true -> P <> [] ->
  x1 <= x2 ->
  exists q1 q2,
    index2val o (Fin x1) = Some (Fin q1)
    /\ index2val o (Fin x2) = Some (Fin q2) /\ q1 <= q2.
Proof.
  intros HP Hs Hne H12.
  assert (Hlen : (0 < alength P)%Z).
  { unfold alength. destruct P; [congruence|simpl; lia]. }
  destruct (zget_in_range P 0 ltac:(lia)) as [first Hf].
  destruct (zget_in_range P (alength P - 1) ltac:(lia)) as [lst Hl].
  pose proof (fun x => index2val_below o P first x HP Hf) as Hneg.
  pose proof (fun x => index2val_above o P first lst x HP Hf Hl) as Hbig.
  destruct (index2val_range o P first lst x1 HP Hs Hf Hl) as (q1 & E1 & L1 & U1).
  destruct (index2val_range o P first lst x2 HP Hs Hf Hl) as (q2 & E2 & L2 & U2).
  exists q1, q2. split; [exact E1|]. split; [exact E2|].
  destruct (Qlt_le_dec x1 0) as [Hx1|Hx1].
  { rewrite (Hneg (Fin x1) (nlt_Fin_true _ _ Hx1)) in E1.
    injection E1 as <-. exact L2. }
  destruct (Qlt_le_dec (inject_Z (alength P - 1)) x2) as [Hx2|Hx2].
  { rewrite (Hbig (Fin x2)) in E2 by (apply nlt_Fin_true; exact Hx2).
    injection E2 as <-. exact U1. }
  destruct (index2val_inside o P x1 HP Hx1 ltac:(lra))
    as (i1 & a1 & q1' & E1' & Hi1 & Ha1 & Hix1 & Hxi1 & C1).
  destruct (index2val_inside o P x2 HP ltac:(lra) Hx2)
    as (i2 & a2 & q2' & E2' & Hi2 & Ha2 & Hix2 & Hxi2 & C2).
  rewrite E1 in E1'. injection E1' as <-.
  rewrite E2 in E2'. injection E2' as <-.
  pose proof (zget_Some _ _ _ Ha1) as [Hr1 _].
  pose proof (zget_Some _ _ _ Ha2) as [Hr2 _].
  assert (Hi12 : (i1 <= i2)%Z).
  { subst i1 i2. now apply Qfloor_resp_le. }
  (* each value lies between its floor position and the next one *)
  assert (B1 : forall b, zget P (i1 + 1) = Some b -> q1 <= b).
  { intros b Hb.
    pose proof (ascendingb_lt P i1 (i1 + 1) a1 b Hs Ha1 Hb ltac:(lia)) as Hab.
    destruct C1 as [[_ Hq]|(Hlt & b' & Hb' & Hq)]; [lra|].
    rewrite Hb in Hb'. injection Hb' as <-.
    pose proof (interpolation_between a1 b (x1 - inject_Z i1) Hab
                  ltac:(lra) ltac:(lra)). lra. }
  assert (B2 : a2 <= q2).
  { destruct C2 as [[_ Hq]|(Hlt & b & Hb & Hq)]; [lra|].
    pose proof (ascendingb_lt P i2 (i2 + 1) a2 b Hs Ha2 Hb ltac:(lia)) as Hab.
    pose proof (interpolation_between a2 b (x2 - inject_Z i2) Hab
                  ltac:(lra) ltac:(lra)). lra. }
  destruct (Z.eq_dec i1 i2) as [Heq|Hneq].
  - rewrite <- Heq in *. rewrite Ha1 in Ha2. injection Ha2 as <-.
    destruct C1 as [[_ Hq1]|(Hlt1 & b1 & Hb1 & Hq1)]; [lra|].
    destruct C2 as [[He2 _]|(Hlt2 & b2 & Hb2 & Hq2)]; [lra|].
    rewrite Hb1 in Hb2. injection Hb2 as <-.
    pose proof (ascendingb_lt P i1 (i1 + 1) a1 b1 Hs Ha1 Hb1 ltac:(lia)) as Hab.
    assert ((x1 - inject_Z i1) * (b1 - a1) <= (x2 - inject_Z i1) * (b1 - a1))
      by (apply Qmult_le_compat_r; lra).
    lra.
  - destruct (zget_in_range P (i1 + 1) ltac:(lia)) as [b Hb].
    pose proof (B1 b Hb).
    pose proof (ascendingb_le P (i1 + 1) i2 b a2 Hs Hb Ha2 ltac:(lia)). lra.
Qed.

Lemma index2val_monotone_witness :
  exists q1 q2,
    index2val sampleOrdinal (Fin (1 # 2)) = Some (Fin q1)
    /\ index2val sampleOrdinal (Fin (3 # 2)) = Some (Fin q2) /\ q1 <= q2.
Proof.
  apply (index2val_monotone sampleOrdinal [10; 20; 40] (1 # 2) (3 # 2));
    try reflexivity; [discriminate | unfold Qle; simpl; lia].
Defined.

(** [getIndexInArray] at a position of the array, given up to equality of
    numbers. *)
Lemma getIndexInArray_at (A : list Q) (i : Z) (a v : Q) :
  ascendingb A = true -> zget A i = Some a -> a == v ->
  getIndexInArray A (Fin v) = ofZ i.
Proof.
  intros Hs Hi Hv. unfold getIndexInArray.
  rewrite (findIndexOf_between A v i a Hs Hi) by
    (try lra; intros b Hb;
     pose proof (ascendingb_lt A i (i + 1) a b Hs Hi Hb ltac:(lia)); lra).
  rewrite Hi. simpl.
  assert (E : Qeq_bool a v = true) by now apply Qeq_bool_iff.
  now rewrite E.
Qed.

(** X25.  At an index [i] of strictly ascending positions the round trip is
    exact: [index2val(i)] is the position [P[i]] itself, with nothing
    added, and [val2lin] of it with [toIndex] is [i]. *)
Theorem val2lin_index2val_at_index (o : Ordinal) (P : list Q) (i : Z) (a : Q) :
  positions o = Some P -> ascendingb P = true -> zget P i = Some a ->
  exists v,
    index2val o (ofZ i) = Some (Fin v) /\ v == a
    /\ val2lin o (Fin v) true = ofZ i.
Proof.
  intros HP Hs Ha.
  pose proof (zget_Some _ _ _ Ha) as [Hr _].
  assert (Hlast : inject_Z i <= inject_Z (alength P - 1))
    by (rewrite <- Zle_Qle; lia).
  destruct (index2val_split o P (inject_Z i) i a HP Ha) as (v & Hv & Hx & _);
    try lra.
  pose proof (Hx ltac:(reflexivity)) as Eva.
  destruct (zget_first _ _ _ Ha) as [f Hf].
  destruct (zget_last _ _ _ Ha) as [l Hl].
  pose proof (ascendingb_le P 0 i f a Hs Hf Ha ltac:(lia)) as Hfa.
  pose proof (ascendingb_le P i (alength P - 1) a l Hs Ha Hl ltac:(lia))
    as Hal.
  exists v. split; [exact Hv|]. split; [exact Eva|].
  rewrite (val2lin_visible o P v f l HP Hf Hl) by lra.
  apply (getIndexInArray_at P i a v Hs Ha). lra.
Qed.

Lemma val2lin_index2val_at_index_witness :
  exists v,
    index2val sampleOrdinal (ofZ 1) = Some (Fin v) /\ v == 20
    /\ val2lin sampleOrdinal (Fin v) true = ofZ 1.
Proof.
  apply (val2lin_index2val_at_index sampleOrdinal [10; 20; 40] 1 20);
    reflexivity.
Defined.

Lemma nle_Fin_true (x y : Q) : x <= y -> nle (Fin x) (Fin y) = true.
Proof. apply Qle_bool_true. Qed.

(** X8.  A value outside the visible positions that is the extended
    position of index [k] gets the index [k - r], where [r] is the index of
    the first visible position among the extended ones: indices are counted
    from the first visible position, and are negative to its left. *)
Theorem val2lin_extended_index (o : Ordinal) (P E : list Q)
  (p0 e v : Q) (r k : Z) :
  positions o = Some P -> getExtendedPositions o = Some (Some E) ->
  ascendingb E = true ->
  zget P 0 = Some p0 -> zget E r = Some e -> e == p0 ->
  zget E k = Some v -> insideBounds P (Fin v) = false ->
  val2lin o (Fin v) true = Fin (inject_Z k - inject_Z r).
Proof.
  intros HP HE Hs H0 Hr Hrp Hk Hout.
  destruct (zget_first _ _ _ Hk) as [f Hf].
  destruct (zget_last _ _ _ Hk) as [l Hl].
  pose proof (zget_Some _ _ _ Hk) as [Hkr _].
  pose proof (ascendingb_le E 0 k f v Hs Hf Hk ltac:(lia)) as Hfv.
  pose proof (ascendingb_le E k (alength E - 1) v l Hs Hk Hl ltac:(lia)) as Hvl.
  unfold val2lin. rewrite HP, HE. unfold insideBounds in Hout.
  unfold nge. rewrite Hout.
  destruct E as [|e0 E'];
    [exfalso; exact (zget_nonempty _ _ _ Hk eq_refl)|].
  cbv beta iota zeta. rewrite Hf, Hl, H0. cbn [toNum].
  rewrite (nle_Fin_true f v Hfv), (nle_Fin_true v l Hvl). cbn [andb].
  rewrite (getIndexInArray_at _ k v v Hs Hk (Qeq_refl v)).
  rewrite (getIndexInArray_at _ r e p0 Hs Hr Hrp). reflexivity.
Qed.

Lemma val2lin_extended_index_witness :
  val2lin sampleOrdinalExtended (Fin 30) true = Fin (inject_Z 3 - inject_Z 1)
  /\ val2lin sampleOrdinalExtended (Fin 0) true
     = Fin (inject_Z 0 - inject_Z 1).
Proof.
  split.
  - apply (val2lin_extended_index sampleOrdinalExtended [10; 20]
             [0; 10; 20; 30] 10 10 30 1 3); reflexivity.
  - apply (val2lin_extended_index sampleOrdinalExtended [10; 20]
             [0; 10; 20; 30] 10 10 0 1 0); reflexivity.
Defined.

(** X9.  Outside the extended positions, with a positive slope [s],
    [val2lin(v, true)] extrapolates by [distance / s]: a value below the first
    extended position gets [- r - (first - v) / s], which is not above the
    index [0 - r] of the first extended position, and a value above the last
    one gets [(v - last) / s + length - r], which is at least one above the
    index of the last extended position. *)
Theorem val2lin_extrapolates (o : Ordinal) (P E : list Q)
  (p0 e first lst v s : Q) (r : Z) :
  positions o = Some P -> getExtendedPositions o = Some (Some E) ->
  ascendingb E = true ->
  zget P 0 = Some p0 -> zget E r = Some e -> e == p0 ->
  zget E 0 = Some first -> zget E (alength E - 1) = Some lst ->
  slope o = Some (Fin s) -> 0 < s ->
  insideBounds P (Fin v) = false ->
  (v < first ->
   val2lin o (Fin v) true
   = Fin (- inject_Z r - (first - v) / s)
   /\ - inject_Z r - (first - v) / s <= inject_Z 0 - inject_Z r)
  /\ (lst < v ->
      val2lin o (Fin v) true
      = Fin ((v - lst) / s + inject_Z (alength E) - inject_Z r)
      /\ inject_Z (alength E - 1) - inject_Z r + 1
         <= (v - lst) / s + inject_Z (alength E) - inject_Z r).
Proof.
  intros HP HE Hs H0 Hr Hrp Hf Hl Hslope Hspos Hout.
  assert (Hcommon :
    nle (Fin first) (Fin v) && nle (Fin v) (Fin lst) = false ->
    val2lin o (Fin v) true
    = if nlt (Fin v) (Fin first)
      then nsub (nneg (ofZ r)) (ndiv (nsub (Fin first) (Fin v)) (Fin s))
      else nsub (nadd (ndiv (nsub (Fin v) (Fin lst)) (Fin s))
                      (ofZ (alength E)))
                (ofZ r)).
  { intros Hno. unfold val2lin. rewrite HP, HE. unfold insideBounds in Hout.
    unfold nge. rewrite Hout.
    destruct E as [|e0 E'];
      [exfalso; exact (zget_nonempty _ _ _ Hr eq_refl)|].
    cbv beta iota zeta. rewrite Hf, Hl, H0, Hslope. cbn [toNum].
    rewrite Hno. cbn [negb].
    assert (T : vtruthy (Some (Fin s)) = true).
    { simpl. now rewrite (Qeq_bool_gt s 0 Hspos). }
    rewrite T. cbn [negb ofValue].
    rewrite (getIndexInArray_at _ r e p0 Hs Hr Hrp). reflexivity. }
  assert (Hs0 : Qeq_bool s 0 = false) by now apply Qeq_bool_gt.
  split; intros Hv.
  - rewrite Hcommon.
    + rewrite (nlt_Fin_true v first Hv). simpl. rewrite Hs0.
      split; [reflexivity|].
      assert (0 < (first - v) / s) by (apply Qlt_shift_div_l; lra).
      change (inject_Z 0) with 0. lra.
    + simpl. rewrite (Qle_bool_gt first v Hv). reflexivity.
  - rewrite Hcommon.
    + assert (Hfl : first <= lst).
      { pose proof (zget_Some _ _ _ Hf) as [Hr0 _].
        apply (ascendingb_le E 0 (alength E - 1)); auto. lia. }
      rewrite (nlt_Fin_false v first) by lra. simpl. rewrite Hs0.
      split; [reflexivity|].
      assert (0 < (v - lst) / s) by (apply Qlt_shift_div_l; lra).
      assert (inject_Z (alength E - 1) == inject_Z (alength E) - 1)
        by (unfold Z.sub; rewrite inject_Z_plus, inject_Z_opp; reflexivity).
      lra.
    + simpl. rewrite (Qle_bool_gt v lst Hv). apply andb_false_r.
Qed.

Lemma val2lin_extrapolates_witness :
  val2lin sampleOrdinalSloped (Fin (-10)) true
  = Fin (- inject_Z 1 - (0 - -10) / 10)
  /\ val2lin sampleOrdinalSloped (Fin 50) true
     = Fin ((50 - 30) / 10 + inject_Z (alength [0; 10; 20; 30]) - inject_Z 1).
Proof.
  split.
  - apply (proj1 (val2lin_extrapolates sampleOrdinalSloped [10; 20]
                    [0; 10; 20; 30] 10 10 0 30 (-10) 10 1
                    eq_refl eq_refl eq_refl eq_refl eq_refl
                    ltac:(reflexivity) eq_refl eq_refl eq_refl
                    ltac:(reflexivity) eq_refl)).
    reflexivity.
  - apply (proj2 (val2lin_extrapolates sampleOrdinalSloped [10; 20]
                    [0; 10; 20; 30] 10 10 0 30 50 10 1
                    eq_refl eq_refl eq_refl eq_refl eq_refl
                    ltac:(reflexivity) eq_refl eq_refl eq_refl
                    ltac:(reflexivity) eq_refl)).
    reflexivity.
Defined.

(** ** The ticks of the segments *)

(** *** Strictly ascending lists, by structure *)

Lemma ascendingb_cons (x : Q) (l : list Q) :
  ascendingb (x :: l) = true
  <-> ascendingb l = true /\ (forall y, In y l -> x < y).
Proof.
  revert x. induction l as [|z l IH]; intros x.
  - simpl. split; [intros _; split; [reflexivity|intros y []]|reflexivity].
  - change (ascendingb (x :: z :: l))
      with (negb (Qle_bool z x) && ascendingb (z :: l)).
    rewrite andb_true_iff, negb_true_iff. split.
    + intros [Hzx Hs]. split; [exact Hs|].
      apply Qle_bool_false in Hzx.
      intros y [<-|Hy]; [exact Hzx|].
      apply (proj1 (IH z)) in Hs. destruct Hs as [_ Hall].
      pose proof (Hall y Hy). lra.
    + intros [Hs Hall]. split; [|exact Hs].
      apply Qle_bool_gt. apply Hall. now left.
Qed.

Lemma ascendingb_app (l1 l2 : list Q) :
  ascendingb l1 = true -> ascendingb l2 = true ->
  (forall x y, In x l1 -> In y l2 -> x < y) ->
  ascendingb (l1 ++ l2) = true.
Proof.
  induction l1 as [|a l1 IH]; intros H1 H2 H12; [exact H2|].
  rewrite <- app_comm_cons. apply ascendingb_cons.
  apply ascendingb_cons in H1. destruct H1 as [H1 Ha]. split.
  - apply IH; auto. intros x y Hx Hy. apply H12; [now right|exact Hy].
  - intros y Hy. apply in_app_or in Hy. destruct Hy as [Hy|Hy]; [auto|].
    apply H12; [now left|exact Hy].
Qed.

Lemma dropLeading_ascending (a : Q) (l : list Q) :
  ascendingb l = true -> ascendingb (dropLeading a l) = true.
Proof.
  induction l as [|x l IH]; intros H; [reflexivity|].
  simpl. destruct (Qle_bool x a); [|exact H].
  apply IH. apply ascendingb_cons in H. tauto.
Qed.

Lemma dropLeading_above (a : Q) (l : list Q) :
  ascendingb l = true -> forall y, In y (dropLeading a l) -> a < y.
Proof.
  induction l as [|x l IH]; intros H y Hy; [destruct Hy|].
  simpl in Hy. destruct (Qle_bool x a) eqn:E.
  - apply IH; [|exact Hy]. apply ascendingb_cons in H. tauto.
  - apply Qle_bool_false in E. destruct Hy as [<-|Hy]; [exact E|].
    apply ascendingb_cons in H. destruct H as [_ Hall].
    pose proof (Hall y Hy). lra.
Qed.

Lemma last_ascending_max (l : list Q) (d : Q) :
  ascendingb l = true -> forall y, In y l -> y <= List.last l d.
Proof.
  induction l as [|x l IH]; intros H y Hy; [destruct Hy|].
  apply ascendingb_cons in H. destruct H as [Hs Hall].
  destruct l as [|z l].
  - destruct Hy as [<-|[]]. simpl. lra.
  - change (List.last (x :: z :: l) d) with (List.last (z :: l) d).
    destruct Hy as [<-|Hy]; [|now apply IH].
    assert (Hz : x < z) by (apply Hall; now left).
    pose proof (IH Hs z ltac:(now left)). lra.
Qed.

Section TicksAscending.

Variable timeTicks : option num -> option num -> list Q.
Variable pos : list Q.
Variable min max cd : num.

Hypothesis timeTicks_ascending :
  forall lo hi, ascendingb (timeTicks lo hi) = true.

Lemma closeSegment_ticksInvariant (e s : Z) (st : SegState) :
  ticksInvariant st -> ticksInvariant (closeSegment timeTicks pos e s st).
Proof.
  intros [Ha Hle]. unfold closeSegment.
  destruct (ngt _ _); [|split; assumption].
  set (seg := dropLeading _ _).
  assert (Hseg : ascendingb seg = true)
    by (apply dropLeading_ascending, timeTicks_ascending).
  assert (Habove : forall y, In y seg -> st_lastGroupPosition st < y)
    by (apply dropLeading_above, timeTicks_ascending).
  split; simpl.
  - apply ascendingb_app; auto.
    intros x y Hx Hy. pose proof (Hle x Hx). pose proof (Habove y Hy). lra.
  - intros x Hx. apply in_app_or in Hx. destruct Hx as [Hx|Hx].
    + pose proof (Hle x Hx).
      destruct (last_In_or_default seg (st_lastGroupPosition st)) as [->|Hin];
        [assumption|].
      pose proof (Habove _ Hin). lra.
    + now apply last_ascending_max.
Qed.

Lemma segmentLoop_ticksInvariant (turns : nat) :
  forall (end_ : Z) (st : SegState),
    ticksInvariant st ->
    ticksInvariant (segmentLoop timeTicks pos min max cd turns end_ st).
Proof.
  induction turns as [|turns IH]; intros end_ st Hinv; [exact Hinv|].
  cbn [segmentLoop].
  set (st1 := if segmentEnds pos max cd end_ then _ else _).
  assert (H1 : ticksInvariant st1).
  { subst st1. destruct (segmentEnds pos max cd end_).
    - now apply closeSegment_ticksInvariant.
    - exact Hinv. }
  destruct (outsideMax pos max end_); [exact H1|]. now apply IH.
Qed.

End TicksAscending.

(** X10.  When the tick generator gives strictly ascending ticks, so does
    [getTimeTicks]: joining the ticks of the segments never repeats a tick
    and never steps back. *)
Theorem getTimeTicks_ascending
  (timeTicks : option num -> option num -> list Q)
  (ordinalOn breaksOn : bool) (min : option num) (max : num)
  (positions : option (list Q)) (closestDistance : option num) :
  (forall lo hi, ascendingb (timeTicks lo hi) = true) ->
  ascendingb (ticks (getTimeTicks timeTicks ordinalOn breaksOn min max
                       positions closestDistance)) = true.
Proof.
  intros Hgen. unfold getTimeTicks.
  destruct min as [min'|]; [|apply Hgen].
  destruct (_ || _); [apply Hgen|].
  set (st := segmentScan _ _ _ _ _).
  assert (Hinv : ticksInvariant st).
  { apply segmentLoop_ticksInvariant; [exact Hgen|].
    split; [reflexivity|intros x []]. }
  destruct (st_segmentPositions st); apply Hinv.
Qed.

Lemma getTimeTicks_ascending_witness :
  ascendingb (ticks (getTimeTicks boundTicks true false (Some (Fin 0))
                       (Fin 20) (Some examplePositions) (Some (Fin 1))))
  = true.
Proof.
  apply (getTimeTicks_ascending boundTicks).
  intros [[a| | |]|] [[b| | |]|]; try reflexivity.
  simpl. destruct (Qle_bool b a) eqn:E; [reflexivity|].
  simpl. rewrite E. reflexivity.
Defined.

Section FirstRequest.

Variable timeTicks : option num -> option num -> list Q.
Variable pos : list Q.
Variable min max cd : num.

Hypothesis pos_above : aboveLowest pos = true.

Lemma closeSegment_requested (e s : Z) (st : SegState) :
  (0 <= e < alength pos)%Z ->
  untouched st \/ ticksRequested st ->
  ticksRequested (closeSegment timeTicks pos e s st).
Proof.
  intros He [(Hlast & Hss & Hgp)|(Hsp & rest & Hss)]; unfold closeSegment.
  - destruct (zget_in_range pos e He) as [x Hx]. rewrite Hx, Hlast.
    assert (Hab : ngt (toNum (Some x)) (Fin (- MAX_VALUE)) = true).
    { unfold aboveLowest in pos_above. rewrite forallb_forall in pos_above.
      apply zget_Some in Hx. destruct Hx as [_ Hx]. apply nth_error_In in Hx.
      exact (pos_above x Hx). }
    rewrite Hab. split; simpl; [discriminate|].
    rewrite Hss, Hgp. exists []. reflexivity.
  - destruct (ngt _ _); split; simpl; auto.
    + discriminate.
    + rewrite Hss. eexists. reflexivity.
    + exists rest. exact Hss.
Qed.

Lemma segmentLoop_requested (turns : nat) :
  forall (end_ : Z) (st : SegState),
    (0 <= end_)%Z -> (end_ + Z.of_nat turns = alength pos)%Z ->
    (turns <> 0%nat /\ untouched st) \/ ticksRequested st ->
    ticksRequested (segmentLoop timeTicks pos min max cd turns end_ st).
Proof.
  induction turns as [|turns IH]; intros end_ st H0 Hlen Hst.
  - destruct Hst as [[Hne _]|Hst]; [congruence|exact Hst].
  - cbn [segmentLoop].
    set (start := if nlt _ min then end_ else st_start st).
    set (st1 := if segmentEnds pos max cd end_ then _ else _).
    assert (Hst' : untouched st \/ ticksRequested st) by tauto.
    destruct (segmentEnds pos max cd end_) eqn:Ese.
    + assert (H1 : ticksRequested st1)
        by (subst st1; apply closeSegment_requested; [lia|exact Hst']).
      destruct (outsideMax pos max end_); [exact H1|].
      apply IH; [lia|lia|now right].
    + assert (Hom : outsideMax pos max end_ = false).
      { destruct (outsideMax pos max end_) eqn:Eo; [|reflexivity].
        rewrite (outsideMax_segmentEnds pos max cd end_ Eo) in Ese.
        discriminate. }
      rewrite Hom.
      assert (Hnl : turns <> 0%nat).
      { intros ->. unfold segmentEnds in Ese.
        replace (end_ =? alength pos - 1)%Z with true in Ese
          by (symmetry; apply Z.eqb_eq; lia).
        discriminate. }
      apply IH; [lia|lia|]. subst st1.
      destruct Hst' as [Hu|Hr]; [left|right].
      * split; [exact Hnl|exact Hu].
      * exact Hr.
Qed.

End FirstRequest.

(** X11.  When every position is above [-Number.MAX_VALUE], error 12 is
    never signalled; and when the positions are scanned (a known minimum, the
    ordinal or the breaks option, at least three positions), the first
    segment starts at tick 0. *)
Theorem getTimeTicks_no_error
  (timeTicks : option num -> option num -> list Q)
  (ordinalOn breaksOn : bool) (min : option num) (max : num)
  (positions : option (list Q)) (closestDistance : option num) :
  aboveLowest (pick positions []) = true ->
  let result := getTimeTicks timeTicks ordinalOn breaksOn min max
                  positions closestDistance in
  error12 result = false
  /\ (min <> None -> (ordinalOn || breaksOn) = true ->
      (3 <= alength (pick positions []))%Z ->
      exists rest, info_segmentStarts result = Some (0%Z :: rest)).
Proof.
  intros Hab. cbv zeta. unfold getTimeTicks.
  destruct min as [min'|]; [|split; [reflexivity|congruence]].
  destruct (alength (pick positions []) <? 3)%Z eqn:Elen.
  { rewrite orb_true_r. split; [reflexivity|].
    intros _ _ H. apply Z.ltb_lt in Elen. lia. }
  apply Z.ltb_ge in Elen.
  set (st := segmentScan _ _ _ _ _).
  assert (Hreq : ticksRequested st).
  { apply segmentLoop_requested; [exact Hab|lia|unfold alength; lia|].
    left. split; [|repeat split].
    unfold alength in Elen. lia. }
  destruct Hreq as [Hsp (rest & Hss)].
  destruct (negb ordinalOn && negb breaksOn) eqn:Eopt; simpl.
  - split; [reflexivity|]. intros _ Hopt.
    destruct ordinalOn, breaksOn; discriminate.
  - destruct (st_segmentPositions st); [|congruence].
    split; [reflexivity|]. intros _ _ _. exists rest. simpl. now rewrite Hss.
Qed.

Lemma getTimeTicks_no_error_witness :
  error12 (getTimeTicks sampleTicks true false (Some (Fin 0)) (Fin 20)
             (Some examplePositions) (Some (Fin 1))) = false
  /\ exists rest,
       info_segmentStarts
         (getTimeTicks sampleTicks true false (Some (Fin 0)) (Fin 20)
            (Some examplePositions) (Some (Fin 1)))
       = Some (0%Z :: rest).
Proof.
  destruct (getTimeTicks_no_error sampleTicks true false (Some (Fin 0))
              (Fin 20) (Some examplePositions) (Some (Fin 1)) eq_refl)
    as [Herr Hstart].
  split; [exact Herr|].
  apply Hstart; [discriminate | reflexivity | vm_compute; discriminate].
Defined.

Lemma zget_nil (i : Z) : zget [] i = None.
Proof. unfold zget. destruct (i <? 0)%Z; [|destruct (Z.to_nat i)]; reflexivity. Qed.

Lemma zget_negative (A : list Q) (i : Z) : (i < 0)%Z -> zget A i = None.
Proof. intros H. unfold zget. now replace (i <? 0)%Z with true by (symmetry; apply Z.ltb_lt; lia). Qed.

Lemma gap_of_missing (x y : num) :
  x = NaN \/ y = NaN -> forall t, ngt (nsub x y) t = false.
Proof.
  intros [-> | ->] t; [|destruct x]; unfold ngt; destruct t; reflexivity.
Qed.

Lemma gapFree_tests (cd : num) (pos : list Q) :
  gapFree cd pos = true ->
  forall e, ngt (nsub (toNum (zget pos (e + 1))) (toNum (zget pos e)))
                (nmul cd (Fin 5)) = false.
Proof.
  induction pos as [|x pos IH]; intros Hg e.
  - apply gap_of_missing. left. now rewrite zget_nil.
  - destruct (Z_lt_le_dec e 0) as [Hneg|Hpos].
    { apply gap_of_missing. right. now rewrite zget_negative. }
    destruct pos as [|y pos].
    { apply gap_of_missing. left. rewrite zget_cons by lia.
      now rewrite zget_nil. }
    simpl in Hg. apply andb_true_iff in Hg. destruct Hg as [Hxy Hg].
    destruct (Z.eq_dec e 0) as [->|Hne].
    + apply negb_true_iff in Hxy. exact Hxy.
    + rewrite (zget_cons x) by lia. rewrite (zget_cons x) by lia.
      replace (e + 1 - 1)%Z with (e - 1 + 1)%Z by lia. now apply IH.
Qed.

Section OneSegment.

Variable timeTicks : option num -> option num -> list Q.
Variable pos : list Q.
Variable min max cd : num.

Hypothesis Hmin : forall e, nlt (toNum (zget pos e)) min = false.
Hypothesis Hmax : forall e, outsideMax pos max e = false.
Hypothesis Hgap :
  forall e, ngt (nsub (toNum (zget pos (e + 1))) (toNum (zget pos e)))
                (nmul cd (Fin 5)) = false.

Lemma segmentLoop_one_segment (turns : nat) :
  forall (end_ s : Z) sp gp l ss cl,
    (end_ + Z.of_nat (S turns) = alength pos)%Z ->
    segmentLoop timeTicks pos min max cd (S turns) end_
      (mkSegState s sp gp l ss cl)
    = closeSegment timeTicks pos (alength pos - 1) s
        (mkSegState s sp gp l ss cl).
Proof.
  induction turns as [|turns IH]; intros end_ s sp gp l ss cl Hlen.
  - cbn [segmentLoop]. rewrite Hmin, Hmax. unfold segmentEnds.
    replace (end_ =? alength pos - 1)%Z with true
      by (symmetry; apply Z.eqb_eq; lia).
    simpl. f_equal. lia.
  - remember (S turns) as n. cbn [segmentLoop]. rewrite Hmin, Hmax.
    unfold segmentEnds. rewrite Hgap, Hmax.
    replace (end_ =? alength pos - 1)%Z with false
      by (symmetry; apply Z.eqb_neq; lia).
    simpl. subst n. apply IH. lia.
Qed.

End OneSegment.

(** X12.  At least three positions without a gap, all within [min] and
    [max], make one segment that runs from the first index to the last: the
    generator is asked once, for the range from the first position to the
    last one (not from [min] to [max]). *)
Theorem getTimeTicks_one_segment
  (timeTicks : option num -> option num -> list Q)
  (breaksOn : bool) (min max closestDistance : num) (positions : list Q)
  (first lst : Q) :
  (3 <= alength positions)%Z ->
  covers min max positions = true ->
  gapFree closestDistance positions = true ->
  aboveLowest positions = true ->
  zget positions 0 = Some first ->
  zget positions (alength positions - 1) = Some lst ->
  st_closed (segmentScan timeTicks positions min max closestDistance)
  = [(0, alength positions - 1)%Z]
  /\ getTimeTicks timeTicks true breaksOn (Some min) max (Some positions)
       (Some closestDistance)
     = mkTickPositions
         (dropLeading (- MAX_VALUE)
            (timeTicks (Some (Fin first)) (Some (Fin lst))))
         (Some [0%Z]) false.
Proof.
  intros Hlen Hc Hg Hab H0 Hl.
  destruct (covers_tests min max positions Hc) as [Hmin Hmax].
  pose proof (gapFree_tests closestDistance positions Hg) as Hgap.
  assert (Hscan :
    segmentScan timeTicks positions min max closestDistance
    = closeSegment timeTicks positions (alength positions - 1) 0
        (initialSegState)).
  { unfold segmentScan, initialSegState.
    destruct (List.length positions) as [|n] eqn:En;
      [unfold alength in Hlen; rewrite En in Hlen; simpl in Hlen; lia|].
    apply segmentLoop_one_segment; auto.
    unfold alength. rewrite En. lia. }
  assert (Hreq : ngt (toNum (zget positions (alength positions - 1)))
                     (Fin (- MAX_VALUE)) = true).
  { rewrite Hl. unfold aboveLowest in Hab. rewrite forallb_forall in Hab.
    apply zget_Some in Hl. destruct Hl as [_ Hl]. apply nth_error_In in Hl.
    exact (Hab lst Hl). }
  split.
  - rewrite Hscan. apply closeSegment_closed.
  - unfold getTimeTicks. cbn [pick].
    replace (alength positions <? 3)%Z with false
      by (symmetry; apply Z.ltb_ge; lia).
    cbn [negb andb orb]. rewrite Hscan. unfold closeSegment, initialSegState.
    cbn [st_lastGroupPosition st_groupPositions st_segmentStarts
         st_segmentPositions st_closed].
    rewrite Hreq. rewrite H0, Hl. reflexivity.
Qed.

Lemma getTimeTicks_one_segment_witness :
  st_closed (segmentScan sampleTicks [1; 2; 3] (Fin 0) (Fin 20) (Fin 1))
  = [(0, alength [1; 2; 3]%Q - 1)%Z]
  /\ getTimeTicks sampleTicks true false (Some (Fin 0)) (Fin 20)
       (Some [1; 2; 3]) (Some (Fin 1))
     = mkTickPositions
         (dropLeading (- MAX_VALUE)
            (sampleTicks (Some (Fin 1)) (Some (Fin 3))))
         (Some [0%Z]) false.
Proof.
  apply (getTimeTicks_one_segment sampleTicks false (Fin 0) (Fin 20) (Fin 1)
           [1; 2; 3] 1 3); try reflexivity.
Defined.

(** ** Overscroll *)




Lemma overscrollLoop_never_ends (bound d : Q) (fuel : nat) :
  d <= 0 ->
  forall (cur : Q) (acc : list num),
    cur <= bound ->
    overscrollLoop fuel (Fin cur) (Fin bound) (Fin d) acc = None.
Proof.
  intros Hd. induction fuel as [|fuel IH]; intros cur acc Hc; [reflexivity|].
  simpl. rewrite Qle_bool_true by exact Hc. apply IH. lra.
Qed.

(** X14.  [getOverscrollPositions] at its edges: no range between
    overscroll points, no data maximum, or a negative overscroll give no
    position; with an overscroll that is not negative and a range between
    points that is not positive the loop never ends. *)
Theorem getOverscrollPositions_edges (axis : Axis) (fuel : nat) :
  (overscrollPointsRange (ordinal axis) = None ->
   getOverscrollPositions fuel axis = Some [])
  /\ (forall d, overscrollPointsRange (ordinal axis) = Some d ->
                dataMax axis = None ->
                getOverscrollPositions (S fuel) axis = Some [])
  /\ (forall m d ex,
         dataMax axis = Some (Fin m) ->
         overscrollPointsRange (ordinal axis) = Some (Fin d) ->
         convertOverscroll axis (options_overscroll axis) = Fin ex ->
         (ex < 0 -> getOverscrollPositions (S fuel) axis = Some [])
         /\ (0 <= ex -> d <= 0 -> getOverscrollPositions fuel axis = None)).
Proof.
  split; [|split].
  - intros H. unfold getOverscrollPositions. now rewrite H.
  - intros d Hd HM. unfold getOverscrollPositions. rewrite Hd, HM. reflexivity.
  - intros m d ex HM Hd Hex. unfold getOverscrollPositions.
    rewrite HM, Hd, Hex. split.
    + intros Hneg. simpl. rewrite Qle_bool_gt by lra. reflexivity.
    + intros Hpos Hd0. simpl. apply overscrollLoop_never_ends; lra.
Qed.

Lemma getOverscrollPositions_edges_witness :
  getOverscrollPositions 7 (setOrdinal (sampleAxis None) sampleOrdinal)
  = Some []
  /\ getOverscrollPositions 7 stalledAxis = None.
Proof.
  split.
  - apply (proj1 (getOverscrollPositions_edges
                    (setOrdinal (sampleAxis None) sampleOrdinal) 7)).
    reflexivity.
  - apply (proj2 (proj2 (getOverscrollPositions_edges stalledAxis 7))
             100 0 10); try reflexivity; unfold Qle; simpl; lia.
Defined.

(** ** The positions gathered by [beforeSetTickPositions] *)

Lemma holds_app (A B : list Q) (x : Q) :
  holds (A ++ B) x <-> holds A x \/ holds B x.
Proof.
  unfold holds. split.
  - intros [y [Hin Hy]]. apply in_app_or in Hin.
    destruct Hin; [left | right]; exists y; auto.
  - intros [[y [Hin Hy]] | [y [Hin Hy]]]; exists y; split; auto;
      apply in_or_app; auto.
Qed.

Lemma holds_cons (a : Q) (A : list Q) (x : Q) :
  holds (a :: A) x <-> a == x \/ holds A x.
Proof.
  unfold holds. split.
  - intros [y [[Heq | Hin] Hy]].
    + subst. now left.
    + right. exists y; auto.
  - intros [Heq | [y [Hin Hy]]].
    + exists a. split; [now left | exact Heq].
    + exists y. split; [now right | exact Hy].
Qed.

Lemma holds_nil (x : Q) : ~ holds [] x.
Proof. intros [y [[] _]]. Qed.

Lemma insertNumber_holds (a : Q) (A : list Q) (x : Q) :
  holds (insertNumber a A) x <-> a == x \/ holds A x.
Proof.
  induction A as [|b A IH]; simpl.
  - apply holds_cons.
  - destruct (Qle_bool a b).
    + apply holds_cons.
    + rewrite holds_cons, IH, holds_cons. tauto.
Qed.

Lemma sortNumbers_holds (A : list Q) (x : Q) :
  holds (sortNumbers A) x <-> holds A x.
Proof.
  induction A as [|a A IH]; simpl.
  - tauto.
  - rewrite insertNumber_holds, holds_cons, IH. tauto.
Qed.

Lemma insertNumber_sorted (a : Q) (A : list Q) :
  sortedb A = true -> sortedb (insertNumber a A) = true.
Proof.
  induction A as [|b A IH]; intros HA.
  - reflexivity.
  - cbn [insertNumber]. destruct (Qle_bool a b) eqn:Hab.
    + cbn [sortedb]. cbn [sortedb] in HA. rewrite Hab. exact HA.
    + assert (Hba : Qle_bool b a = true).
      { apply Qle_bool_iff. destruct (Qlt_le_dec b a) as [H|H].
        - apply Qlt_le_weak. exact H.
        - apply Qle_bool_iff in H. congruence. }
      specialize (IH ltac:(destruct A; [reflexivity|];
                            cbn [sortedb] in HA;
                            apply andb_true_iff in HA; tauto)).
      destruct A as [|c A].
      * cbn. rewrite Hba. reflexivity.
      * cbn [insertNumber] in *. cbn [sortedb] in HA.
        apply andb_true_iff in HA. destruct HA as [Hbc HA].
        destruct (Qle_bool a c) eqn:Hac.
        -- change (Qle_bool b a && sortedb (a :: c :: A) = true).
           rewrite Hba. exact IH.
        -- change (Qle_bool b c && sortedb (c :: insertNumber a A) = true).
           rewrite Hbc. exact IH.
Qed.

Lemma sortNumbers_sorted (A : list Q) : sortedb (sortNumbers A) = true.
Proof.
  induction A as [|a A IH]; [reflexivity|].
  simpl. apply insertNumber_sorted. exact IH.
Qed.

Lemma zget_app_middle (pre : list Q) (x : Q) (r : list Q) :
  zget (pre ++ x :: r) (alength pre) = Some x.
Proof.
  unfold zget, alength.
  destruct (Z.of_nat (List.length pre) <? 0)%Z eqn:E; [apply Z.ltb_lt in E; lia|].
  rewrite Nat2Z.id. rewrite nth_error_app2 by lia.
  rewrite Nat.sub_diag. reflexivity.
Qed.

Lemma zget_app_next (pre : list Q) (x : Q) (r : list Q) :
  zget (pre ++ x :: r) (alength pre + 1) = zget r 0.
Proof.
  replace (pre ++ x :: r) with ((pre ++ [x]) ++ r)
    by (rewrite <- app_assoc; reflexivity).
  unfold zget, alength.
  destruct (Z.of_nat (List.length pre) + 1 <? 0)%Z eqn:E; [apply Z.ltb_lt in E; lia|].
  replace (Z.to_nat (Z.of_nat (List.length pre) + 1))
    with (List.length (pre ++ [x])) by (rewrite length_app; cbn [List.length]; lia).
  rewrite nth_error_app2 by lia. rewrite Nat.sub_diag.
  destruct r; reflexivity.
Qed.

Lemma uniqueLoop_distinctAfter (r : list Q) :
  forall (pre : list Q) (x : Q) (acc : list Q),
    uniqueLoop (List.length r) (alength pre) (pre ++ x :: r) acc
    = acc ++ distinctAfter x r.
Proof.
  induction r as [|y r IH]; intros pre x acc.
  - simpl. now rewrite app_nil_r.
  - cbn [List.length uniqueLoop distinctAfter].
    rewrite zget_app_middle, zget_app_next.
    change (zget (y :: r) 0) with (Some y).
    replace (pre ++ x :: y :: r) with ((pre ++ [x]) ++ y :: r)
      by (rewrite <- app_assoc; reflexivity).
    replace (alength pre + 1)%Z with (alength (pre ++ [x]))
      by (unfold alength; rewrite length_app; cbn [List.length]; lia).
    rewrite IH. unfold differ. cbn [option_map vseq nseq].
    destruct (Qeq_bool x y); cbn [negb].
    + reflexivity.
    + now rewrite <- app_assoc.
Qed.

Lemma distinctAfter_above (r : list Q) :
  forall x, sortedb (x :: r) = true ->
    forall y, In y (distinctAfter x r) -> x < y.
Proof.
  induction r as [|z r IH]; intros x Hs y Hin.
  - destruct Hin.
  - cbn [sortedb] in Hs. apply andb_true_iff in Hs. destruct Hs as [Hxz Hs].
    apply Qle_bool_iff in Hxz.
    cbn [distinctAfter] in Hin.
    destruct (Qeq_bool x z) eqn:E.
    + apply Qeq_bool_iff in E. specialize (IH z Hs y Hin). lra.
    + assert (Hne : ~ x == z).
      { intro H. apply Qeq_bool_iff in H. congruence. }
      destruct Hin as [-> | Hin].
      * lra.
      * specialize (IH z Hs y Hin). lra.
Qed.

Lemma ascendingb_cons_above (x : Q) (A : list Q) :
  ascendingb A = true -> (forall y, In y A -> x < y) ->
  ascendingb (x :: A) = true.
Proof.
  intros HA Hx. destruct A as [|a A]; [reflexivity|].
  change (negb (Qle_bool a x) && ascendingb (a :: A) = true).
  rewrite HA, andb_true_r.
  destruct (Qle_bool a x) eqn:E; [|reflexivity].
  apply Qle_bool_iff in E. specialize (Hx a (or_introl eq_refl)). lra.
Qed.

Lemma distinctAfter_ascending (r : list Q) :
  forall x, sortedb (x :: r) = true -> ascendingb (distinctAfter x r) = true.
Proof.
  induction r as [|z r IH]; intros x Hs; [reflexivity|].
  cbn [sortedb] in Hs. apply andb_true_iff in Hs. destruct Hs as [Hxz Hs].
  cbn [distinctAfter]. destruct (Qeq_bool x z).
  - apply IH. exact Hs.
  - apply ascendingb_cons_above; [apply IH; exact Hs|].
    apply distinctAfter_above. exact Hs.
Qed.

Lemma distinctAfter_holds (r : list Q) :
  forall x v, holds (x :: distinctAfter x r) v <-> holds (x :: r) v.
Proof.
  induction r as [|z r IH]; intros x v; [tauto|].
  cbn [distinctAfter]. destruct (Qeq_bool x z) eqn:E.
  - apply Qeq_bool_iff in E.
    rewrite (holds_cons x (z :: r)), <- IH, !holds_cons.
    split.
    + intros [H|H]; [now left | right; now right].
    + intros [H|[H|H]]; [now left | left; rewrite E; exact H | now right].
  - rewrite holds_cons, IH, (holds_cons x (z :: r)). tauto.
Qed.

Lemma removeDuplicates_cons (x : Q) (r : list Q) :
  sortedb (x :: r) = true ->
  removeDuplicates (x :: r) = x :: distinctAfter x r.
Proof.
  intros Hs. unfold removeDuplicates.
  replace (Z.to_nat (alength (x :: r) - 1)) with (List.length r)
    by (unfold alength; simpl List.length; lia).
  pose proof (uniqueLoop_distinctAfter r [] x []) as H.
  change (alength []) with 0%Z in H. cbn [app] in H. rewrite H.
  change (zget (x :: r) 0) with (Some x).
  destruct (distinctAfter x r) as [|d D] eqn:ED; [reflexivity|].
  change (zget (d :: D) 0) with (Some d).
  unfold differ. cbn [option_map vseq nseq].
  assert (Hd : x < d).
  { apply (distinctAfter_above r x Hs). rewrite ED. now left. }
  destruct (Qeq_bool d x) eqn:E; [|reflexivity].
  apply Qeq_bool_iff in E. lra.
Qed.

Lemma removeDuplicates_ascending (A : list Q) :
  sortedb A = true -> A <> [] ->
  ascendingb (removeDuplicates A) = true
  /\ forall v, holds (removeDuplicates A) v <-> holds A v.
Proof.
  intros Hs Hne. destruct A as [|x r]; [congruence|].
  rewrite (removeDuplicates_cons x r Hs). split.
  - apply ascendingb_cons_above.
    + apply distinctAfter_ascending. exact Hs.
    + apply distinctAfter_above. exact Hs.
  - intro v. apply distinctAfter_holds.
Qed.

(** The positions after one more series. *)
Lemma mergeOne_positions (hasBreaks : bool) (i : nat) (s : Series)
  (st : MergeState) :
  ascendingb (ms_ordinalPositions st) = true ->
  ascendingb (ms_ordinalPositions (mergeOne hasBreaks i s st)) = true
  /\ forall v,
       holds (ms_ordinalPositions (mergeOne hasBreaks i s st)) v
       <-> holds (ms_ordinalPositions st) v
           \/ (takesPart hasBreaks s = true /\ holds (processedXData s) v).
Proof.
  intros Hst. unfold mergeOne.
  destruct (takesPart hasBreaks s) eqn:Et; cbn [ms_ordinalPositions].
  - set (sorted := sortNumbers (ms_ordinalPositions st ++ processedXData s)).
    destruct (alength sorted =? 0)%Z eqn:El.
    + assert (Hnil : sorted = []).
      { apply Z.eqb_eq in El. unfold alength in El.
        destruct sorted; [reflexivity | simpl in El; lia]. }
      rewrite Hnil. split; [reflexivity|].
      intro v. rewrite <- Hnil. unfold sorted.
      rewrite sortNumbers_holds, holds_app. tauto.
    + assert (Hne : sorted <> []).
      { intro H. rewrite H in El. discriminate. }
      destruct (removeDuplicates_ascending sorted
                  (sortNumbers_sorted _) Hne) as [Ha Hh].
      split; [exact Ha|].
      intro v. rewrite Hh. unfold sorted.
      rewrite sortNumbers_holds, holds_app. tauto.
  - split; [exact Hst|]. intro v. split; [tauto|].
    intros [H|[H _]]; [exact H | discriminate].
Qed.

Lemma mergeLoop_positions (hasBreaks : bool) (series : list Series) :
  forall (i : nat) (st : MergeState),
    ascendingb (ms_ordinalPositions st) = true ->
    ascendingb (ms_ordinalPositions (mergeLoop hasBreaks i series st)) = true
    /\ forall v,
         holds (ms_ordinalPositions (mergeLoop hasBreaks i series st)) v
         <-> holds (ms_ordinalPositions st) v
             \/ exists s, In s series /\ takesPart hasBreaks s = true
                          /\ holds (processedXData s) v.
Proof.
  induction series as [|s rest IH]; intros i st Hst.
  - cbn [mergeLoop]. split; [exact Hst|]. intro v. split; [tauto|].
    intros [H|[s [[] _]]]. exact H.
  - cbn [mergeLoop].
    destruct (mergeOne_positions hasBreaks i s st Hst) as [Ha Hh].
    destruct (IH (S i) _ Ha) as [Ha' Hh'].
    split; [exact Ha'|]. intro v. rewrite Hh', Hh. split.
    + intros [[H|[Ht H]]|[s' [Hin [Ht H]]]].
      * now left.
      * right. exists s. split; [now left|]. tauto.
      * right. exists s'. split; [now right|]. tauto.
    + intros [H|[s' [[->|Hin] [Ht H]]]].
      * left. now left.
      * left. right. tauto.
      * right. exists s'. tauto.
Qed.

(** X15.  The positions gathered from the series are strictly ascending,
    and they hold exactly the x values of the series that take part: none is
    lost, none is invented, and none is kept twice. *)
Theorem mergeSeries_positions (hasBreaks : bool) (series : list Series) :
  ascendingb (ms_ordinalPositions (mergeSeries hasBreaks series)) = true
  /\ forall v,
       holds (ms_ordinalPositions (mergeSeries hasBreaks series)) v
       <-> exists s, In s series /\ takesPart hasBreaks s = true
                     /\ holds (processedXData s) v.
Proof.
  destruct (mergeLoop_positions hasBreaks series 0 initialMergeState eq_refl)
    as [Ha Hh].
  split; [exact Ha|]. intro v. unfold mergeSeries. rewrite Hh.
  split; [|tauto]. intros [H|H]; [|exact H].
  exfalso. exact (holds_nil v H).
Qed.

Lemma irregularLoop_true (n : nat) (P : list Q) (d : num) :
  irregularLoop n P d true = true.
Proof. destruct n; reflexivity. Qed.

Lemma irregularLoop_regular (n : nat) (P : list Q) (d : Q) :
  (Z.of_nat n < alength P)%Z ->
  irregularLoop n P (Fin d) false = false
  <-> forall i a b, (i < Z.of_nat n)%Z ->
        zget P i = Some a -> zget P (i + 1) = Some b -> b - a == d.
Proof.
  induction n as [|n IH]; intros Hn.
  - cbn [irregularLoop]. split; [|reflexivity].
    intros _ i a b Hi Ha. apply zget_Some in Ha. lia.
  - cbn [irregularLoop].
    destruct (zget_in_range P (Z.of_nat n) ltac:(lia)) as [a Ha].
    destruct (zget_in_range P (Z.of_nat n + 1) ltac:(lia)) as [b Hb].
    rewrite Ha, Hb. cbn [toNum nsub nseq].
    destruct (Qeq_bool (b - a) d) eqn:E; cbn [negb].
    + apply Qeq_bool_iff in E. rewrite IH by lia. split.
      * intros H i a' b' Hi Ha' Hb'.
        destruct (Z.eq_dec i (Z.of_nat n)) as [->|Hne].
        -- rewrite Ha in Ha'. rewrite Hb in Hb'.
           injection Ha' as <-. injection Hb' as <-. exact E.
        -- apply (H i a' b'); auto. lia.
      * intros H i a' b' Hi. apply H. lia.
    + rewrite irregularLoop_true. split; [discriminate|].
      intros H. specialize (H (Z.of_nat n) a b ltac:(lia) Ha Hb).
      apply Qeq_bool_iff in H. congruence.
Qed.

Lemma evenlySpaced_check (P : list Q) (d : Q) :
  irregularLoop (Z.to_nat (alength P - 1)) P (Fin d) false = false ->
  evenlySpaced P d.
Proof.
  intros H i a b Ha Hb.
  pose proof (zget_Some _ _ _ Ha) as [Hra _].
  pose proof (zget_Some _ _ _ Hb) as [Hrb _].
  apply (proj1 (irregularLoop_regular (Z.to_nat (alength P - 1)) P d
                  ltac:(lia)) H i a b); auto.
  lia.
Qed.

Lemma ngt_Fin_false (x y : Q) : ngt (Fin x) (Fin y) = false <-> x <= y.
Proof.
  unfold ngt, nlt, nle. destruct (Qle_bool x y) eqn:E; cbn [negb].
  - apply Qle_bool_iff in E. tauto.
  - split; [discriminate|]. intro H. apply Qle_bool_iff in H. congruence.
Qed.

Lemma needsOrdinal_regular (keep : bool) (lo hi : Q) (P : list Q)
  (p0 p1 pl : Q) :
  (2 < alength P)%Z ->
  zget P 0 = Some p0 -> zget P 1 = Some p1 ->
  zget P (alength P - 1) = Some pl ->
  needsOrdinal keep (Fin lo) (Fin hi) P = false
  <-> evenlySpaced P (p1 - p0)
      /\ (keep = true \/ (p0 - lo <= p1 - p0 /\ hi - pl <= p1 - p0)).
Proof.
  intros Hlen H0 H1 Hl. unfold needsOrdinal. rewrite H0, H1, Hl.
  cbn [toNum nsub].
  pose proof (irregularLoop_regular (Z.to_nat (alength P - 1)) P (p1 - p0)
                ltac:(lia)) as Hloop.
  assert (Hev : irregularLoop (Z.to_nat (alength P - 1)) P
                  (Fin (p1 - p0)) false = false
                <-> evenlySpaced P (p1 - p0)).
  { rewrite Hloop. unfold evenlySpaced. split.
    - intros H i a b Ha Hb. apply (H i a b); auto.
      apply zget_Some in Hb. lia.
    - intros H i a b _. apply H. }
  destruct keep; cbn [negb andb].
  - rewrite Hev. intuition.
  - destruct (ngt (Fin (p0 - lo)) (Fin (p1 - p0))) eqn:E1; cbn [orb].
    + split; [discriminate|]. intros [_ [H|[H _]]]; [discriminate|].
      apply ngt_Fin_false in H. congruence.
    + apply ngt_Fin_false in E1.
      destruct (ngt (Fin (hi - pl)) (Fin (p1 - p0))) eqn:E2.
      * split; [discriminate|]. intros [_ [H|[_ H]]]; [discriminate|].
        apply ngt_Fin_false in H. congruence.
      * apply ngt_Fin_false in E2. rewrite Hev. intuition.
Qed.

(** X16.  With more than two positions and no forced ordinal axis: when the
    positions are evenly spaced and the extremes leave no padding wider than
    one step (or padding is to be kept), the ordinal logic is switched off
    (no positions, no slope, no offset, [isOrdinal] false). *)
Theorem beforeSetTickPositions_evenly_spaced (fuel : nat) (a : SeriesAxis)
  (P : list Q) (p0 p1 pl lo hi : Q) :
  options_ordinal (sa_axis a) || sa_hasBreaks a = true ->
  sa_forceOrdinal a = false ->
  trimExtremes (mergeSeries (sa_hasBreaks a) (sa_series a)) = P ->
  (2 < alength P)%Z ->
  zget P 0 = Some p0 -> zget P 1 = Some p1 ->
  zget P (alength P - 1) = Some pl ->
  min (sa_axis a) = Some (Fin lo) -> max (sa_axis a) = Some (Fin hi) ->
  evenlySpaced P (p1 - p0) ->
  sa_keepOrdinalPadding a = true
  \/ (p0 - lo <= p1 - p0 /\ hi - pl <= p1 - p0) ->
  exists a',
    beforeSetTickPositions fuel a = Done a'
    /\ positions (ordinal (sa_axis a')) = None
    /\ slope (ordinal (sa_axis a')) = None
    /\ offset (ordinal (sa_axis a')) = None
    /\ sa_isOrdinal a' = false.
Proof.
  intros Hon Hforce HP Hlen H0 H1 Hl Hmin Hmax Hev Hpad.
  pose proof (needsOrdinal_regular (sa_keepOrdinalPadding a) lo hi P
                p0 p1 pl Hlen H0 H1 Hl) as Hneeds.
  unfold beforeSetTickPositions. rewrite Hon, HP, Hmin, Hmax.
  cbn [ofValue].
  destruct (2 <? alength P)%Z eqn:E; [|apply Z.ltb_ge in E; lia].
  unfold registerPositions. rewrite Hforce, Hmin, Hmax. cbn [ofValue].
  rewrite (proj2 Hneeds (conj Hev Hpad)). cbn [orb].
  eexists. split; [reflexivity|]. cbn.
  repeat split. apply andb_false_r.
Qed.

Lemma beforeSetTickPositions_evenly_spaced_witness :
  exists a',
    beforeSetTickPositions 0 (sampleSeriesAxis [[0; 20; 40]; [10; 30]])
    = Done a'
    /\ positions (ordinal (sa_axis a')) = None
    /\ slope (ordinal (sa_axis a')) = None
    /\ offset (ordinal (sa_axis a')) = None
    /\ sa_isOrdinal a' = false.
Proof.
  apply (beforeSetTickPositions_evenly_spaced 0
           (sampleSeriesAxis [[0; 20; 40]; [10; 30]])
           [0; 10; 20; 30; 40] 0 10 40 0 40
           eq_refl eq_refl eq_refl eq_refl eq_refl eq_refl eq_refl
           eq_refl eq_refl).
  - apply evenlySpaced_check. reflexivity.
  - right. split; unfold Qle; simpl; lia.
Defined.

Lemma ascendingb_removelast (A : list Q) :
  ascendingb A = true -> ascendingb (removelast A) = true.
Proof.
  induction A as [|a A IH]; intros H; [reflexivity|].
  destruct A as [|b A]; [reflexivity|].
  change (removelast (a :: b :: A)) with (a :: removelast (b :: A)).
  pose proof (IH (ascendingb_tail _ _ H)) as IH'.
  destruct A as [|c A]; [reflexivity|].
  change (removelast (b :: c :: A)) with (b :: removelast (c :: A)) in *.
  cbn [ascendingb] in H. apply andb_true_iff in H. destruct H as [Hab _].
  change (negb (Qle_bool b a) && ascendingb (b :: removelast (c :: A)) = true).
  now rewrite Hab, IH'.
Qed.

Lemma trimExtremes_ascending (st : MergeState) :
  ascendingb (ms_ordinalPositions st) = true ->
  ascendingb (trimExtremes st) = true.
Proof.
  intros H. unfold trimExtremes.
  destruct (ms_adjustOrdinalExtremesPoints st && ms_isBoosted st); [|exact H].
  apply ascendingb_removelast in H.
  destruct (removelast (ms_ordinalPositions st)) as [|x r]; [reflexivity|].
  exact (ascendingb_tail _ _ H).
Qed.

Lemma holds_removelast (A : list Q) (v : Q) :
  holds (removelast A) v -> holds A v.
Proof.
  intros [y [Hin Hy]]. exists y. split; [|exact Hy].
  induction A as [|a A IH]; [destruct Hin|].
  destruct A as [|b A]; [destruct Hin|].
  change (removelast (a :: b :: A)) with (a :: removelast (b :: A)) in Hin.
  destruct Hin as [->|Hin]; [now left | right; auto].
Qed.

Lemma trimExtremes_holds (st : MergeState) (v : Q) :
  holds (trimExtremes st) v -> holds (ms_ordinalPositions st) v.
Proof.
  unfold trimExtremes.
  destruct (ms_adjustOrdinalExtremesPoints st && ms_isBoosted st); [|auto].
  intros [y [Hin Hy]]. apply holds_removelast. exists y. split; [|exact Hy].
  destruct (removelast (ms_ordinalPositions st)); [destruct Hin | now right].
Qed.

Lemma registerPositions_plain (fuel : nat) (a : SeriesAxis) (o : Ordinal)
  (P : list Q) (r : option num) (u : bool) (a' : SeriesAxis) (P' : list Q) :
  overscrollSet (options_overscroll (sa_axis a)) = false ->
  registerPositions fuel a o P r u = Done a' ->
  positions (ordinal (sa_axis a')) = Some P' -> P' = P.
Proof.
  intros Hov. unfold registerPositions. rewrite Hov.
  destruct (u || sa_forceOrdinal a); intros H; injection H as <-; cbn;
    congruence.
Qed.

Lemma val2lin_linear (o : Ordinal) (P : list Q) (v first lst s off q : Q) :
  positions o = Some P -> slope o = Some (Fin s) -> offset o = Some (Fin off) ->
  zget P 0 = Some first -> zget P (alength P - 1) = Some lst ->
  first <= v -> v <= lst ->
  getIndexInArray P (Fin v) = Fin q ->
  exists x, val2lin o (Fin v) false = Fin x /\ x == s * q + off.
Proof.
  intros HP Hsl Hoff H0 Hl Hf Hv Hq. unfold val2lin.
  rewrite HP, H0, Hl, Hsl, Hoff, Hq. cbn [toNum nle nge].
  rewrite !Qle_bool_true by assumption. cbn [andb ofValue truthy].
  destruct (Qeq_bool q 0) eqn:E; cbn [negb nmul nadd].
  - apply Qeq_bool_iff in E. eexists. split; [reflexivity|]. rewrite E. lra.
  - eexists. split; [reflexivity|]. lra.
Qed.

(** The slope and offset recorded for a range that lies within the
    positions map the ends of the range onto themselves, and what lies
    between them in between. *)
Lemma linearTransform_endpoints (o : Ordinal) (P : list Q)
  (lo hi first second lst : Q) :
  positions o = Some P -> ascendingb P = true ->
  zget P 0 = Some first -> zget P 1 = Some second ->
  zget P (alength P - 1) = Some lst ->
  first <= lo -> lo < hi -> second <= hi -> hi <= lst ->
  let transform := linearTransform o P (Fin lo) (Fin hi) in
  let o' := setTransform o (Some (fst transform)) (Some (snd transform)) in
  forall v, lo <= v -> v <= hi ->
    exists x, val2lin o' (Fin v) false = Fin x
              /\ lo <= x /\ x <= hi
              /\ (v == lo -> x == lo) /\ (v == hi -> x == hi).
Proof.
  intros HP Hs H0 H1 Hl Hflo Hlohi Hsec Hhil transform o' v Hv1 Hv2.
  (* the two indices the transform is made of *)
  set (vlo := nmax (Fin lo) (Fin first)).
  set (vhi := nmin (Fin hi) (Fin lst)).
  assert (Evlo : exists w, vlo = Fin w /\ w == lo).
  { unfold vlo. cbn [nmax nle]. destruct (Qle_bool lo first) eqn:E.
    - apply Qle_bool_iff in E. exists first. split; [reflexivity|lra].
    - exists lo. split; [reflexivity|lra]. }
  assert (Evhi : exists w, vhi = Fin w /\ w == hi).
  { unfold vhi. cbn [nmin nle]. destruct (Qle_bool hi lst) eqn:E.
    - exists hi. split; [reflexivity|lra].
    - exists lst. split; [reflexivity|].
      assert (~ hi <= lst) by (intro H; apply Qle_bool_iff in H; congruence).
      lra. }
  destruct Evlo as (wlo & Ewlo & Hwlo). destruct Evhi as (whi & Ewhi & Hwhi).
  destruct (getIndexInArray_order P wlo v first lst Hs H0 Hl)
    as (m & q & Em & Eq & Hm0 & Hqn & Hmq & _); try lra.
  destruct (getIndexInArray_order P v whi first lst Hs H0 Hl)
    as (q' & M & Eq' & EM & _ & HMn & HqM & _); try lra.
  rewrite Eq in Eq'. injection Eq' as <-.
  destruct (getIndexInArray_order P v wlo first lst Hs H0 Hl)
    as (q' & m' & Eq' & Em' & _ & _ & Hqm & _); try lra.
  rewrite Eq in Eq'. injection Eq' as <-.
  rewrite Em in Em'. injection Em' as <-.
  destruct (getIndexInArray_order P whi v first lst Hs H0 Hl)
    as (M' & q' & EM' & Eq' & _ & _ & HMq & _); try lra.
  rewrite Eq in Eq'. injection Eq' as <-.
  rewrite EM in EM'. injection EM' as <-.
  assert (Hfs : first <= second).
  { apply (ascendingb_le P 0 1); auto. lia. }
  assert (Hsl : second <= lst).
  { apply (ascendingb_le P 1 (alength P - 1)); auto.
    apply zget_Some in H1. lia. }
  destruct (getIndexInArray_order P second whi first lst Hs H0 Hl)
    as (one & M' & E1 & EM' & _ & _ & H1M & _); try lra.
  rewrite EM in EM'. injection EM' as <-.
  rewrite (getIndexInArray_exact P 1 second Hs H1) in E1.
  injection E1 as <-. change (inject_Z 1) with 1 in H1M.
  destruct (getIndexInArray_order P wlo whi first lst Hs H0 Hl)
    as (m' & M' & Em' & EM' & _ & _ & _ & HmM); try lra.
  rewrite Em in Em'. injection Em' as <-.
  rewrite EM in EM'. injection EM' as <-.
  specialize (Hmq ltac:(lra)). specialize (HqM ltac:(lra)).
  specialize (H1M ltac:(lra)). specialize (HmM ltac:(lra)).
  (* the transform *)
  assert (Emin : val2lin o vlo true = Fin m).
  { rewrite Ewlo, (val2lin_visible o P wlo first lst HP H0 Hl) by lra.
    exact Em. }
  assert (Emax : val2lin o vhi true = Fin M).
  { rewrite Ewhi, (val2lin_visible o P whi first lst HP H0 Hl) by lra.
    exact EM. }
  assert (Emx : exists Mx, nmax (Fin M) (Fin 1) = Fin Mx /\ Mx == M).
  { cbn [nmax nle]. destruct (Qle_bool M 1) eqn:E.
    - apply Qle_bool_iff in E. exists 1. split; [reflexivity|lra].
    - exists M. split; [reflexivity|lra]. }
  destruct Emx as (Mx & EMx & HMx).
  assert (Etr : transform
                = (Fin ((hi - lo) / (Mx - m)),
                   Fin (lo - m * ((hi - lo) / (Mx - m))))).
  { unfold transform, linearTransform. rewrite H0, Hl. cbn [toNum].
    fold vlo. fold vhi. rewrite Emin, Emax, EMx. cbn [nsub ndiv].
    rewrite (Qeq_bool_gt (Mx - m) 0) by lra. reflexivity. }
  destruct (val2lin_linear o' P v first lst
              ((hi - lo) / (Mx - m)) (lo - m * ((hi - lo) / (Mx - m))) q)
    as (x & Ex & Hx); auto; try lra.
  { unfold o'. rewrite Etr. reflexivity. }
  { unfold o'. rewrite Etr. reflexivity. }
  exists x. split; [exact Ex|].
  assert (Hd : 0 < Mx - m) by lra.
  set (k := (hi - lo) / (Mx - m)) in *.
  assert (Hk : k * (Mx - m) == hi - lo).
  { unfold k. field. lra. }
  assert (Hk0 : 0 < k).
  { unfold k. apply Qlt_shift_div_l; lra. }
  assert (Hxk : x == lo + k * (q - m)) by (rewrite Hx; ring).
  assert (Hlow : 0 <= k * (q - m)).
  { apply Qmult_le_0_compat; lra. }
  assert (Hup : k * (q - m) <= k * (Mx - m)).
  { rewrite !(Qmult_comm k). apply Qmult_le_compat_r; lra. }
  split; [lra|]. split; [lra|]. split.
  - intros Hvl. assert (q <= m) by (apply Hqm; lra).
    assert (Hz : q - m == 0) by lra.
    rewrite Hxk, Hz. ring.
  - intros Hvh. assert (M <= q) by (apply HMq; lra).
    assert (Hz : q - m == Mx - m) by lra.
    rewrite Hxk, Hz, Hk. ring.
Qed.

Lemma mergeLoop_not_boosted (hasBreaks : bool) (series : list Series) :
  forall (i : nat) (st : MergeState),
    (forall s, In s series -> boosted s = false) ->
    ms_isBoosted st = false ->
    ms_isBoosted (mergeLoop hasBreaks i series st) = false.
Proof.
  induction series as [|s rest IH]; intros i st Hall Hst; [exact Hst|].
  cbn [mergeLoop]. apply IH.
  - intros s' Hs'. apply Hall. now right.
  - unfold mergeOne. rewrite (Hall s (or_introl eq_refl)).
    destruct (takesPart hasBreaks s); exact Hst.
Qed.

(** X17.  Without overscroll, the positions [beforeSetTickPositions]
    registers are strictly ascending and each of them is an x value of a
    series that takes part; when no series is boosted, every such x value is
    registered. *)
Theorem beforeSetTickPositions_positions (fuel : nat) (a a' : SeriesAxis)
  (P : list Q) :
  options_ordinal (sa_axis a) || sa_hasBreaks a = true ->
  overscrollSet (options_overscroll (sa_axis a)) = false ->
  beforeSetTickPositions fuel a = Done a' ->
  positions (ordinal (sa_axis a')) = Some P ->
  ascendingb P = true
  /\ (forall v, holds P v ->
        exists s, In s (sa_series a) /\ takesPart (sa_hasBreaks a) s = true
                  /\ holds (processedXData s) v)
  /\ ((forall s, In s (sa_series a) -> boosted s = false) ->
      forall s v, In s (sa_series a) -> takesPart (sa_hasBreaks a) s = true ->
                  holds (processedXData s) v -> holds P v).
Proof.
  intros Hon Hov Hrun HP.
  unfold beforeSetTickPositions in Hrun. rewrite Hon, Hov in Hrun.
  destruct (mergeLoop_positions (sa_hasBreaks a) (sa_series a) 0
              initialMergeState eq_refl) as [Hasc Hholds].
  fold (mergeSeries (sa_hasBreaks a) (sa_series a)) in Hasc, Hholds.
  assert (HPeq : P = trimExtremes (mergeSeries (sa_hasBreaks a) (sa_series a))).
  { destruct (2 <? _)%Z in Hrun;
      exact (registerPositions_plain _ _ _ _ _ _ _ _ Hov Hrun HP). }
  subst P. split; [|split].
  - apply trimExtremes_ascending. exact Hasc.
  - intros v Hv. apply trimExtremes_holds in Hv. apply Hholds in Hv.
    destruct Hv as [Hv|Hv]; [exfalso; exact (holds_nil v Hv) | exact Hv].
  - intros Hnb s v Hs Ht Hv. unfold trimExtremes.
    unfold mergeSeries at 2.
    rewrite (mergeLoop_not_boosted _ _ 0 initialMergeState Hnb eq_refl).
    rewrite andb_false_r. apply Hholds. right. exists s. auto.
Qed.

Lemma beforeSetTickPositions_positions_witness :
  ascendingb [0; 10; 30; 40] = true
  /\ forall v, holds [0; 10; 30; 40] v ->
       exists s, In s (map sampleSeries [[0; 10; 30]; [10; 40]])
                 /\ takesPart false s = true
                 /\ holds (processedXData s) v.
Proof.
  destruct (beforeSetTickPositions_positions 0
              (sampleSeriesAxis [[0; 10; 30]; [10; 40]])
              (match beforeSetTickPositions 0
                       (sampleSeriesAxis [[0; 10; 30]; [10; 40]]) with
               | Done r => r
               | _ => sampleSeriesAxis []
               end)
              [0; 10; 30; 40] eq_refl eq_refl eq_refl eq_refl)
    as (Hasc & Hin & _).
  split; [exact Hasc | exact Hin].
Defined.

(** X18.  When arithmetic is exact: once positions are registered for
    extremes that lie within them (the maximum not below the second
    position), the recorded slope and offset map the visible range onto
    itself: [val2lin] of the minimum is the minimum, of the maximum the
    maximum, and of a value in between a value in between.  (On doubles the
    slope, the offset and their products round, and the results may differ
    from these in the last digits.) *)
Theorem beforeSetTickPositions_linear_range (fuel : nat) (a : SeriesAxis)
  (P : list Q) (lo hi first second lst : Q) :
  options_ordinal (sa_axis a) || sa_hasBreaks a = true ->
  overscrollSet (options_overscroll (sa_axis a)) = false ->
  trimExtremes (mergeSeries (sa_hasBreaks a) (sa_series a)) = P ->
  (2 < alength P)%Z ->
  needsOrdinal (sa_keepOrdinalPadding a) (Fin lo) (Fin hi) P
  || sa_forceOrdinal a = true ->
  min (sa_axis a) = Some (Fin lo) -> max (sa_axis a) = Some (Fin hi) ->
  zget P 0 = Some first -> zget P 1 = Some second ->
  zget P (alength P - 1) = Some lst ->
  first <= lo -> lo < hi -> second <= hi -> hi <= lst ->
  exists a',
    beforeSetTickPositions fuel a = Done a'
    /\ positions (ordinal (sa_axis a')) = Some P
    /\ forall v, lo <= v -> v <= hi ->
         exists x, val2lin (ordinal (sa_axis a')) (Fin v) false = Fin x
                   /\ lo <= x /\ x <= hi
                   /\ (v == lo -> x == lo) /\ (v == hi -> x == hi).
Proof.
  intros Hon Hov HP Hlen Huse Hmin Hmax H0 H1 Hl Hflo Hlohi Hsec Hhil.
  assert (Hasc : ascendingb P = true).
  { rewrite <- HP. apply trimExtremes_ascending.
    apply (mergeLoop_positions (sa_hasBreaks a) (sa_series a) 0
             initialMergeState eq_refl). }
  unfold beforeSetTickPositions. rewrite Hon, HP, Hmin, Hmax. cbn [ofValue].
  destruct (2 <? alength P)%Z eqn:E; [|apply Z.ltb_ge in E; lia].
  unfold registerPositions. rewrite Huse, Hov, Hmin, Hmax. cbn [ofValue].
  eexists. split; [reflexivity|]. cbn [sa_axis setOrdinal ordinal].
  split; [reflexivity|].
  apply (linearTransform_endpoints _ P lo hi first second lst); auto.
Qed.

Lemma beforeSetTickPositions_linear_range_witness :
  exists a',
    beforeSetTickPositions 0 (sampleSeriesAxis [[0; 10; 30]; [10; 40]])
    = Done a'
    /\ positions (ordinal (sa_axis a')) = Some [0; 10; 30; 40]
    /\ forall v, 0 <= v -> v <= 40 ->
         exists x, val2lin (ordinal (sa_axis a')) (Fin v) false = Fin x
                   /\ 0 <= x /\ x <= 40
                   /\ (v == 0 -> x == 0) /\ (v == 40 -> x == 40).
Proof.
  apply (beforeSetTickPositions_linear_range 0
           (sampleSeriesAxis [[0; 10; 30]; [10; 40]])
           [0; 10; 30; 40] 0 40 0 10 40); try reflexivity;
    unfold Qle, Qlt; simpl; lia.
Defined.

(** ** Panning along the extended positions *)

Lemma pushDataMax_cases (E : list Q) (d : Q) :
  (pushDataMax E (Some (Fin d)) = E
   /\ forall l, zget E (alength E - 1) = Some l -> d <= l)
  \/ (pushDataMax E (Some (Fin d)) = E ++ [d]
      /\ exists l, zget E (alength E - 1) = Some l /\ l < d).
Proof.
  unfold pushDataMax, lastIndex.
  destruct (zget E (alength E - 1)) as [l|] eqn:El; cbn [toNum].
  - unfold ngt. rewrite nlt_Fin.
    destruct (Qle_bool d l) eqn:Ed; cbn [negb].
    + left. split; [reflexivity|]. intros l' H. injection H as <-.
      now apply Qle_bool_iff.
    + right. split; [reflexivity|]. exists l. split; [reflexivity|].
      now apply Qle_bool_false.
  - left. split; [reflexivity|]. discriminate.
Qed.

Lemma In_zget (A : list Q) (y : Q) :
  In y A -> exists i, zget A i = Some y.
Proof.
  intros H. apply In_nth_error in H. destruct H as [n Hn].
  exists (Z.of_nat n). unfold zget.
  destruct (Z.of_nat n <? 0)%Z eqn:E; [apply Z.ltb_lt in E; lia|].
  now rewrite Nat2Z.id.
Qed.

Lemma zget_In (A : list Q) (i : Z) (y : Q) : zget A i = Some y -> In y A.
Proof.
  intros H. apply zget_Some in H. destruct H as [_ H].
  eapply nth_error_In. exact H.
Qed.

Lemma zget_app_old (A B : list Q) (i : Z) (x : Q) :
  zget A i = Some x -> zget (A ++ B) i = Some x.
Proof.
  intros H. pose proof (zget_Some _ _ _ H) as [Hr Hn]. unfold zget.
  destruct (i <? 0)%Z eqn:E; [apply Z.ltb_lt in E; lia|].
  rewrite nth_error_app1; [exact Hn|]. unfold alength in Hr. lia.
Qed.

Lemma zget_app_last (A : list Q) (d : Q) :
  zget (A ++ [d]) (alength (A ++ [d]) - 1) = Some d.
Proof.
  replace (alength (A ++ [d]) - 1)%Z with (alength A)
    by (unfold alength; rewrite length_app; cbn [List.length]; lia).
  apply zget_app_middle.
Qed.

(** X19.  Pushing the data maximum in [onChartPan] keeps the extended
    positions strictly ascending, changes no position that was there, and
    leaves a last position that is not below the data maximum. *)
Theorem pushDataMax_reaches (E : list Q) (d : Q) :
  ascendingb E = true -> E <> [] ->
  let pushed := pushDataMax E (Some (Fin d)) in
  ascendingb pushed = true
  /\ (forall i x, zget E i = Some x -> zget pushed i = Some x)
  /\ exists l, zget pushed (alength pushed - 1) = Some l /\ d <= l
               /\ (l == d \/ zget E (alength E - 1) = Some l).
Proof.
  intros Hs Hne pushed. unfold pushed.
  assert (Hlen : (0 < alength E)%Z).
  { unfold alength. destruct E; [congruence|cbn [List.length]; lia]. }
  destruct (zget_in_range E (alength E - 1) ltac:(lia)) as [l Hl].
  destruct (pushDataMax_cases E d) as [[-> Hle]|[-> (l' & Hl' & Hlt)]].
  - split; [exact Hs|]. split; [auto|].
    exists l. split; [exact Hl|]. split; [now apply Hle | now right].
  - split.
    + apply ascendingb_app; [exact Hs | reflexivity |].
      intros x y Hx [<-|[]]. destruct (In_zget _ _ Hx) as [i Hi].
      pose proof (zget_Some _ _ _ Hi) as [Hr _].
      pose proof (ascendingb_le E i (alength E - 1) x l' Hs Hi Hl'
                    ltac:(lia)). lra.
    + split; [intros i x; apply zget_app_old|].
      exists d. split; [apply zget_app_last|]. split; [lra|].
      left. reflexivity.
Qed.

Lemma pushDataMax_reaches_witness :
  ascendingb (pushDataMax [0; 50; 100] (Some (Fin 150))) = true
  /\ (forall i x, zget [0; 50; 100] i = Some x ->
                  zget (pushDataMax [0; 50; 100] (Some (Fin 150))) i = Some x)
  /\ exists l,
       zget (pushDataMax [0; 50; 100] (Some (Fin 150)))
         (alength (pushDataMax [0; 50; 100] (Some (Fin 150))) - 1) = Some l
       /\ 150 <= l
       /\ (l == 150 \/ zget [0; 50; 100] (alength [0; 50; 100] - 1) = Some l).
Proof.
  apply (pushDataMax_reaches [0; 50; 100] 150); [reflexivity | discriminate].
Defined.

Section PanShift.

Variable toFixedRange : Chart -> option num -> option num -> option num * option num.

Lemma index2val_at (o : Ordinal) (P : list Q) (idx : Q) (i : Z) (a : Q) :
  positions o = Some P -> zget P i = Some a -> idx == inject_Z i ->
  exists q, index2val o (Fin idx) = Some (Fin q) /\ q == a.
Proof.
  intros HP Hi He. pose proof (zget_Some _ _ _ Hi) as [Hr _].
  destruct (index2val_split o P idx i a HP Hi) as (q & Hq & Hx & _);
    try lra.
  { rewrite He. rewrite <- Zle_Qle. lia. }
  exists q. split; [exact Hq|]. now apply Hx.
Qed.

(** X20.  A pan by [k] units moves both extremes [k] positions along the
    extended positions: from the positions of index [i] and [j] to those of
    index [i + k] and [j + k], which is what is handed to [toFixedRange]. *)
Theorem panTarget_shifts (chart : Chart) (e : PanEvent) (E A : list Q)
  (i j k : Z) (lo hi lo' hi' : Q) :
  pushDataMax E (dataMax (xAxis chart)) = A -> ascendingb A = true ->
  min (xAxis chart) = Some (Fin lo) -> max (xAxis chart) = Some (Fin hi) ->
  zget A i = Some lo -> zget A j = Some hi ->
  movedUnits chart e = Fin (inject_Z k) ->
  zget A (i + k) = Some lo' -> zget A (j + k) = Some hi' ->
  exists x y,
    panTarget toFixedRange chart e E
    = toFixedRange (panPrepared chart E) (Some (Fin x)) (Some (Fin y))
    /\ x == lo' /\ y == hi'.
Proof.
  intros HA Hs Hmin Hmax Hi Hj Hk Hi' Hj'.
  unfold panTarget. rewrite HA, Hmin, Hmax, Hk. cbn [ofValue].
  destruct (zget_in_range A 0) as [first Hf].
  { apply zget_Some in Hi. lia. }
  destruct (zget_in_range A (alength A - 1)) as [lst Hl].
  { apply zget_Some in Hi. lia. }
  pose proof (zget_Some _ _ _ Hi) as [Hri _].
  pose proof (zget_Some _ _ _ Hj) as [Hrj _].
  assert (Bi : first <= lo /\ lo <= lst).
  { split; [apply (ascendingb_le A 0 i) | apply (ascendingb_le A i (alength A - 1))];
      auto; lia. }
  assert (Bj : first <= hi /\ hi <= lst).
  { split; [apply (ascendingb_le A 0 j) | apply (ascendingb_le A j (alength A - 1))];
      auto; lia. }
  rewrite (val2lin_visible (extendedAxis (Some A)) A lo first lst eq_refl Hf Hl)
    by tauto.
  rewrite (val2lin_visible (extendedAxis (Some A)) A hi first lst eq_refl Hf Hl)
    by tauto.
  rewrite (getIndexInArray_exact A i lo Hs Hi).
  rewrite (getIndexInArray_exact A j hi Hs Hj).
  cbn [ofZ nadd].
  destruct (index2val_at (extendedAxis (Some A)) A
              (inject_Z i + inject_Z k) (i + k) lo' eq_refl Hi')
    as (x & Ex & Hx); [now rewrite inject_Z_plus|].
  destruct (index2val_at (extendedAxis (Some A)) A
              (inject_Z j + inject_Z k) (j + k) hi' eq_refl Hj')
    as (y & Ey & Hy); [now rewrite inject_Z_plus|].
  exists x, y. rewrite Ex, Ey. auto.
Qed.

End PanShift.

Lemma panTarget_shifts_witness :
  exists x y,
    panTarget passRange (sampleChart "x") sampleEvent [0; 50; 100; 150]
    = passRange (panPrepared (sampleChart "x") [0; 50; 100; 150])
        (Some (Fin x)) (Some (Fin y))
    /\ x == 100 /\ y == 150.
Proof.
  apply (panTarget_shifts passRange (sampleChart "x") sampleEvent
           [0; 50; 100; 150] [0; 50; 100; 150] 0 1 2 0 50 100 150);
    reflexivity.
Defined.

(** ** The group interval factor *)

Lemma insertNumber_length (a : Q) (A : list Q) :
  List.length (insertNumber a A) = S (List.length A).
Proof.
  induction A as [|b A IH]; [reflexivity|].
  cbn [insertNumber]. destruct (Qle_bool a b); cbn [List.length]; congruence.
Qed.

Lemma sortNumbers_length (A : list Q) :
  List.length (sortNumbers A) = List.length A.
Proof.
  induction A as [|a A IH]; [reflexivity|].
  cbn [sortNumbers]. rewrite insertNumber_length. cbn [List.length]. congruence.
Qed.

Lemma distancesOf_length (A : list Q) :
  List.length (distancesOf A) = pred (List.length A).
Proof.
  induction A as [|a A IH]; [reflexivity|].
  destruct A as [|b A]; [reflexivity|].
  change (distancesOf (a :: b :: A)) with ((b - a) :: distancesOf (b :: A)).
  cbn [List.length] in *. rewrite IH. reflexivity.
Qed.

Lemma evenlySpaced_tail (a : Q) (A : list Q) (d : Q) :
  evenlySpaced (a :: A) d -> evenlySpaced A d.
Proof.
  intros H i x y Hx Hy. pose proof (zget_Some _ _ _ Hx) as [Hr _].
  apply (H (i + 1)%Z x y).
  - rewrite zget_cons by lia. now replace (i + 1 - 1)%Z with i by lia.
  - rewrite zget_cons by lia. now replace (i + 1 + 1 - 1)%Z with (i + 1)%Z by lia.
Qed.

Lemma distancesOf_evenly (A : list Q) (d : Q) :
  evenlySpaced A d -> forall y, In y (distancesOf A) -> y == d.
Proof.
  induction A as [|a A IH]; intros H y Hy; [destruct Hy|].
  destruct A as [|b A]; [destruct Hy|].
  change (distancesOf (a :: b :: A)) with ((b - a) :: distancesOf (b :: A)) in Hy.
  destruct Hy as [<-|Hy].
  - apply (H 0%Z a b); reflexivity.
  - apply IH; [|exact Hy]. eapply evenlySpaced_tail. exact H.
Qed.

Lemma evenlySpaced_position (A : list Q) (d first : Q) :
  evenlySpaced A d -> zget A 0 = Some first ->
  forall (n : nat) (x : Q),
    zget A (Z.of_nat n) = Some x -> x == first + inject_Z (Z.of_nat n) * d.
Proof.
  intros H H0. induction n as [|n IH]; intros x Hx.
  - change (Z.of_nat 0) with 0%Z in *. rewrite H0 in Hx. injection Hx as <-.
    change (inject_Z 0) with 0. ring.
  - pose proof (zget_Some _ _ _ Hx) as [Hr _].
    destruct (zget_in_range A (Z.of_nat n) ltac:(lia)) as [w Hw].
    specialize (IH w Hw).
    replace (Z.of_nat (S n)) with (Z.of_nat n + 1)%Z in * by lia.
    pose proof (H (Z.of_nat n) w x Hw Hx) as Hd.
    rewrite inject_Z_plus. change (inject_Z 1) with 1. lra.
Qed.

(** X21.  For data of at least three points, evenly spaced by [d], that lie
    within the range asked for, and no factor kept from an earlier call, the
    group interval factor is [(len * d) / (last - first)]: the median
    distance is the step and the range is cut down to the data.  (When
    arithmetic is exact this is [len / (len - 1)].) *)
Theorem getGroupIntervalFactor_evenly_spaced (g : option num)
  (xMin xMax : Q) (data : list Q) (d first lst : Q) :
  vtruthy g = false ->
  (3 <= alength data)%Z -> evenlySpaced data d -> 0 < d ->
  zget data 0 = Some first -> zget data (alength data - 1) = Some lst ->
  xMin <= first -> lst <= xMax ->
  exists q,
    getGroupIntervalFactor g (Fin xMin) (Fin xMax) data = Fin q
    /\ q == (inject_Z (alength data) * d) / (lst - first).
Proof.
  intros Hg Hlen Hev Hd H0 Hl Hmin Hmax.
  unfold getGroupIntervalFactor. rewrite Hg, H0, Hl. cbn [negb toNum].
  set (sorted := sortNumbers (distancesOf data)).
  assert (Hsl : alength sorted = (alength data - 1)%Z).
  { unfold sorted, alength. rewrite sortNumbers_length, distancesOf_length.
    unfold alength in Hlen. lia. }
  destruct (zget_in_range sorted (alength data / 2)) as [median Hm].
  { rewrite Hsl. split; [apply Z.div_pos; lia|].
    apply Z.div_lt_upper_bound; lia. }
  rewrite Hm. cbn [toNum ofZ nmul].
  assert (Hmed : median == d).
  { apply zget_In in Hm.
    assert (Hh : holds sorted median) by (exists median; split; [exact Hm|reflexivity]).
    apply (proj1 (sortNumbers_holds (distancesOf data) median)) in Hh.
    destruct Hh as (y & Hy & Hyq).
    rewrite <- Hyq. apply (distancesOf_evenly data d Hev). exact Hy. }
  assert (Hlst : lst == first + inject_Z (alength data - 1) * d).
  { pose proof (evenlySpaced_position data d first Hev H0
                  (Z.to_nat (alength data - 1)) lst) as H.
    rewrite Z2Nat.id in H by lia. apply H. exact Hl. }
  assert (Hn1 : 2 <= inject_Z (alength data - 1)).
  { change 2 with (inject_Z 2). rewrite <- Zle_Qle. lia. }
  assert (Hspan : 0 < inject_Z (alength data - 1) * d).
  { apply Qmult_lt_0_compat; lra. }
  assert (Ex : exists lo, nmax (Fin xMin) (Fin first) = Fin lo /\ lo == first).
  { cbn [nmax nle]. destruct (Qle_bool xMin first) eqn:E.
    - exists first. split; reflexivity.
    - apply Qle_bool_false in E. lra. }
  assert (Ey : exists hi, nmin (Fin xMax) (Fin lst) = Fin hi /\ hi == lst).
  { cbn [nmin nle]. destruct (Qle_bool xMax lst) eqn:E.
    - apply Qle_bool_iff in E. exists xMax. split; [reflexivity|lra].
    - exists lst. split; reflexivity. }
  destruct Ex as (lo & -> & Hlo). destruct Ey as (hi & -> & Hhi).
  cbn [nsub ndiv]. rewrite (Qeq_bool_gt (hi - lo) 0) by lra.
  eexists. split; [reflexivity|].
  assert (Hden : hi - lo == lst - first) by lra.
  rewrite Hmed, Hden. reflexivity.
Qed.

Lemma getGroupIntervalFactor_evenly_spaced_witness :
  exists q,
    getGroupIntervalFactor None (Fin 0) (Fin 100) [10; 20; 30; 40] = Fin q
    /\ q == (inject_Z (alength [10; 20; 30; 40]) * 10) / (40 - 10).
Proof.
  apply (getGroupIntervalFactor_evenly_spaced None 0 100 [10; 20; 30; 40]
           10 10 40); try reflexivity.
  - vm_compute. discriminate.
  - apply evenlySpaced_check. reflexivity.
  - unfold Qle; simpl; lia.
  - unfold Qle; simpl; lia.
Defined.

(** X22.  For a series of fewer than three points (and no factor kept from
    an earlier call) there is no median distance, and the factor is [NaN],
    whatever the range. *)
Theorem getGroupIntervalFactor_short_series (g : option num)
  (xMin xMax : num) (data : list Q) :
  vtruthy g = false -> (alength data < 3)%Z ->
  getGroupIntervalFactor g xMin xMax data = NaN.
Proof.
  intros Hg Hlen. unfold getGroupIntervalFactor. rewrite Hg. cbn [negb].
  destruct data as [|a [|b [|c data]]].
  - reflexivity.
  - reflexivity.
  - reflexivity.
  - unfold alength in Hlen. cbn [List.length] in Hlen. lia.
Qed.

Lemma getGroupIntervalFactor_short_series_witness :
  getGroupIntervalFactor None (Fin 0) (Fin 100) [10; 20] = NaN.
Proof.
  apply (getGroupIntervalFactor_short_series None (Fin 0) (Fin 100) [10; 20]);
    reflexivity.
Defined.

(** ** Removing the ticks that are too close *)

Lemma farApart_tests (translate : Q -> Q) (p : Q) (ticks : list Q) :
  farApart translate p ticks = true ->
  forall j a b, zget ticks j = Some a -> zget ticks (j + 1) = Some b ->
                p * (8 # 10) <= Qabs (translate b - translate a).
Proof.
  induction ticks as [|x ticks IH]; intros H j a b Ha Hb.
  - apply zget_nonempty in Ha. congruence.
  - pose proof (zget_Some _ _ _ Ha) as [Hr _].
    destruct ticks as [|y ticks].
    { rewrite zget_cons in Hb by lia. apply zget_nonempty in Hb. congruence. }
    cbn [farApart] in H. apply andb_true_iff in H. destruct H as [H1 H2].
    destruct (Z.eq_dec j 0) as [->|Hne].
    + change (zget (x :: y :: ticks) 0) with (Some x) in Ha.
      change (zget (x :: y :: ticks) (0 + 1)) with (Some y) in Hb.
      injection Ha as <-. injection Hb as <-. now apply Qle_bool_iff.
    + rewrite zget_cons in Ha, Hb by lia.
      apply (IH H2 (j - 1)%Z); [exact Ha|].
      now replace (j - 1 + 1)%Z with (j + 1 - 1)%Z by lia.
Qed.

Lemma subsequence_refl (l : list Q) : subsequence l l.
Proof.
  induction l as [|x l IH]; [constructor | now apply subsequence_keep].
Qed.

Lemma subsequence_trans (l1 l2 l3 : list Q) :
  subsequence l1 l2 -> subsequence l2 l3 -> subsequence l1 l3.
Proof.
  intros H12 H23. revert l1 H12.
  induction H23 as [|x l2 l3 H IH|x l2 l3 H IH]; intros l1 H12.
  - exact H12.
  - constructor. now apply IH.
  - inversion H12; subst.
    + apply subsequence_skip. now apply IH.
    + apply subsequence_keep. now apply IH.
Qed.

Lemma subsequence_In (l1 l2 : list Q) :
  subsequence l1 l2 -> forall x, In x l1 -> In x l2.
Proof.
  induction 1 as [|y l1 l2 H IH|y l1 l2 H IH]; intros x Hx.
  - exact Hx.
  - right. now apply IH.
  - destruct Hx as [->|Hx]; [now left | right; now apply IH].
Qed.

Lemma subsequence_ascending (l1 l2 : list Q) :
  subsequence l1 l2 -> ascendingb l2 = true -> ascendingb l1 = true.
Proof.
  induction 1 as [|y l1 l2 H IH|y l1 l2 H IH]; intros Hs.
  - reflexivity.
  - apply IH. destruct l2; [reflexivity|]. exact (ascendingb_tail _ _ Hs).
  - apply ascendingb_cons in Hs. destruct Hs as [Hs Hall].
    apply ascendingb_cons. split; [now apply IH|].
    intros z Hz. apply Hall. exact (subsequence_In _ _ H z Hz).
Qed.

Lemma subsequence_splice1 (l : list Q) (i : Z) : subsequence (splice1 l i) l.
Proof.
  unfold splice1. destruct (i <? 0)%Z; [apply subsequence_refl|].
  generalize (Z.to_nat i) as n. clear i. intros n. revert l.
  induction n as [|n IH]; intros l.
  - destruct l as [|x l]; [constructor|].
    cbn. apply subsequence_skip. apply subsequence_refl.
  - destruct l as [|x l]; [constructor|].
    cbn [firstn skipn app]. apply subsequence_keep. apply IH.
Qed.

Lemma splice1_length (l : list Q) (i : Z) :
  (alength l - 1 <= alength (splice1 l i))%Z.
Proof.
  unfold splice1, alength. destruct (i <? 0)%Z; [lia|].
  rewrite length_app, length_firstn, length_skipn. lia.
Qed.

Section RemoveCloseTicksProofs.

Variable translate : Q -> Q.
Variable higherRanks : Q -> bool.
Variable tickPixelIntervalOption : num.
Variable max : num.

Lemma setAt_length (array : list (option Q)) (i : Z) (v : option Q) :
  (0 <= i < Z.of_nat (List.length array))%Z ->
  List.length (setAt array i v) = List.length array.
Proof.
  intros H. unfold setAt.
  rewrite length_app. cbn [List.length].
  rewrite length_firstn, length_skipn. lia.
Qed.

Lemma oget_setAt_same (array : list (option Q)) (i : Z) (v : option Q) :
  (0 <= i < Z.of_nat (List.length array))%Z ->
  oget (setAt array i v) i = v.
Proof.
  intros H. unfold oget, setAt.
  destruct (i <? 0)%Z eqn:E; [apply Z.ltb_lt in E; lia|].
  rewrite nth_error_app2 by (rewrite length_firstn; lia).
  rewrite length_firstn.
  replace (Z.to_nat i - Nat.min (Z.to_nat i) (List.length array))%nat
    with 0%nat by lia.
  reflexivity.
Qed.

Lemma oget_setAt_other (array : list (option Q)) (i j : Z) (v : option Q) :
  (0 <= i < Z.of_nat (List.length array))%Z -> i <> j ->
  oget (setAt array i v) j = oget array j.
Proof.
  intros H Hne. unfold oget, setAt.
  destruct (j <? 0)%Z eqn:E; [reflexivity|]. apply Z.ltb_ge in E.
  destruct (Z_lt_le_dec j i) as [Hlt|Hge].
  - rewrite nth_error_app1 by (rewrite length_firstn; lia).
    rewrite nth_error_firstn.
    destruct (Nat.ltb (Z.to_nat j) (Z.to_nat i)) eqn:L; [reflexivity|].
    apply Nat.ltb_ge in L. lia.
  - rewrite nth_error_app2 by (rewrite length_firstn; lia).
    rewrite length_firstn.
    replace (Z.to_nat j - Nat.min (Z.to_nat i) (List.length array))%nat
      with (S (Z.to_nat j - S (Z.to_nat i)))%nat by lia.
    cbn [nth_error]. rewrite nth_error_skipn.
    replace (S (Z.to_nat i) + (Z.to_nat j - S (Z.to_nat i)))%nat
      with (Z.to_nat j) by lia.
    reflexivity.
Qed.

(** After the first loop, [translatedArr] holds the pixel position of every
    tick. *)
Lemma pixelLoop_translatedArr (i : nat) (gp : list Q) :
  forall st,
    (i <= List.length gp)%nat ->
    List.length (ps_translatedArr st) = List.length gp ->
    forall j x, zget gp j = Some x ->
      oget (ps_translatedArr (pixelLoop translate i gp st)) j
      = if (j <? Z.of_nat i)%Z then Some (translate x)
        else oget (ps_translatedArr st) j.
Proof.
  induction i as [|i IH]; intros st Hi Hlen j x Hj.
  - cbn [pixelLoop]. pose proof (zget_Some _ _ _ Hj) as [Hr _].
    destruct (j <? Z.of_nat 0)%Z eqn:E; [apply Z.ltb_lt in E; lia|reflexivity].
  - cbn [pixelLoop].
    rewrite (IH _ ltac:(lia)) with (x := x); auto.
    + cbn [ps_translatedArr].
      destruct (j <? Z.of_nat i)%Z eqn:E1.
      * apply Z.ltb_lt in E1.
        destruct (j <? Z.of_nat (S i))%Z eqn:E2; [reflexivity|].
        apply Z.ltb_ge in E2. lia.
      * apply Z.ltb_ge in E1.
        destruct (Z.eq_dec j (Z.of_nat i)) as [->|Hne].
        -- rewrite oget_setAt_same by lia. rewrite Hj. cbn [option_map].
           destruct (Z.of_nat i <? Z.of_nat (S i))%Z eqn:E2; [reflexivity|].
           apply Z.ltb_ge in E2. lia.
        -- rewrite oget_setAt_other by lia.
           destruct (j <? Z.of_nat (S i))%Z eqn:E2; [|reflexivity].
           apply Z.ltb_lt in E2. lia.
    + cbn [ps_translatedArr]. rewrite setAt_length; lia.
Qed.

Lemma pixelScan_translatedArr (gp : list Q) (j : Z) (x : Q) :
  zget gp j = Some x ->
  oget (ps_translatedArr (pixelScan translate gp)) j = Some (translate x).
Proof.
  intros Hj. unfold pixelScan.
  rewrite (pixelLoop_translatedArr _ gp _ (Nat.le_refl _)) with (x := x); auto.
  - pose proof (zget_Some _ _ _ Hj) as [Hr _]. unfold alength in Hr.
    destruct (j <? _)%Z eqn:E; [reflexivity|]. apply Z.ltb_ge in E. lia.
  - cbn [ps_translatedArr]. now rewrite length_map.
Qed.

Lemma removeLoop_subsequence (i : nat) (tArr : list (option Q))
  (median : Median) :
  forall (gp : list Q) (last : option Q),
    subsequence
      (removeLoop higherRanks tickPixelIntervalOption i tArr median gp last)
      gp.
Proof.
  induction i as [|i IH]; intros gp last; [apply subsequence_refl|].
  cbn [removeLoop]. destruct (tooClose _ _ _ _); [|apply IH].
  destruct (_ && _).
  - eapply subsequence_trans; [apply IH | apply subsequence_splice1].
  - eapply subsequence_trans; [apply IH | apply subsequence_splice1].
Qed.

Lemma removeLoop_not_empty (i : nat) (tArr : list (option Q))
  (median : Median) :
  forall (gp : list Q) (last : option Q),
    (Z.of_nat i <= alength gp)%Z ->
    (seen last = true -> Z.of_nat i < alength gp)%Z ->
    gp <> [] ->
    removeLoop higherRanks tickPixelIntervalOption i tArr median gp last
    <> [].
Proof.
  induction i as [|i IH]; intros gp last Hi Hseen Hne; [exact Hne|].
  cbn [removeLoop].
  destruct (tooClose _ last _ _) eqn:Et.
  - assert (Hs : seen last = true).
    { unfold tooClose in Et. destruct (seen last); [reflexivity|discriminate]. }
    specialize (Hseen Hs).
    assert (Hshrink : forall k, (Z.of_nat (S i) <= alength (splice1 gp k))%Z).
    { intro k. pose proof (splice1_length gp k). lia. }
    destruct (_ && _); apply IH.
    + specialize (Hshrink (Z.of_nat i + 1)%Z). lia.
    + intros _. specialize (Hshrink (Z.of_nat i + 1)%Z). lia.
    + intro E. specialize (Hshrink (Z.of_nat i + 1)%Z). rewrite E in Hshrink.
      unfold alength in Hshrink. cbn in Hshrink. lia.
    + specialize (Hshrink (Z.of_nat i)). lia.
    + intros _. specialize (Hshrink (Z.of_nat i)). lia.
    + intro E. specialize (Hshrink (Z.of_nat i)). rewrite E in Hshrink.
      unfold alength in Hshrink. cbn in Hshrink. lia.
  - apply IH; [lia | intros _; lia | exact Hne].
Qed.

(** X23.  Removing the ticks that are too close only leaves ticks out: what
    remains is a subsequence of the ticks, still strictly ascending when they
    were, and it is never empty when they were not. *)
Theorem removeCloseTicks_subsequence (gp : list Q) :
  let thinned :=
    removeCloseTicks translate higherRanks tickPixelIntervalOption max gp in
  subsequence thinned gp
  /\ (ascendingb gp = true -> ascendingb thinned = true)
  /\ (gp <> [] -> thinned <> []).
Proof.
  intros thinned. unfold thinned, removeCloseTicks. split; [|split].
  - apply removeLoop_subsequence.
  - intros Hs. eapply subsequence_ascending; [apply removeLoop_subsequence|].
    exact Hs.
  - intros Hne. apply removeLoop_not_empty; [| discriminate | exact Hne].
    unfold alength. destruct (ngt _ _); lia.
Qed.

Lemma removeLoop_far_apart (p : Q) (tArr : list (option Q))
  (median : Median) (gp : list Q) :
  tickPixelIntervalOption = Fin p ->
  (forall j x, zget gp j = Some x -> oget tArr j = Some (translate x)) ->
  (forall j a b, zget gp j = Some a -> zget gp (j + 1) = Some b ->
                 p * (8 # 10) <= Qabs (translate b - translate a)) ->
  forall (i : nat) (last : option Q),
    (Z.of_nat i <= alength gp)%Z ->
    (last = None
     \/ exists b, zget gp (Z.of_nat i) = Some b /\ last = Some (translate b)) ->
    removeLoop higherRanks tickPixelIntervalOption i tArr median gp last = gp.
Proof.
  intros Htpi Harr Hfar. induction i as [|i IH]; intros last Hi Hlast;
    [reflexivity|].
  cbn [removeLoop].
  destruct (zget_in_range gp (Z.of_nat i) ltac:(lia)) as [a Ha].
  rewrite (Harr _ _ Ha).
  assert (Hnot : tooClose tickPixelIntervalOption last
                   (nabs (nsub (toNum last) (toNum (Some (translate a)))))
                   median = false).
  { unfold tooClose. destruct Hlast as [->|(b & Hb & ->)]; [reflexivity|].
    replace (Z.of_nat (S i)) with (Z.of_nat i + 1)%Z in Hb by lia.
    specialize (Hfar _ _ _ Ha Hb). rewrite Htpi.
    cbn [toNum nsub nabs nmul]. rewrite nlt_Fin.
    rewrite (Qle_bool_true _ _ Hfar). cbn [negb].
    now rewrite andb_false_r. }
  rewrite Hnot. apply IH; [lia|]. right. exists a. auto.
Qed.

(** X24.  Ticks whose pixel positions are all at least 0.8 times the tick
    pixel interval apart are all kept, whatever the median distance, the
    ranks and [max]. *)
Theorem removeCloseTicks_far_apart (p : Q) (gp : list Q) :
  tickPixelIntervalOption = Fin p ->
  farApart translate p gp = true ->
  removeCloseTicks translate higherRanks tickPixelIntervalOption max gp = gp.
Proof.
  intros Htpi Hfar. unfold removeCloseTicks.
  apply (removeLoop_far_apart p); auto.
  - intros j x Hj. now apply pixelScan_translatedArr.
  - now apply farApart_tests.
  - unfold alength. destruct (ngt _ _); lia.
Qed.

End RemoveCloseTicksProofs.

Lemma removeCloseTicks_far_apart_witness :
  removeCloseTicks tenPixels unranked (Fin 100) (Fin 20) [0; 10; 25]
  = [0; 10; 25].
Proof.
  apply (removeCloseTicks_far_apart tenPixels unranked (Fin 100) (Fin 20)
           100 [0; 10; 25]); reflexivity.
Defined.
